(** * KeyQuest: the game session engine of [src/App.jsx]

    A shallow embedding of the React component [App] (state hooks, event
    handlers, the timer effect and the delayed word-advance), of the
    input filter of [components/Keyboard.jsx] and of the answer
    selection of [components/RiddleModal.jsx] with its two-second
    pause, followed by the properties of the session engine.

    React state is a record; a handler is a function on that record.  A
    call [setX(v)] overwrites a field, a call [setX(prev => f prev)]
    applies [f] to the field's current value.  A handler reads the
    component's variables through the closure of the render it was
    created in; for a handler invoked directly by an input event this is
    the current state, for the callback of a timeout it is the state of
    the render that scheduled it: [setTimeout(..., 500)] in
    [handleKeyPress] calls the [moveToNextWord] of that render, and
    [setTimeout(..., 2000)] in the modal calls the [onAnswer], that is
    the [handleRiddleAnswer], of the render in which the answer was
    selected.  The captured values are stored with the pending
    timeout. *)

From Stdlib Require Import Strings.String Strings.Ascii ZArith Lia.
From stdpp Require Import base decidable option list numbers.

Local Open Scope string_scope.
Local Open Scope Z_scope.

(** ** Constants ([constants/texts.js], [GAME_CONFIG]) *)

Module GAME_CONFIG.
Definition INITIAL_TIME : Z := 30.
Definition BONUS_TIME : Z := 10.
Definition MAX_TIME : Z := 60.
Definition POINTS_PER_WORD : Z := 5.
Definition POINTS_PER_RIDDLE : Z := 20.
Definition PENALTY_PER_WRONG_WORD : Z := 3.
Definition POINTS_PENALTY_WRONG_KEY : Z := 3.
Definition MAX_WRONG_KEYS_PER_WORD : Z := 2.
End GAME_CONFIG.

(** ** JavaScript strings

    Words, keys and the typed text are strings of ASCII characters. *)

Module JS.
(** [s[i]]: the one-character string at index [i], [undefined] past
    the end. *)
Definition charAt (s : string) (i : nat) : option string :=
  match String.get i s with
  | Some c => Some (String c EmptyString)
  | None => None
  end.

(** [s.slice(0, -1)] *)
Definition dropLast (s : string) : string :=
  String.substring 0 (String.length s - 1) s.

(** [Math.floor(Math.random() * n)]: some index below [n] (0 when
    [n] is 0); [rnd] stands for the random source. *)
Definition randomIndex (rnd n : nat) : nat :=
  match n with
  | O => O
  | S _ => (rnd mod n)%nat
  end.
End JS.

(** ** The riddle catalog ([data/riddles.json])

    The catalog is imported data; the engine is parameterised by it. *)

Record Riddle := {
  id : Z;
  words : list string;
  question : string;
  options : list string;
  correctAnswer : nat;
  theme : string
}.

(** ** [components/Keyboard.jsx]: which keys reach [onKeyPress] *)

Module Keyboard.
Definition keyboardLayout : list (list string) :=
  [ ["Q"; "W"; "E"; "R"; "T"; "Y"; "U"; "I"; "O"; "P"];
    ["A"; "S"; "D"; "F"; "G"; "H"; "J"; "K"; "L"];
    ["Z"; "X"; "C"; "V"; "B"; "N"; "M"] ].

Definition specialKeys : list string :=
  [ "Shift"; "Control"; "Alt"; "Meta"; "Tab"; "CapsLock"; "Escape";
    "F1"; "F2"; "F3"; "F4"; "F5"; "F6"; "F7"; "F8"; "F9"; "F10"; "F11"; "F12";
    "ArrowUp"; "ArrowDown"; "ArrowLeft"; "ArrowRight"; "Home"; "End";
    "PageUp"; "PageDown"; "Insert"; "Delete"; "Enter"; " " ].

Definition includes (l : list string) (s : string) : bool :=
  existsb (String.eqb s) l.

(** [/^[A-Za-z]$/] *)
Definition isLetter (s : string) : bool :=
  match s with
  | String c EmptyString =>
      let n := nat_of_ascii c in
      ((65 <=? n) && (n <=? 90) || (97 <=? n) && (n <=? 122))%nat
  | _ => false
  end.

(** [handleKeyDown]: the key forwarded to [onKeyPress] for a physical
    key event with [event.key = key], if any. *)
Definition handleKeyDown (disabled : bool) (key : string) : option string :=
  if disabled then None
  else if (key =? "")%string then None
  else if (key =? "Backspace")%string then Some "BACKSPACE"
  else if includes specialKeys key then None
  else if isLetter key then Some key
  else None.

(** [handleKeyClick]: the key forwarded for a click on an on-screen
    button. *)
Definition handleKeyClick (disabled : bool) (key : string) : option string :=
  if disabled then None else Some key.

(** The on-screen buttons: the three letter rows, DEL and SPACE. *)
Definition buttons : list string :=
  (List.concat keyboardLayout ++ ["BACKSPACE"; " "])%list.
End Keyboard.

(** ** [components/RiddleModal.jsx]: the answer check *)

Module RiddleModal.
(** [handleAnswerSelect]: [answerIndex === riddle.correctAnswer], the
    value later passed to [onAnswer]. *)
Definition handleAnswerSelect (riddle : Riddle) (answerIndex : nat) : bool :=
  (answerIndex =? correctAnswer riddle)%nat.
End RiddleModal.

(** ** The component state of [App] *)

Inductive GAME_STATES := MENU | PLAYING | RIDDLE | GAME_OVER.

#[global] Instance GAME_STATES_eq_dec : EqDecision GAME_STATES.
Proof. solve_decision. Defined.

(** The three duration buttons of the menu. *)
Inductive Duration := T30 | T45 | T60.

Definition seconds (d : Duration) : Z :=
  match d with T30 => 30 | T45 => 45 | T60 => 60 end.

(** What the callback of the 500 ms timeout has captured:
    [moveToNextWord] of the scheduling render, that is, that render's
    [currentWordIndex] and [currentRiddle]. *)
Record Closure := {
  cl_riddleIndex : nat;
  cl_wordIndex : nat
}.

(** What the callback of the two-second timeout of [RiddleModal] has
    captured: the result [correct] of the check made when the answer
    was selected, and [onAnswer], the [handleRiddleAnswer] of that
    render ([useCallback] on [currentRiddleIndex] and
    [usedRiddleIndices]), that is, that render's [usedRiddleIndices]. *)
Record AnswerClosure := {
  cl_correct : bool;
  cl_usedRiddleIndices : list nat
}.

(** The session fields held in the [useState] hooks of [App], the
    [showResult] hook of [RiddleModal], and the two queues of pending
    timeouts: the word advances and the answers (oldest first; the
    timeouts of a queue have the same delay and fire in the order they
    were set, and none of them is ever cleared).  [pressedKey], the
    score-board flags and the high score of [App], and [selectedAnswer]
    and [isCorrect] of the modal, only drive the display and are left
    out. *)
Record State := {
  gameState : GAME_STATES;
  score : Z;
  timeLeft : Z;
  selectedTime : Z;
  currentRiddleIndex : nat;
  currentWordIndex : nat;
  typedText : string;
  wrongKeyCount : Z;
  usedRiddleIndices : list nat;
  currentRound : Z;
  showRiddleModal : bool;
  showGameOver : bool;
  pendingAdvance : list Closure;
  showResult : bool;
  pendingAnswer : list AnswerClosure
}.

(** The values of the [useState] initialisers. *)
Definition initialState : State := {|
  gameState := MENU;
  score := 0;
  timeLeft := 30;
  selectedTime := 30;
  currentRiddleIndex := 0;
  currentWordIndex := 0;
  typedText := "";
  wrongKeyCount := 0;
  usedRiddleIndices := [];
  currentRound := 1;
  showRiddleModal := false;
  showGameOver := false;
  pendingAdvance := [];
  showResult := false;
  pendingAnswer := []
|}.

(** State setters; the argument is the updater function. *)

Definition setGameState (v : GAME_STATES) (st : State) : State :=
  {| gameState := v;
     score := score st;
     timeLeft := timeLeft st;
     selectedTime := selectedTime st;
     currentRiddleIndex := currentRiddleIndex st;
     currentWordIndex := currentWordIndex st;
     typedText := typedText st;
     wrongKeyCount := wrongKeyCount st;
     usedRiddleIndices := usedRiddleIndices st;
     currentRound := currentRound st;
     showRiddleModal := showRiddleModal st;
     showGameOver := showGameOver st;
     pendingAdvance := pendingAdvance st;
     showResult := showResult st;
     pendingAnswer := pendingAnswer st |}.

Definition setScore (f : Z -> Z) (st : State) : State :=
  {| gameState := gameState st;
     score := f (score st);
     timeLeft := timeLeft st;
     selectedTime := selectedTime st;
     currentRiddleIndex := currentRiddleIndex st;
     currentWordIndex := currentWordIndex st;
     typedText := typedText st;
     wrongKeyCount := wrongKeyCount st;
     usedRiddleIndices := usedRiddleIndices st;
     currentRound := currentRound st;
     showRiddleModal := showRiddleModal st;
     showGameOver := showGameOver st;
     pendingAdvance := pendingAdvance st;
     showResult := showResult st;
     pendingAnswer := pendingAnswer st |}.

Definition setTimeLeft (f : Z -> Z) (st : State) : State :=
  {| gameState := gameState st;
     score := score st;
     timeLeft := f (timeLeft st);
     selectedTime := selectedTime st;
     currentRiddleIndex := currentRiddleIndex st;
     currentWordIndex := currentWordIndex st;
     typedText := typedText st;
     wrongKeyCount := wrongKeyCount st;
     usedRiddleIndices := usedRiddleIndices st;
     currentRound := currentRound st;
     showRiddleModal := showRiddleModal st;
     showGameOver := showGameOver st;
     pendingAdvance := pendingAdvance st;
     showResult := showResult st;
     pendingAnswer := pendingAnswer st |}.

Definition setSelectedTime (v : Z) (st : State) : State :=
  {| gameState := gameState st;
     score := score st;
     timeLeft := timeLeft st;
     selectedTime := v;
     currentRiddleIndex := currentRiddleIndex st;
     currentWordIndex := currentWordIndex st;
     typedText := typedText st;
     wrongKeyCount := wrongKeyCount st;
     usedRiddleIndices := usedRiddleIndices st;
     currentRound := currentRound st;
     showRiddleModal := showRiddleModal st;
     showGameOver := showGameOver st;
     pendingAdvance := pendingAdvance st;
     showResult := showResult st;
     pendingAnswer := pendingAnswer st |}.

Definition setCurrentRiddleIndex (v : nat) (st : State) : State :=
  {| gameState := gameState st;
     score := score st;
     timeLeft := timeLeft st;
     selectedTime := selectedTime st;
     currentRiddleIndex := v;
     currentWordIndex := currentWordIndex st;
     typedText := typedText st;
     wrongKeyCount := wrongKeyCount st;
     usedRiddleIndices := usedRiddleIndices st;
     currentRound := currentRound st;
     showRiddleModal := showRiddleModal st;
     showGameOver := showGameOver st;
     pendingAdvance := pendingAdvance st;
     showResult := showResult st;
     pendingAnswer := pendingAnswer st |}.

Definition setCurrentWordIndex (f : nat -> nat) (st : State) : State :=
  {| gameState := gameState st;
     score := score st;
     timeLeft := timeLeft st;
     selectedTime := selectedTime st;
     currentRiddleIndex := currentRiddleIndex st;
     currentWordIndex := f (currentWordIndex st);
     typedText := typedText st;
     wrongKeyCount := wrongKeyCount st;
     usedRiddleIndices := usedRiddleIndices st;
     currentRound := currentRound st;
     showRiddleModal := showRiddleModal st;
     showGameOver := showGameOver st;
     pendingAdvance := pendingAdvance st;
     showResult := showResult st;
     pendingAnswer := pendingAnswer st |}.

Definition setTypedText (f : string -> string) (st : State) : State :=
  {| gameState := gameState st;
     score := score st;
     timeLeft := timeLeft st;
     selectedTime := selectedTime st;
     currentRiddleIndex := currentRiddleIndex st;
     currentWordIndex := currentWordIndex st;
     typedText := f (typedText st);
     wrongKeyCount := wrongKeyCount st;
     usedRiddleIndices := usedRiddleIndices st;
     currentRound := currentRound st;
     showRiddleModal := showRiddleModal st;
     showGameOver := showGameOver st;
     pendingAdvance := pendingAdvance st;
     showResult := showResult st;
     pendingAnswer := pendingAnswer st |}.

Definition setWrongKeyCount (f : Z -> Z) (st : State) : State :=
  {| gameState := gameState st;
     score := score st;
     timeLeft := timeLeft st;
     selectedTime := selectedTime st;
     currentRiddleIndex := currentRiddleIndex st;
     currentWordIndex := currentWordIndex st;
     typedText := typedText st;
     wrongKeyCount := f (wrongKeyCount st);
     usedRiddleIndices := usedRiddleIndices st;
     currentRound := currentRound st;
     showRiddleModal := showRiddleModal st;
     showGameOver := showGameOver st;
     pendingAdvance := pendingAdvance st;
     showResult := showResult st;
     pendingAnswer := pendingAnswer st |}.

Definition setUsedRiddleIndices (f : list nat -> list nat)
    (st : State) : State :=
  {| gameState := gameState st;
     score := score st;
     timeLeft := timeLeft st;
     selectedTime := selectedTime st;
     currentRiddleIndex := currentRiddleIndex st;
     currentWordIndex := currentWordIndex st;
     typedText := typedText st;
     wrongKeyCount := wrongKeyCount st;
     usedRiddleIndices := f (usedRiddleIndices st);
     currentRound := currentRound st;
     showRiddleModal := showRiddleModal st;
     showGameOver := showGameOver st;
     pendingAdvance := pendingAdvance st;
     showResult := showResult st;
     pendingAnswer := pendingAnswer st |}.

Definition setCurrentRound (f : Z -> Z) (st : State) : State :=
  {| gameState := gameState st;
     score := score st;
     timeLeft := timeLeft st;
     selectedTime := selectedTime st;
     currentRiddleIndex := currentRiddleIndex st;
     currentWordIndex := currentWordIndex st;
     typedText := typedText st;
     wrongKeyCount := wrongKeyCount st;
     usedRiddleIndices := usedRiddleIndices st;
     currentRound := f (currentRound st);
     showRiddleModal := showRiddleModal st;
     showGameOver := showGameOver st;
     pendingAdvance := pendingAdvance st;
     showResult := showResult st;
     pendingAnswer := pendingAnswer st |}.

Definition setShowRiddleModal (v : bool) (st : State) : State :=
  {| gameState := gameState st;
     score := score st;
     timeLeft := timeLeft st;
     selectedTime := selectedTime st;
     currentRiddleIndex := currentRiddleIndex st;
     currentWordIndex := currentWordIndex st;
     typedText := typedText st;
     wrongKeyCount := wrongKeyCount st;
     usedRiddleIndices := usedRiddleIndices st;
     currentRound := currentRound st;
     showRiddleModal := v;
     showGameOver := showGameOver st;
     pendingAdvance := pendingAdvance st;
     showResult := showResult st;
     pendingAnswer := pendingAnswer st |}.

Definition setShowGameOver (v : bool) (st : State) : State :=
  {| gameState := gameState st;
     score := score st;
     timeLeft := timeLeft st;
     selectedTime := selectedTime st;
     currentRiddleIndex := currentRiddleIndex st;
     currentWordIndex := currentWordIndex st;
     typedText := typedText st;
     wrongKeyCount := wrongKeyCount st;
     usedRiddleIndices := usedRiddleIndices st;
     currentRound := currentRound st;
     showRiddleModal := showRiddleModal st;
     showGameOver := v;
     pendingAdvance := pendingAdvance st;
     showResult := showResult st;
     pendingAnswer := pendingAnswer st |}.

Definition setPendingAdvance (f : list Closure -> list Closure)
    (st : State) : State :=
  {| gameState := gameState st;
     score := score st;
     timeLeft := timeLeft st;
     selectedTime := selectedTime st;
     currentRiddleIndex := currentRiddleIndex st;
     currentWordIndex := currentWordIndex st;
     typedText := typedText st;
     wrongKeyCount := wrongKeyCount st;
     usedRiddleIndices := usedRiddleIndices st;
     currentRound := currentRound st;
     showRiddleModal := showRiddleModal st;
     showGameOver := showGameOver st;
     pendingAdvance := f (pendingAdvance st);
     showResult := showResult st;
     pendingAnswer := pendingAnswer st |}.

Definition setShowResult (v : bool) (st : State) : State :=
  {| gameState := gameState st;
     score := score st;
     timeLeft := timeLeft st;
     selectedTime := selectedTime st;
     currentRiddleIndex := currentRiddleIndex st;
     currentWordIndex := currentWordIndex st;
     typedText := typedText st;
     wrongKeyCount := wrongKeyCount st;
     usedRiddleIndices := usedRiddleIndices st;
     currentRound := currentRound st;
     showRiddleModal := showRiddleModal st;
     showGameOver := showGameOver st;
     pendingAdvance := pendingAdvance st;
     showResult := v;
     pendingAnswer := pendingAnswer st |}.

Definition setPendingAnswer (f : list AnswerClosure -> list AnswerClosure)
    (st : State) : State :=
  {| gameState := gameState st;
     score := score st;
     timeLeft := timeLeft st;
     selectedTime := selectedTime st;
     currentRiddleIndex := currentRiddleIndex st;
     currentWordIndex := currentWordIndex st;
     typedText := typedText st;
     wrongKeyCount := wrongKeyCount st;
     usedRiddleIndices := usedRiddleIndices st;
     currentRound := currentRound st;
     showRiddleModal := showRiddleModal st;
     showGameOver := showGameOver st;
     pendingAdvance := pendingAdvance st;
     showResult := showResult st;
     pendingAnswer := f (pendingAnswer st) |}.

(** ** The handlers of [App] *)

Section Engine.

(** [riddlesData.riddles] *)
Variable riddles : list Riddle.

Definition currentRiddle (st : State) : option Riddle :=
  riddles !! currentRiddleIndex st.

(** [currentRiddle?.words[currentWordIndex]] *)
Definition currentWord (st : State) : option string :=
  match currentRiddle st with
  | Some r => words r !! currentWordIndex st
  | None => None
  end.

Definition closureOf (st : State) : Closure :=
  {| cl_riddleIndex := currentRiddleIndex st;
     cl_wordIndex := currentWordIndex st |}.

(** [initializeGame] *)
Definition initializeGame (rnd : nat) (st : State) : State :=
  let selected := selectedTime st in
  let st := setGameState PLAYING st in
  let st := setScore (fun _ => 0) st in
  let st := setTimeLeft (fun _ => selected) st in
  let firstRiddleIndex := JS.randomIndex rnd (length riddles) in
  let st := setCurrentRiddleIndex firstRiddleIndex st in
  let st := setUsedRiddleIndices (fun _ => [firstRiddleIndex]) st in
  let st := setCurrentWordIndex (fun _ => O) st in
  let st := setTypedText (fun _ => "") st in
  let st := setWrongKeyCount (fun _ => 0) st in
  let st := setCurrentRound (fun _ => 1) st in
  let st := setShowRiddleModal false st in
  setShowGameOver false st.

(** [endGame].  It clears the tick timeout, which is the guard of
    [tick] below; the pending word-advance timeouts are not touched.
    The best-score bookkeeping is display state. *)
Definition endGame (st : State) : State :=
  let st := setGameState GAME_OVER st in
  setShowGameOver true st.

(** [moveToNextWord(wordCompleted)]; [cl] holds the variables of the
    render the callback was created in, the updater functions see the
    state at the time of the call.  Nothing in the body throws, so the
    [catch] branch is not modelled. *)
Definition moveToNextWord (cl : Closure) (wordCompleted : bool)
    (st : State) : State :=
  match riddles !! cl_riddleIndex cl with
  | None => st
  | Some currentRiddle =>
      let st :=
        if wordCompleted
        then setScore (fun prev => prev + GAME_CONFIG.POINTS_PER_WORD) st
        else
          let penalty := GAME_CONFIG.PENALTY_PER_WRONG_WORD in
          setScore (fun prev => Z.max 0 (prev - penalty)) st in
      if (cl_wordIndex cl + 1 <? length (words currentRiddle))%nat
      then
        let st := setCurrentWordIndex (fun prev => (prev + 1)%nat) st in
        let st := setTypedText (fun _ => "") st in
        setWrongKeyCount (fun _ => 0) st
      else
        let st := setShowRiddleModal true st in
        setGameState RIDDLE st
  end.

(** [handleKeyPress(key)] *)
Definition handleKeyPress (key : string) (st : State) : State :=
  if negb (bool_decide (gameState st = PLAYING)) then st
  else
    match currentWord st with
    | None => st
    | Some currentWord =>
        if (currentWord =? "")%string || (key =? "")%string then st
        else if (key =? "BACKSPACE")%string then
          if (0 <? String.length (typedText st))%nat then
            let st' := setTypedText JS.dropLast st in
            if 0 <? wrongKeyCount st
            then setWrongKeyCount (fun prev => Z.max 0 (prev - 1)) st'
            else st'
          else st
        else
          match JS.charAt currentWord (String.length (typedText st)) with
          | None => st
          | Some targetChar =>
              if (key =? targetChar)%string then
                let newTypedText := typedText st ++ key in
                let st' := setTypedText (fun _ => newTypedText) st in
                if (String.length newTypedText
                      =? String.length currentWord)%nat
                then moveToNextWord (closureOf st) true st'
                else st'
              else
                let st' :=
                  setScore
                    (fun prev =>
                       Z.max 0 (prev - GAME_CONFIG.POINTS_PENALTY_WRONG_KEY))
                    st in
                let newTypedText := typedText st ++ key in
                let st' := setTypedText (fun _ => newTypedText) st' in
                let newWrongCount := wrongKeyCount st + 1 in
                let st' := setWrongKeyCount (fun _ => newWrongCount) st' in
                if GAME_CONFIG.MAX_WRONG_KEYS_PER_WORD <=? newWrongCount
                then
                  setPendingAdvance
                    (fun q => (q ++ [closureOf st])%list) st'
                else st'
          end
    end.

(** The indices not yet used:
    [riddles.map((_, index) => index).filter(index => !used.includes(index))] *)
Definition availableIndices (used : list nat) : list nat :=
  filter (fun index => index ∉ used) (seq 0 (length riddles)).

(** [handleRiddleAnswer(isCorrect)]; [rnd] stands for [Math.random()].
    [used] is the [usedRiddleIndices] of the render the callback was
    created in: the length test and the filter read it, while the
    updater of [setUsedRiddleIndices] appends to the list at the time of
    the call.  The random index is below the length of [available], so
    the default of [nth] is never taken. *)
Definition handleRiddleAnswer (used : list nat) (isCorrect : bool)
    (rnd : nat) (st : State) : State :=
  let st := setShowRiddleModal false st in
  if isCorrect then
    let st := setScore (fun prev => prev + GAME_CONFIG.POINTS_PER_RIDDLE) st in
    if (length used <? length riddles)%nat then
      let available := availableIndices used in
      if (0 <? length available)%nat then
        let nextRiddleIndex :=
          nth (JS.randomIndex rnd (length available)) available O in
        let st :=
          setUsedRiddleIndices
            (fun prev => (prev ++ [nextRiddleIndex])%list) st in
        let st := setCurrentRiddleIndex nextRiddleIndex st in
        let st := setCurrentWordIndex (fun _ => O) st in
        let st := setTypedText (fun _ => "") st in
        let st := setWrongKeyCount (fun _ => 0) st in
        let st := setCurrentRound (fun prev => prev + 1) st in
        let st := setGameState PLAYING st in
        setTimeLeft (fun prev => Z.min (prev + 10) 60) st
      else endGame st
    else endGame st
  else endGame st.

(** ** The riddle modal inside [App]

    [<RiddleModal isOpen={showRiddleModal} riddle={currentRiddle}
    onAnswer={handleRiddleAnswer} />] is always mounted; it renders
    nothing unless [isOpen] holds and there is a riddle. *)

(** What the timeout of an answer selected in [st] captures. *)
Definition answerClosureOf (riddle : Riddle) (answerIndex : nat)
    (st : State) : AnswerClosure :=
  {| cl_correct := RiddleModal.handleAnswerSelect riddle answerIndex;
     cl_usedRiddleIndices := usedRiddleIndices st |}.

(** [handleAnswerSelect(answerIndex)] of the modal rendered from [st],
    called by the click on the button of an option or, through
    [handleKeyPress] of the modal, by one of the keys 1 to 4.  The
    buttons are rendered from [riddle.options] while the modal is open
    and are disabled once a result is shown; the key handler returns
    when the modal is closed or a result is shown, and tests the index
    against [riddle.options.length].  The key listener is registered
    again whenever [isOpen], [showResult] or [riddle] change, and every
    handler that changes [usedRiddleIndices] closes the modal, so an
    open modal's listener holds the same [onAnswer] as its buttons. *)
Definition handleAnswerSelect (answerIndex : nat) (st : State) : State :=
  match currentRiddle st with
  | None => st
  | Some riddle =>
      if showRiddleModal st && negb (showResult st)
         && (answerIndex <? length (options riddle))%nat
      then
        let st' := setShowResult true st in
        setPendingAnswer
          (fun q => (q ++ [answerClosureOf riddle answerIndex st])%list) st'
      else st
  end.

(** The oldest pending [setTimeout(() => onAnswer(correct), 2000)]
    fires. *)
Definition answerTimeout (rnd : nat) (st : State) : State :=
  match pendingAnswer st with
  | [] => st
  | cl :: rest =>
      handleRiddleAnswer (cl_usedRiddleIndices cl) (cl_correct cl) rnd
        (setPendingAnswer (fun _ => rest) st)
  end.

(** The identity of the [riddle] prop: the entries of the catalog are
    distinct objects, an index past the end gives [undefined]. *)
Definition riddleProp (st : State) : option nat :=
  if (currentRiddleIndex st <? length riddles)%nat
  then Some (currentRiddleIndex st)
  else None.

(** The effect of the modal on [isOpen] and [riddle]: it runs after a
    render in which one of them differs from the render before, [prev],
    and resets the selection when the modal is open. *)
Definition modalEffect (prev st : State) : State :=
  if showRiddleModal st
     && negb (bool_decide (showRiddleModal prev = showRiddleModal st /\
                           riddleProp prev = riddleProp st))
  then setShowResult false st
  else st.

(** The timer effect.  Its first branch arms a one-second timeout
    while [gameState] is [PLAYING] and [timeLeft > 0], and the cleanup
    clears it: [tick] is the callback of that timeout and does nothing
    when the timeout is not armed.  Its second branch, [timerEffect],
    runs after every render. *)
Definition tick (st : State) : State :=
  if bool_decide (gameState st = PLAYING) && (0 <? timeLeft st)
  then setTimeLeft (fun prev => prev - 1) st
  else st.

Definition timerEffect (st : State) : State :=
  if (timeLeft st =? 0) && bool_decide (gameState st = PLAYING)
  then endGame st
  else st.

(** The oldest pending [setTimeout(() => moveToNextWord(false), 500)]
    fires. *)
Definition advanceTimeout (st : State) : State :=
  match pendingAdvance st with
  | [] => st
  | cl :: rest =>
      moveToNextWord cl false (setPendingAdvance (fun _ => rest) st)
  end.

(** The buttons that leave the game-over screen:
    [setShowGameOver(false); setGameState(GAME_STATES.MENU)]. *)
Definition backToMenu (st : State) : State :=
  let st := setShowGameOver false st in
  setGameState MENU st.

(** ** Events *)

Inductive Event :=
| SelectTime (d : Duration)
| StartGame (rnd : nat)
| KeyPress (key : string)
| SelectAnswer (answerIndex : nat)
| AnswerTimeout (rnd : nat)
| Tick
| AdvanceTimeout
| BackToMenu.

(** The handler an event runs.  The duration buttons and the start
    button are rendered in the menu only.  [KeyPress] carries whatever
    [onKeyPress] is called with, [SelectAnswer] the index the modal's
    [handleAnswerSelect] is called with, [AnswerTimeout] is the end of
    the two-second pause of the oldest answer, with the random number
    its [handleRiddleAnswer] draws.  [BackToMenu] stands for each
    button that leaves the game-over screen. *)
Definition handle (e : Event) (st : State) : State :=
  match e with
  | SelectTime d =>
      if bool_decide (gameState st = MENU)
      then setSelectedTime (seconds d) st else st
  | StartGame rnd =>
      if bool_decide (gameState st = MENU)
      then initializeGame rnd st else st
  | KeyPress key => handleKeyPress key st
  | SelectAnswer answerIndex => handleAnswerSelect answerIndex st
  | AnswerTimeout rnd => answerTimeout rnd st
  | Tick => tick st
  | AdvanceTimeout => advanceTimeout st
  | BackToMenu => backToMenu st
  end.

(** One event: the handler, then the effects of the render it causes,
    those of the modal before those of [App]. *)
Definition step (st : State) (e : Event) : State :=
  timerEffect (modalEffect st (handle e st)).

Definition run (evs : list Event) (st : State) : State :=
  fold_left step evs st.

Definition reachable (st : State) : Prop :=
  exists evs, st = run evs initialState.

End Engine.

(** ** Example catalogs *)

Definition mkRiddle (ws : list string) (opts : list string) (answer : nat) : Riddle :=
  {| id := 1; words := ws; question := "?"; options := opts;
     correctAnswer := answer; theme := "" |}.

Definition oneSet : list Riddle :=
  [ mkRiddle ["CAT"; "DOG"] ["A"; "B"] 1 ].

Definition twoSets : list Riddle :=
  [ mkRiddle ["CAT"; "DOG"] ["A"; "B"] 1;
    mkRiddle ["SUN"; "MOON"; "STAR"] ["A"; "B"] 0 ].

(** A session on [oneSet] that has just started, with 5 points. *)
Definition playingCat : State := {|
  gameState := PLAYING;
  score := 5;
  timeLeft := 30;
  selectedTime := 30;
  currentRiddleIndex := 0;
  currentWordIndex := 0;
  typedText := "";
  wrongKeyCount := 0;
  usedRiddleIndices := [0%nat];
  currentRound := 1;
  showRiddleModal := false;
  showGameOver := false;
  pendingAdvance := [];
  showResult := false;
  pendingAnswer := []
|}.

(** A session on [twoSets] with both words of the first set typed. *)
Definition riddleTime : State := {|
  gameState := RIDDLE;
  score := 10;
  timeLeft := 30;
  selectedTime := 30;
  currentRiddleIndex := 0;
  currentWordIndex := 1;
  typedText := "DOG";
  wrongKeyCount := 0;
  usedRiddleIndices := [0%nat];
  currentRound := 1;
  showRiddleModal := true;
  showGameOver := false;
  pendingAdvance := [];
  showResult := false;
  pendingAnswer := []
|}.

(** * Properties *)

(** Unfolds the state setters and reduces the projections. *)
Ltac setters :=
  unfold setGameState, setScore, setTimeLeft, setSelectedTime,
    setCurrentRiddleIndex, setCurrentWordIndex, setTypedText,
    setWrongKeyCount, setUsedRiddleIndices, setCurrentRound,
    setShowRiddleModal, setShowGameOver, setPendingAdvance, setShowResult,
    setPendingAnswer, closureOf;
  cbn [gameState score timeLeft selectedTime currentRiddleIndex
       currentWordIndex typedText wrongKeyCount usedRiddleIndices
       currentRound showRiddleModal showGameOver pendingAdvance
       showResult pendingAnswer cl_riddleIndex cl_wordIndex].

(** ** Runs *)

Lemma run_snoc riddles evs e st :
  run riddles (evs ++ [e])%list st = step riddles (run riddles evs st) e.
Proof. unfold run. now rewrite fold_left_app. Qed.

Lemma run_cons riddles e evs st :
  run riddles (e :: evs) st = run riddles evs (step riddles st e).
Proof. reflexivity. Qed.

Lemma run_app riddles evs1 evs2 st :
  run riddles (evs1 ++ evs2)%list st = run riddles evs2 (run riddles evs1 st).
Proof. unfold run. now rewrite fold_left_app. Qed.

(** An invariant of [step] that holds initially holds after every run. *)
Lemma run_invariant riddles (P : State -> Prop) :
  P initialState ->
  (forall st e, P st -> P (step riddles st e)) ->
  forall evs, P (run riddles evs initialState).
Proof.
  intros Hinit Hstep evs. induction evs as [|e evs IH] using rev_ind.
  - exact Hinit.
  - rewrite run_snoc. now apply Hstep.
Qed.

(** ** The effect of the modal *)

Section ModalEffect.
Variable riddles : list Riddle.

(** The effect changes nothing but [showResult]. *)
Lemma modalEffect_cases prev st :
  modalEffect riddles prev st = st \/
  (showRiddleModal st = true /\
   modalEffect riddles prev st = setShowResult false st).
Proof.
  unfold modalEffect. destruct (showRiddleModal st); simpl; [|now left].
  case_match; auto.
Qed.

(** It does not run when neither [isOpen] nor [riddle] changed. *)
Lemma modalEffect_same prev st :
  showRiddleModal st = showRiddleModal prev ->
  currentRiddleIndex st = currentRiddleIndex prev ->
  modalEffect riddles prev st = st.
Proof.
  intros Ho Hr. unfold modalEffect, riddleProp. rewrite Ho, Hr.
  rewrite bool_decide_eq_true_2 by auto. now rewrite andb_false_r.
Qed.

(** It does nothing while the modal is closed. *)
Lemma modalEffect_closed prev st :
  showRiddleModal st = false -> modalEffect riddles prev st = st.
Proof. intros H. unfold modalEffect. now rewrite H. Qed.

(** It does nothing when no result is shown. *)
Lemma modalEffect_no_result prev st :
  showResult st = false -> modalEffect riddles prev st = st.
Proof.
  intros H. destruct (modalEffect_cases prev st) as [E|[_ E]]; [exact E|].
  rewrite E. destruct st. simpl in H. subst. reflexivity.
Qed.

(** It reads [isOpen] and [riddle] of the render before and nothing
    else. *)
Lemma modalEffect_prev prev prev' st :
  showRiddleModal prev' = showRiddleModal prev ->
  currentRiddleIndex prev' = currentRiddleIndex prev ->
  modalEffect riddles prev' st = modalEffect riddles prev st.
Proof.
  intros Ho Hr. unfold modalEffect, riddleProp. now rewrite Ho, Hr.
Qed.

Lemma modalEffect_gameState prev st :
  gameState (modalEffect riddles prev st) = gameState st.
Proof. destruct (modalEffect_cases prev st) as [->|[_ ->]]; reflexivity. Qed.

Lemma modalEffect_timeLeft prev st :
  timeLeft (modalEffect riddles prev st) = timeLeft st.
Proof. destruct (modalEffect_cases prev st) as [->|[_ ->]]; reflexivity. Qed.

Lemma modalEffect_score prev st :
  score (modalEffect riddles prev st) = score st.
Proof. destruct (modalEffect_cases prev st) as [->|[_ ->]]; reflexivity. Qed.

(** An invariant that does not read [showResult] is kept by the
    effect. *)
Lemma modalEffect_keeps (P : State -> Prop) prev st :
  (forall v s, P s -> P (setShowResult v s)) ->
  P st -> P (modalEffect riddles prev st).
Proof.
  intros HP H. destruct (modalEffect_cases prev st) as [->|[_ ->]]; auto.
Qed.

(** The modal accepts a selection, or ignores it. *)
Lemma handleAnswerSelect_cases answerIndex st :
  handleAnswerSelect riddles answerIndex st = st \/
  exists riddle,
    currentRiddle riddles st = Some riddle /\
    showRiddleModal st = true /\ showResult st = false /\
    (answerIndex < length (options riddle))%nat /\
    handleAnswerSelect riddles answerIndex st
    = setPendingAnswer
        (fun q => (q ++ [answerClosureOf riddle answerIndex st])%list)
        (setShowResult true st).
Proof.
  unfold handleAnswerSelect.
  destruct (currentRiddle riddles st) as [riddle|]; [|now left].
  destruct (showRiddleModal st) eqn:Eo; [|now left].
  destruct (showResult st) eqn:Er; [now left|].
  destruct (answerIndex <? length (options riddle))%nat eqn:Ei; [|now left].
  right. exists riddle. apply Nat.ltb_lt in Ei. auto.
Qed.

End ModalEffect.

(** ** The score ledger *)

Section Score.
Variable riddles : list Riddle.

(** The score after a handler, in terms of the score before. *)
Inductive scoreDelta (s s' : Z) : Prop :=
| delta_none : s' = s -> scoreDelta s s'
| delta_newGame : s' = 0 -> scoreDelta s s'
| delta_word : s' = s + GAME_CONFIG.POINTS_PER_WORD -> scoreDelta s s'
| delta_riddle : s' = s + GAME_CONFIG.POINTS_PER_RIDDLE -> scoreDelta s s'
| delta_wrongKey :
    s' = Z.max 0 (s - GAME_CONFIG.POINTS_PENALTY_WRONG_KEY) -> scoreDelta s s'
| delta_wrongWord :
    s' = Z.max 0 (s - GAME_CONFIG.PENALTY_PER_WRONG_WORD) -> scoreDelta s s'.

Lemma timerEffect_score st : score (timerEffect st) = score st.
Proof. unfold timerEffect. now case_match. Qed.

Lemma moveToNextWord_score cl b st :
  score (moveToNextWord riddles cl b st) = score st \/
  (b = true /\
   score (moveToNextWord riddles cl b st)
   = score st + GAME_CONFIG.POINTS_PER_WORD) \/
  (b = false /\
   score (moveToNextWord riddles cl b st)
   = Z.max 0 (score st - GAME_CONFIG.PENALTY_PER_WRONG_WORD)).
Proof.
  unfold moveToNextWord. destruct b; repeat case_match; simpl; auto.
Qed.

Lemma handle_scoreDelta e st :
  scoreDelta (score st) (score (handle riddles e st)).
Proof.
  destruct e; simpl.
  - case_match; simpl; now constructor 1.
  - case_match; simpl; [now constructor 2 | now constructor 1].
  - unfold handleKeyPress.
    repeat case_match; simpl; try (now constructor 1);
      try (now constructor 5).
    destruct (moveToNextWord_score (closureOf st) true
                (setTypedText (fun _ => typedText st ++ key) st))
      as [E|[[_ E]|[? _]]]; try discriminate; rewrite E; simpl;
      [now constructor 1 | now constructor 3].
  - destruct (handleAnswerSelect_cases riddles answerIndex st)
      as [->|(r & _ & _ & _ & _ & ->)]; now constructor 1.
  - unfold answerTimeout. case_match; [now constructor 1|].
    unfold handleRiddleAnswer, endGame.
    repeat case_match; simpl; try (now constructor 1);
      now constructor 4.
  - unfold tick. case_match; simpl; now constructor 1.
  - unfold advanceTimeout. case_match; [now constructor 1|].
    match goal with
    | |- context [moveToNextWord _ ?c false ?s] =>
        destruct (moveToNextWord_score c false s)
          as [E|[[? _]|[_ E]]]; try discriminate; rewrite E; simpl
    end; [now constructor 1 | now constructor 6].
  - now constructor 1.
Qed.

Lemma scoreDelta_nonneg s s' : 0 <= s -> scoreDelta s s' -> 0 <= s'.
Proof.
  intros Hs [E|E|E|E|E|E]; subst;
    unfold GAME_CONFIG.POINTS_PER_WORD, GAME_CONFIG.POINTS_PER_RIDDLE; lia.
Qed.

Lemma step_score_nonneg st e :
  0 <= score st -> 0 <= score (step riddles st e).
Proof.
  intros Hs. unfold step. rewrite timerEffect_score, modalEffect_score.
  eapply scoreDelta_nonneg; [exact Hs | apply handle_scoreDelta].
Qed.

End Score.

(** C1.  From a fresh session, after every sequence of events (key
    presses, backspaces, riddle answers, ticks, delayed word advances,
    menu actions) the score is at least 0; and every further event
    leaves the score alone, resets it for a new game, adds the word or
    riddle points, or subtracts a penalty clamped at 0. *)
Theorem C1_score_never_negative (riddles : list Riddle) (evs : list Event) :
  0 <= score (run riddles evs initialState) /\
  forall e,
    scoreDelta (score (run riddles evs initialState))
               (score (step riddles (run riddles evs initialState) e)).
Proof.
  split.
  - apply (run_invariant riddles (fun st => 0 <= score st)).
    + simpl. lia.
    + intros st e. apply step_score_nonneg.
  - intros e. unfold step. rewrite timerEffect_score, modalEffect_score.
    apply handle_scoreDelta.
Qed.

(** ** Strings *)

Lemma length_append (s t : string) :
  String.length (s ++ t) = (String.length s + String.length t)%nat.
Proof. induction s as [|c s IH]; simpl; [reflexivity | now rewrite IH]. Qed.

Lemma substring_prefix (s t : string) :
  String.substring 0 (String.length s) (s ++ t) = s.
Proof.
  induction s as [|c s IH]; simpl.
  - now destruct t.
  - now rewrite IH.
Qed.

(** [slice(0, -1)] removes exactly the last character. *)
Lemma dropLast_snoc (s : string) (c : ascii) :
  JS.dropLast (s ++ String c "") = s.
Proof.
  unfold JS.dropLast. rewrite length_append. simpl.
  replace (String.length s + 1 - 1)%nat with (String.length s) by lia.
  apply substring_prefix.
Qed.

Lemma string_snoc (s : string) :
  s <> "" -> exists t c, s = t ++ String c "".
Proof.
  induction s as [|a s IH]; [congruence|]. intros _.
  destruct s as [|b s].
  - now exists "", a.
  - destruct IH as (t & c & E); [discriminate|].
    exists (String a t), c. simpl. now rewrite E.
Qed.

Lemma length_zero_empty (s : string) : String.length s = O <-> s = "".
Proof. destruct s; simpl; split; congruence. Qed.

Lemma charAt_Some (s : string) (i : nat) (t : string) :
  JS.charAt s i = Some t ->
  (i < String.length s)%nat /\ String.length t = 1%nat /\ t <> "".
Proof.
  unfold JS.charAt. destruct (String.get i s) as [c|] eqn:E; [|discriminate].
  intros [= <-]. repeat split; [|discriminate].
  revert i E. induction s as [|a s IH]; intros [|i]; simpl; try discriminate;
    intros E; [lia|]. apply IH in E. lia.
Qed.

Lemma randomIndex_lt (rnd n : nat) : (0 < n)%nat -> (JS.randomIndex rnd n < n)%nat.
Proof.
  destruct n; [lia|]. intros _. unfold JS.randomIndex.
  apply Nat.mod_upper_bound. lia.
Qed.

(** ** Invariants of the session *)

Section Invariants.
Variable riddles : list Riddle.

(** The engine has a non-empty word to show. *)
Definition wordShown (st : State) : Prop :=
  exists w, currentWord riddles st = Some w /\ w <> "".

Record Inv (st : State) : Prop := {
  inv_wrong : 0 <= wrongKeyCount st;
  inv_time : 0 <= timeLeft st;
  inv_selected : 0 < selectedTime st;
  inv_typed : typedText st <> "" -> wordShown st
}.

Lemma Inv_initial : Inv initialState.
Proof. split; simpl; try lia. congruence. Qed.

Lemma moveToNextWord_Inv cl b st :
  Inv st -> Inv (moveToNextWord riddles cl b st).
Proof.
  intros [Hw Ht Hs Hty]. unfold moveToNextWord.
  repeat case_match; split; simpl; try lia; try congruence; exact Hty.
Qed.

Lemma handle_Inv e st : Inv st -> Inv (handle riddles e st).
Proof.
  intros HI. pose proof HI as [Hw Ht Hs Hty]. destruct e; simpl.
  - case_match; [|exact HI]. split; simpl; try lia; [|exact Hty].
    destruct d; simpl; lia.
  - case_match; [|exact HI]. split; simpl; try lia. congruence.
  - unfold handleKeyPress.
    repeat case_match; try exact HI;
      try (apply moveToNextWord_Inv);
      split; simpl; try lia; intros _; eexists; split;
      try (unfold currentWord, currentRiddle in *; simpl; eassumption);
      match goal with
      | H : (_ =? "")%string || _ = false |- _ =>
          apply orb_false_elim in H as [H _];
          now apply String.eqb_neq in H
      end.
  - destruct (handleAnswerSelect_cases riddles answerIndex st)
      as [->|(r & _ & _ & _ & _ & ->)]; [exact HI|].
    split; simpl; auto.
  - unfold answerTimeout. case_match; [exact HI|].
    unfold handleRiddleAnswer, endGame.
    repeat case_match; split; simpl; try lia; try congruence; exact Hty.
  - unfold tick. case_match; [|exact HI].
    split; simpl; try lia; exact Hty.
  - unfold advanceTimeout. case_match; [exact HI|].
    apply moveToNextWord_Inv. split; simpl; auto.
  - split; simpl; auto.
Qed.

Lemma timerEffect_Inv st : Inv st -> Inv (timerEffect st).
Proof.
  intros [Hw Ht Hs Hty]. unfold timerEffect, endGame.
  case_match; split; simpl; auto.
Qed.

Lemma modalEffect_Inv prev st : Inv st -> Inv (modalEffect riddles prev st).
Proof.
  apply modalEffect_keeps. intros v s [Hw Ht Hs Hty]. split; simpl; auto.
Qed.

Lemma step_Inv st e : Inv st -> Inv (step riddles st e).
Proof.
  intros HI. apply timerEffect_Inv, modalEffect_Inv, handle_Inv, HI.
Qed.

Lemma reachable_Inv st : reachable riddles st -> Inv st.
Proof.
  intros [evs ->]. apply (run_invariant riddles Inv).
  - apply Inv_initial.
  - apply step_Inv.
Qed.

(** After the timer effect no state is [PLAYING] with no time left. *)
Lemma timerEffect_playing st :
  0 <= timeLeft st ->
  gameState (timerEffect st) = PLAYING -> 0 < timeLeft (timerEffect st).
Proof.
  unfold timerEffect. intros Ht.
  destruct (timeLeft st =? 0) eqn:E0; simpl.
  - destruct (bool_decide (gameState st = PLAYING)) eqn:Ep; simpl;
      [discriminate|].
    apply bool_decide_eq_false in Ep. congruence.
  - apply Z.eqb_neq in E0. lia.
Qed.

Lemma reachable_playing_time st :
  reachable riddles st -> gameState st = PLAYING -> 0 < timeLeft st.
Proof.
  intros [evs ->]. destruct evs as [|e evs _] using rev_ind.
  - discriminate.
  - rewrite run_snoc. unfold step. apply timerEffect_playing.
    apply modalEffect_Inv, handle_Inv, reachable_Inv. now exists evs.
Qed.

(** In a reachable [PLAYING] state the timer effect does nothing. *)
Lemma timerEffect_id st :
  (gameState st = PLAYING -> 0 < timeLeft st) -> timerEffect st = st.
Proof.
  intros H. unfold timerEffect.
  destruct (timeLeft st =? 0) eqn:E0; [|reflexivity].
  destruct (bool_decide (gameState st = PLAYING)) eqn:Ep; [|reflexivity].
  apply bool_decide_eq_true in Ep. apply Z.eqb_eq in E0.
  specialize (H Ep). lia.
Qed.

End Invariants.

(** ** Key presses *)

Section Keys.
Variable riddles : list Riddle.

(** [key] is a letter key that differs from the character of [w]
    expected after [typed]. *)
Definition wrongKey (w typed key : string) : Prop :=
  key <> "" /\ key <> "BACKSPACE" /\
  exists t, JS.charAt w (String.length typed) = Some t /\ key <> t.

Lemma currentWord_riddle st w :
  currentWord riddles st = Some w ->
  exists r, riddles !! currentRiddleIndex st = Some r /\
            words r !! currentWordIndex st = Some w.
Proof.
  unfold currentWord, currentRiddle.
  destruct (riddles !! currentRiddleIndex st) as [r|]; [|discriminate].
  intros H. now exists r.
Qed.

Lemma handleKeyPress_not_playing key st :
  gameState st <> PLAYING -> handleKeyPress riddles key st = st.
Proof.
  intros H. unfold handleKeyPress.
  now rewrite bool_decide_eq_false_2.
Qed.

Lemma handleKeyPress_backspace st :
  gameState st = PLAYING -> wordShown riddles st -> typedText st <> "" ->
  handleKeyPress riddles "BACKSPACE" st
  = if 0 <? wrongKeyCount st
    then setWrongKeyCount (fun prev => Z.max 0 (prev - 1))
           (setTypedText JS.dropLast st)
    else setTypedText JS.dropLast st.
Proof.
  intros Hp (w & Hw & Hne) Hty. unfold handleKeyPress.
  rewrite bool_decide_eq_true_2 by exact Hp. simpl. rewrite Hw.
  apply String.eqb_neq in Hne. rewrite Hne. simpl.
  destruct (String.length (typedText st)) eqn:El.
  - now apply length_zero_empty in El.
  - reflexivity.
Qed.

Lemma handleKeyPress_backspace_empty st :
  typedText st = "" -> handleKeyPress riddles "BACKSPACE" st = st.
Proof.
  intros Hty. unfold handleKeyPress. rewrite Hty.
  repeat case_match; try reflexivity; simpl in *; discriminate.
Qed.

(** A key equal to the expected character. *)
Lemma handleKeyPress_match key w st :
  gameState st = PLAYING -> currentWord riddles st = Some w ->
  JS.charAt w (String.length (typedText st)) = Some key ->
  handleKeyPress riddles key st
  = let st' := setTypedText (fun _ => typedText st ++ key) st in
    if (String.length (typedText st ++ key) =? String.length w)%nat
    then moveToNextWord riddles (closureOf st) true st'
    else st'.
Proof.
  intros Hp Hw Hc. unfold handleKeyPress.
  rewrite bool_decide_eq_true_2 by exact Hp. simpl. rewrite Hw, Hc.
  destruct (charAt_Some _ _ _ Hc) as (Hlt & Hlen & Hne).
  assert (w <> "") as Hwne by (intros ->; simpl in Hlt; lia).
  apply String.eqb_neq in Hwne, Hne. rewrite Hwne, Hne. simpl.
  assert (key <> "BACKSPACE") as Hb by (intros ->; discriminate).
  apply String.eqb_neq in Hb. rewrite Hb.
  now rewrite String.eqb_refl.
Qed.

(** A key different from the expected character. *)
Lemma handleKeyPress_wrong key w st :
  gameState st = PLAYING -> currentWord riddles st = Some w ->
  wrongKey w (typedText st) key ->
  handleKeyPress riddles key st
  = let st' :=
      setWrongKeyCount (fun _ => wrongKeyCount st + 1)
        (setTypedText (fun _ => typedText st ++ key)
           (setScore
              (fun prev =>
                 Z.max 0 (prev - GAME_CONFIG.POINTS_PENALTY_WRONG_KEY)) st)) in
    if GAME_CONFIG.MAX_WRONG_KEYS_PER_WORD <=? wrongKeyCount st + 1
    then setPendingAdvance (fun q => (q ++ [closureOf st])%list) st'
    else st'.
Proof.
  intros Hp Hw (Hne & Hb & t & Hc & Hkt). unfold handleKeyPress.
  rewrite bool_decide_eq_true_2 by exact Hp. simpl. rewrite Hw, Hc.
  destruct (charAt_Some _ _ _ Hc) as (Hlt & _ & _).
  assert (w <> "") as Hwne by (intros ->; simpl in Hlt; lia).
  apply String.eqb_neq in Hwne, Hne, Hb, Hkt.
  now rewrite Hwne, Hne, Hb, Hkt.
Qed.

Lemma moveToNextWord_timerEffect prev cl b st :
  (gameState st = PLAYING -> 0 < timeLeft st) ->
  timerEffect (modalEffect riddles prev (moveToNextWord riddles cl b st))
  = modalEffect riddles prev (moveToNextWord riddles cl b st).
Proof.
  intros H. apply timerEffect_id.
  rewrite modalEffect_gameState, modalEffect_timeLeft.
  unfold moveToNextWord.
  repeat case_match; simpl; auto; discriminate.
Qed.

(** An advance to the next word of the set does not concern the
    modal. *)
Lemma moveToNextWord_modalEffect prev cl b st r :
  riddles !! cl_riddleIndex cl = Some r ->
  (cl_wordIndex cl + 1 < length (words r))%nat ->
  showRiddleModal st = showRiddleModal prev ->
  currentRiddleIndex st = currentRiddleIndex prev ->
  modalEffect riddles prev (moveToNextWord riddles cl b st)
  = moveToNextWord riddles cl b st.
Proof.
  intros Hr Hlt Ho Hi. apply modalEffect_same; unfold moveToNextWord;
    rewrite Hr; apply Nat.ltb_lt in Hlt; rewrite Hlt;
    destruct b; simpl; auto.
Qed.

Lemma step_KeyPress_wrong key w st :
  gameState st = PLAYING -> 0 < timeLeft st ->
  currentWord riddles st = Some w ->
  wrongKey w (typedText st) key ->
  step riddles st (KeyPress key)
  = let st' :=
      setWrongKeyCount (fun _ => wrongKeyCount st + 1)
        (setTypedText (fun _ => typedText st ++ key)
           (setScore
              (fun prev =>
                 Z.max 0 (prev - GAME_CONFIG.POINTS_PENALTY_WRONG_KEY)) st)) in
    if GAME_CONFIG.MAX_WRONG_KEYS_PER_WORD <=? wrongKeyCount st + 1
    then setPendingAdvance (fun q => (q ++ [closureOf st])%list) st'
    else st'.
Proof.
  intros Hp Ht Hw Hk. unfold step, handle.
  rewrite (handleKeyPress_wrong key w) by assumption.
  cbv zeta. rewrite modalEffect_same by (case_match; reflexivity).
  apply timerEffect_id. case_match; simpl; auto.
Qed.

Lemma step_KeyPress_match key w st :
  gameState st = PLAYING -> 0 < timeLeft st ->
  currentWord riddles st = Some w ->
  JS.charAt w (String.length (typedText st)) = Some key ->
  step riddles st (KeyPress key)
  = let st' := setTypedText (fun _ => typedText st ++ key) st in
    if (String.length (typedText st ++ key) =? String.length w)%nat
    then modalEffect riddles st (moveToNextWord riddles (closureOf st) true st')
    else st'.
Proof.
  intros Hp Ht Hw Hk. unfold step, handle.
  rewrite (handleKeyPress_match key w) by assumption.
  cbv zeta. case_match.
  - apply moveToNextWord_timerEffect. simpl. auto.
  - rewrite modalEffect_same by reflexivity.
    apply timerEffect_id. simpl. auto.
Qed.

Lemma step_AdvanceTimeout cl rest st :
  pendingAdvance st = cl :: rest ->
  (gameState st = PLAYING -> 0 < timeLeft st) ->
  step riddles st AdvanceTimeout
  = modalEffect riddles st
      (moveToNextWord riddles cl false (setPendingAdvance (fun _ => rest) st)).
Proof.
  intros Hq Ht. unfold step, handle, advanceTimeout. rewrite Hq.
  apply moveToNextWord_timerEffect. simpl. exact Ht.
Qed.

End Keys.

(** C8.  The wrong-key count of a reachable session is never negative.
    In [PLAYING], a backspace on a non-empty typed text removes exactly
    its last character, lowers a positive wrong-key count by exactly 1
    (leaving a count of 0 alone) and changes no other field; a
    backspace on an empty typed text changes nothing. *)
Theorem C8_backspace (riddles : list Riddle) (st : State) :
  reachable riddles st ->
  0 <= wrongKeyCount st /\
  (gameState st = PLAYING ->
   let st' := step riddles st (KeyPress "BACKSPACE") in
   (typedText st = "" -> st' = st) /\
   (typedText st <> "" ->
    (exists c, typedText st = typedText st' ++ String c "") /\
    wrongKeyCount st'
    = (if 0 <? wrongKeyCount st then wrongKeyCount st - 1 else 0) /\
    st' = setWrongKeyCount (fun _ => wrongKeyCount st')
            (setTypedText (fun _ => typedText st') st))).
Proof.
  intros Hr. pose proof (reachable_Inv riddles st Hr) as [Hw Ht Hs Hty].
  split; [exact Hw|]. intros Hp.
  pose proof (reachable_playing_time riddles st Hr Hp) as Htime.
  unfold step. simpl. split.
  - intros E. rewrite handleKeyPress_backspace_empty by exact E.
    rewrite modalEffect_same by reflexivity.
    apply timerEffect_id. auto.
  - intros Hne. rewrite handleKeyPress_backspace by auto.
    destruct (string_snoc _ Hne) as (t & c & E).
    destruct (0 <? wrongKeyCount st) eqn:Ew;
      rewrite modalEffect_same by reflexivity;
      (rewrite timerEffect_id by (simpl; auto)); simpl;
      rewrite E, dropLast_snoc; (split; [now exists c|]); split;
      try reflexivity; try lia.
    all: unfold setWrongKeyCount, setTypedText; simpl;
      now rewrite E, dropLast_snoc.
Qed.

Lemma C8_backspace_witness :
  let st := run oneSet [StartGame 0; KeyPress "X"] initialState in
  let st' := step oneSet st (KeyPress "BACKSPACE") in
  typedText st = "X" /\ wrongKeyCount st = 1 /\
  typedText st' = "" /\ wrongKeyCount st' = 0.
Proof.
  pose proof (C8_backspace oneSet
                (run oneSet [StartGame 0; KeyPress "X"] initialState)) as H.
  destruct H as (_ & H); [now exists [StartGame 0; KeyPress "X"]|].
  destruct H as (_ & H); [vm_compute; reflexivity|].
  destruct H as (_ & Hw & _); [vm_compute; discriminate|].
  vm_compute in Hw. vm_compute. tauto.
Defined.

(** X25.  A word started in [PLAYING] with time left, an empty typed
    text, a wrong-key count of 0 and no word advance pending: two
    wrong keys in a row, followed by the delayed advance they schedule,
    leave the score at the start score after two clamped wrong-key
    penalties and one clamped wrong-word penalty, and the engine has
    moved past the word, to the next word of the set or, after the last
    word, to [RIDDLE]. *)
Theorem X25_two_wrong_keys_abandon (riddles : list Riddle) (st : State)
    (r : Riddle) (w k1 k2 : string) :
  gameState st = PLAYING ->
  0 < timeLeft st ->
  pendingAdvance st = [] ->
  typedText st = "" ->
  wrongKeyCount st = 0 ->
  riddles !! currentRiddleIndex st = Some r ->
  words r !! currentWordIndex st = Some w ->
  wrongKey w "" k1 ->
  wrongKey w k1 k2 ->
  let st2 := run riddles [KeyPress k1; KeyPress k2] st in
  let st3 := step riddles st2 AdvanceTimeout in
  pendingAdvance st2 = [closureOf st] /\
  score st3
  = Z.max 0
      (Z.max 0
         (Z.max 0 (score st - GAME_CONFIG.POINTS_PENALTY_WRONG_KEY)
          - GAME_CONFIG.POINTS_PENALTY_WRONG_KEY)
       - GAME_CONFIG.PENALTY_PER_WRONG_WORD) /\
  pendingAdvance st3 = [] /\
  currentRiddleIndex st3 = currentRiddleIndex st /\
  if (currentWordIndex st + 1 <? length (words r))%nat
  then gameState st3 = PLAYING /\
       currentWordIndex st3 = (currentWordIndex st + 1)%nat /\
       typedText st3 = "" /\ wrongKeyCount st3 = 0
  else gameState st3 = RIDDLE /\ showRiddleModal st3 = true.
Proof.
  intros Hp Ht Hq Hty Hwc Hr Hw Hk1 Hk2.
  assert (currentWord riddles st = Some w) as Hcw
    by (unfold currentWord, currentRiddle; now rewrite Hr).
  destruct st as [gs sc tl sel cri cwi ty wc used rnd srm sgo pend sr pa].
  cbn [gameState timeLeft pendingAdvance typedText wrongKeyCount
       currentRiddleIndex currentWordIndex] in Hp, Ht, Hq, Hty, Hwc, Hr, Hw.
  subst gs pend ty wc. unfold run, fold_left.
  rewrite (step_KeyPress_wrong riddles k1 w) by (simpl; auto).
  setters. cbn [String.append].
  change (GAME_CONFIG.MAX_WRONG_KEYS_PER_WORD <=? 0 + 1) with false.
  cbv iota.
  rewrite (step_KeyPress_wrong riddles k2 w) by (simpl; auto).
  setters. cbn [app].
  change (GAME_CONFIG.MAX_WRONG_KEYS_PER_WORD <=? 0 + 1 + 1) with true.
  cbv iota.
  erewrite step_AdvanceTimeout by (simpl; eauto).
  match goal with
  | |- context [modalEffect _ ?p ?s] =>
      destruct (modalEffect_cases riddles p s) as [->|[_ ->]]
  end;
    unfold moveToNextWord; cbn [cl_riddleIndex cl_wordIndex]; rewrite Hr;
    destruct (cwi + 1 <? length (words r))%nat; cbn -[Z.max]; auto 10.
Qed.

Lemma X25_two_wrong_keys_abandon_witness :
  let st3 :=
    step oneSet (run oneSet [KeyPress "X"; KeyPress "Y"] playingCat)
      AdvanceTimeout in
  score st3 = 0 /\ gameState st3 = PLAYING /\ currentWordIndex st3 = 1%nat.
Proof.
  pose proof (X25_two_wrong_keys_abandon oneSet playingCat
                (mkRiddle ["CAT"; "DOG"] ["A"; "B"] 1) "CAT" "X" "Y") as H.
  destruct H as (_ & Hs & _ & _ & Hi); try (vm_compute; reflexivity).
  - repeat split; try discriminate.
    exists "C". split; [reflexivity | discriminate].
  - repeat split; try discriminate.
    exists "A". split; [reflexivity | discriminate].
  - vm_compute in Hs, Hi. vm_compute. tauto.
Defined.

(** ** Typing a word *)

(** The characters of a string, as the keys that type it. *)
Fixpoint letters (s : string) : list string :=
  match s with
  | EmptyString => []
  | String c s' => String c "" :: letters s'
  end.

Lemma append_assoc (s t u : string) : (s ++ t) ++ u = s ++ (t ++ u).
Proof. induction s as [|c s IH]; simpl; [reflexivity | now rewrite IH]. Qed.

Lemma letters_append (s t : string) :
  letters (s ++ t) = (letters s ++ letters t)%list.
Proof. induction s as [|c s IH]; simpl; [reflexivity | now rewrite IH]. Qed.

Lemma charAt_middle (pre post : string) (c : ascii) :
  JS.charAt (pre ++ String c post) (String.length pre) = Some (String c "").
Proof. unfold JS.charAt. induction pre as [|a pre IH]; simpl; auto. Qed.

Section Typing.
Variable riddles : list Riddle.

(** Keys that match the word from the current position on, short of
    its last character, are appended and change nothing else,
    whatever the typed text holds. *)
Lemma run_matching (mid : string) :
  forall (st : State) (pre post : string),
    gameState st = PLAYING -> 0 < timeLeft st ->
    currentWord riddles st = Some (pre ++ mid ++ post) ->
    post <> "" ->
    String.length (typedText st) = String.length pre ->
    run riddles (map KeyPress (letters mid)) st
    = setTypedText (fun _ => typedText st ++ mid) st.
Proof.
  induction mid as [|c mid IH]; intros st pre post Hp Ht Hw Hpost Hlen.
  - simpl. destruct st; unfold setTypedText; simpl. f_equal.
    clear. induction typedText0 as [|a s IHs]; simpl; congruence.
  - cbn [letters map].
    change (run riddles (?e :: ?l) ?s)
      with (run riddles l (step riddles s e)).
    rewrite (step_KeyPress_match riddles (String c "") (pre ++ String c mid ++ post))
      by (auto; rewrite Hlen; apply charAt_middle).
    cbv zeta.
    assert (String.length (typedText st ++ String c "")
            <> String.length (pre ++ String c mid ++ post)) as Hneq.
    { rewrite !length_append, Hlen. cbn [String.length String.append].
      rewrite ?length_append. destruct post; [congruence|].
      cbn [String.length]. lia. }
    apply Nat.eqb_neq in Hneq. rewrite Hneq.
    rewrite (IH _ (pre ++ String c "") post); auto.
    + unfold setTypedText. simpl. f_equal. apply append_assoc.
    + unfold currentWord, currentRiddle in *. simpl.
      rewrite Hw. f_equal. now rewrite append_assoc.
    + simpl. now rewrite !length_append, Hlen.
Qed.

(** The points of a completed word are awarded only by a key that
    equals the expected character and fills the word. *)
Lemma handleKeyPress_award key st :
  0 <= score st ->
  score (handleKeyPress riddles key st)
  = score st + GAME_CONFIG.POINTS_PER_WORD ->
  gameState st = PLAYING /\
  exists w, currentWord riddles st = Some w /\
    JS.charAt w (String.length (typedText st)) = Some key /\
    S (String.length (typedText st)) = String.length w.
Proof.
  unfold handleKeyPress, GAME_CONFIG.POINTS_PER_WORD. intros Hs.
  destruct (bool_decide (gameState st = PLAYING)) eqn:Ep; simpl; [|lia].
  apply bool_decide_eq_true in Ep.
  destruct (currentWord riddles st) as [w|] eqn:Ew; [|lia].
  repeat case_match; simpl;
    unfold GAME_CONFIG.POINTS_PENALTY_WRONG_KEY; try lia.
  intros _. split; [exact Ep|]. exists w. split; [reflexivity|].
  repeat match goal with
         | H : (_ =? _)%string = true |- _ => apply String.eqb_eq in H
         | H : (_ =? _)%nat = true |- _ => apply Nat.eqb_eq in H
         end.
  subst. split; [assumption|].
  match goal with
  | H : JS.charAt _ _ = Some _ |- _ =>
      destruct (charAt_Some _ _ _ H) as (_ & Hl & _)
  end.
  match goal with
  | H : String.length (_ ++ _) = _ |- _ =>
      rewrite length_append, Hl in H; lia
  end.
Qed.

End Typing.

(** C10.  In [PLAYING], a key press awards the points of a completed
    word exactly when the key equals the character of the word at the
    position given by the length of the typed text and the typed text
    then has the length of the word; such a key runs the word advance,
    followed by the effect of the modal when the advance opens it.
    Only that position is compared: after one wrong key on a fresh
    word, the keys that match positions 1 to n-1 complete the word with
    the full award, the wrong character still first in the typed text
    and the wrong-key count at 1. *)
Theorem C10_completion_by_length (riddles : list Riddle) (st : State)
    (w : string) :
  gameState st = PLAYING ->
  0 < timeLeft st ->
  0 <= score st ->
  currentWord riddles st = Some w ->
  (forall key,
     score (step riddles st (KeyPress key))
     = score st + GAME_CONFIG.POINTS_PER_WORD
     <-> JS.charAt w (String.length (typedText st)) = Some key /\
         S (String.length (typedText st)) = String.length w) /\
  (forall key,
     JS.charAt w (String.length (typedText st)) = Some key ->
     S (String.length (typedText st)) = String.length w ->
     step riddles st (KeyPress key)
     = modalEffect riddles st
         (moveToNextWord riddles (closureOf st) true
            (setTypedText (fun _ => typedText st ++ key) st))) /\
  (forall (k0 : string) (c0 : ascii) (rest : string),
     typedText st = "" -> wrongKeyCount st = 0 ->
     w = String c0 rest -> rest <> "" ->
     wrongKey w "" k0 -> String.length k0 = 1%nat ->
     let st' := run riddles (map KeyPress (k0 :: letters rest)) st in
     st' = modalEffect riddles st
             (moveToNextWord riddles (closureOf st) true
                (setWrongKeyCount (fun _ => 1)
                   (setTypedText (fun _ => k0 ++ rest)
                      (setScore
                         (fun prev =>
                            Z.max 0
                              (prev - GAME_CONFIG.POINTS_PENALTY_WRONG_KEY))
                         st)))) /\
     score st'
     = Z.max 0 (score st - GAME_CONFIG.POINTS_PENALTY_WRONG_KEY)
       + GAME_CONFIG.POINTS_PER_WORD).
Proof.
  intros Hp Ht Hs Hw.
  assert (forall key,
     JS.charAt w (String.length (typedText st)) = Some key ->
     S (String.length (typedText st)) = String.length w ->
     step riddles st (KeyPress key)
     = modalEffect riddles st
         (moveToNextWord riddles (closureOf st) true
            (setTypedText (fun _ => typedText st ++ key) st))) as Hcomplete.
  { intros key Hc Hl. rewrite (step_KeyPress_match riddles key w) by auto.
    cbv zeta. destruct (charAt_Some _ _ _ Hc) as (_ & Hk & _).
    rewrite length_append, Hk.
    replace (String.length (typedText st) + 1)%nat
      with (S (String.length (typedText st))) by lia.
    rewrite Hl. now rewrite Nat.eqb_refl. }
  split; [|split; [exact Hcomplete|]].
  - intros key. split.
    + unfold step, handle. rewrite timerEffect_score, modalEffect_score.
      intros E.
      destruct (handleKeyPress_award riddles key st Hs E)
        as (_ & w' & Hw' & Hc & Hl).
      rewrite Hw in Hw'. injection Hw' as <-. auto.
    + intros [Hc Hl]. rewrite Hcomplete by assumption.
      rewrite modalEffect_score.
      destruct (currentWord_riddle riddles st w Hw) as (r & Hr & _).
      unfold moveToNextWord. setters. rewrite Hr.
      now case_match.
  - intros k0 c0 rest Hty Hwc -> Hrest Hk0 Hlen0.
    destruct (string_snoc rest Hrest) as (mid & cl & ->).
    destruct (currentWord_riddle riddles st _ Hw) as (r & Hr & Hwd).
    cbn [map]. rewrite letters_append, map_app. cbn [letters map].
    destruct st as [gs sc tl sel cri cwi ty wc used rnd srm sgo pend sr pa].
    simpl in Hp, Ht, Hty, Hwc, Hr, Hwd. subst gs ty wc.
    change (run riddles (KeyPress k0 :: ?l) ?s)
      with (run riddles l (step riddles s (KeyPress k0))).
    rewrite run_app.
    rewrite (step_KeyPress_wrong riddles k0 (String c0 (mid ++ String cl "")))
      by (simpl; auto).
    setters. cbn [String.append].
    change (GAME_CONFIG.MAX_WRONG_KEYS_PER_WORD <=? 0 + 1) with false.
    cbv iota.
    rewrite (run_matching riddles mid _ (String c0 "") (String cl ""));
      try (simpl; auto; fail); try discriminate.
    setters. cbn [run fold_left].
    rewrite (step_KeyPress_match riddles (String cl "")
               (String c0 (mid ++ String cl ""))); auto.
    + setters.
      match goal with
      | |- context [(?a =? ?b)%nat] =>
          replace (a =? b)%nat with true
            by (symmetry; apply Nat.eqb_eq; cbn [String.length];
                rewrite !length_append, Hlen0; cbn [String.length]; lia)
      end.
      rewrite append_assoc.
      split; [apply modalEffect_prev; reflexivity|].
      rewrite modalEffect_score.
      unfold moveToNextWord. setters. rewrite Hr. now case_match.
    + setters. rewrite length_append, Hlen0.
      apply (charAt_middle (String c0 mid) "" cl).
Qed.

Lemma C10_completion_by_length_witness :
  let st' := run oneSet [KeyPress "X"; KeyPress "A"; KeyPress "T"] playingCat in
  score st' = 7 /\ typedText st' = "" /\ currentWordIndex st' = 1%nat.
Proof.
  pose proof (C10_completion_by_length oneSet playingCat "CAT") as H.
  destruct H as (_ & _ & H); try (vm_compute; reflexivity);
    [vm_compute; discriminate|].
  specialize (H "X" "C"%char "AT").
  destruct H as [H Hs]; try reflexivity; try discriminate.
  - repeat split; try discriminate.
    exists "C". split; [reflexivity | discriminate].
  - vm_compute in H, Hs. vm_compute. tauto.
Defined.

(** ** Riddle selection *)

Section Selection.
Variable riddles : list Riddle.

Lemma elem_of_availableIndices used i :
  i ∈ availableIndices riddles used ↔
  (i ∉ used) ∧ (i < length riddles)%nat.
Proof.
  unfold availableIndices. rewrite list_elem_of_filter, elem_of_seq.
  intuition lia.
Qed.

Lemma nth_elem_of (l : list nat) (i : nat) :
  (i < length l)%nat -> nth i l O ∈ l.
Proof.
  intros Hi. apply list_elem_of_In, nth_In. exact Hi.
Qed.

(** A duplicate-free list of indices below [n] has at most [n]
    elements. *)
Lemma used_length (used : list nat) :
  NoDup used -> (forall i, i ∈ used -> (i < length riddles)%nat) ->
  (length used <= length riddles)%nat.
Proof.
  intros Hnd Hr.
  rewrite <- (length_seq (length riddles) 0).
  apply submseteq_length, NoDup_submseteq; [exact Hnd|].
  intros i Hi. apply elem_of_seq. specialize (Hr i Hi). lia.
Qed.

Lemma unused_length (used : list nat) (j : nat) :
  NoDup used -> (forall i, i ∈ used -> (i < length riddles)%nat) ->
  (j < length riddles)%nat -> j ∉ used ->
  (length used < length riddles)%nat.
Proof.
  intros Hnd Hr Hj Hnj.
  enough (length (j :: used) <= length (seq 0 (length riddles)))%nat as H
    by (rewrite length_seq in H; simpl in H; lia).
  apply submseteq_length, NoDup_submseteq.
  - now apply NoDup_cons_2.
  - intros i Hi. apply elem_of_cons in Hi as [->|Hi].
    + apply elem_of_seq. lia.
    + apply elem_of_seq. specialize (Hr i Hi). lia.
Qed.

Lemma all_used_length (used : list nat) :
  (forall i, (i < length riddles)%nat -> i ∈ used) ->
  (length riddles <= length used)%nat.
Proof.
  intros Hall. rewrite <- (length_seq (length riddles) 0) at 1.
  apply submseteq_length, NoDup_submseteq; [apply NoDup_seq|].
  intros i Hi. apply elem_of_seq in Hi. apply Hall. lia.
Qed.

(** The state after a correct answer that starts a new round with the
    riddle set [next]. *)
Definition nextRound (next : nat) (st : State) : State :=
  {| gameState := PLAYING;
     score := score st + GAME_CONFIG.POINTS_PER_RIDDLE;
     timeLeft := Z.min (timeLeft st + 10) 60;
     selectedTime := selectedTime st;
     currentRiddleIndex := next;
     currentWordIndex := 0;
     typedText := "";
     wrongKeyCount := 0;
     usedRiddleIndices := (usedRiddleIndices st ++ [next])%list;
     currentRound := currentRound st + 1;
     showRiddleModal := false;
     showGameOver := showGameOver st;
     pendingAdvance := pendingAdvance st;
     showResult := showResult st;
     pendingAnswer := pendingAnswer st |}.

(** The two outcomes of [handleRiddleAnswer]; the new set is drawn
    from the indices that the captured list [used] lacks. *)
Lemma handleRiddleAnswer_cases used isCorrect rnd st :
  (exists next,
      next ∈ availableIndices riddles used /\
      isCorrect = true /\
      (length used < length riddles)%nat /\
      handleRiddleAnswer riddles used isCorrect rnd st = nextRound next st) \/
  (handleRiddleAnswer riddles used isCorrect rnd st
   = endGame
       (setScore
          (fun prev =>
             if isCorrect then prev + GAME_CONFIG.POINTS_PER_RIDDLE else prev)
          (setShowRiddleModal false st)) /\
   (isCorrect = true ->
    (length used < length riddles)%nat ->
    availableIndices riddles used = [])).
Proof.
  unfold handleRiddleAnswer. destruct isCorrect.
  - destruct (length used <? length riddles)%nat eqn:El.
    + destruct (availableIndices riddles used) as [|a l] eqn:Ea.
      * right. split; [reflexivity | auto].
      * left. exists (nth (JS.randomIndex rnd (length (a :: l))) (a :: l) O).
        split; [|split; [reflexivity|split;
                                   [now apply Nat.ltb_lt|reflexivity]]].
        apply nth_elem_of, randomIndex_lt. simpl. lia.
    + right. split; [reflexivity|]. intros _ H.
      apply Nat.ltb_ge in El. lia.
  - right. split; [|discriminate]. unfold endGame. now setters.
Qed.

(** The end of the pause of the oldest answer: [handleRiddleAnswer]
    with what the timeout captured; no effect follows it. *)
Lemma step_AnswerTimeout cl rest rnd st :
  pendingAnswer st = cl :: rest ->
  0 <= timeLeft st ->
  step riddles st (AnswerTimeout rnd)
  = handleRiddleAnswer riddles (cl_usedRiddleIndices cl) (cl_correct cl) rnd
      (setPendingAnswer (fun _ => rest) st).
Proof.
  intros Hq Ht. unfold step, handle, answerTimeout. rewrite Hq.
  destruct (handleRiddleAnswer_cases (cl_usedRiddleIndices cl) (cl_correct cl)
              rnd (setPendingAnswer (fun _ => rest) st))
    as [(next & _ & _ & _ & ->)|[-> _]].
  - rewrite modalEffect_closed by reflexivity.
    apply timerEffect_id. simpl. lia.
  - rewrite modalEffect_closed by reflexivity.
    apply timerEffect_id. simpl. discriminate.
Qed.

(** A selection the modal accepts; no effect follows it. *)
Lemma step_SelectAnswer riddle answerIndex st :
  currentRiddle riddles st = Some riddle ->
  showRiddleModal st = true -> showResult st = false ->
  (answerIndex < length (options riddle))%nat ->
  (gameState st = PLAYING -> 0 < timeLeft st) ->
  step riddles st (SelectAnswer answerIndex)
  = setPendingAnswer
      (fun q => (q ++ [answerClosureOf riddle answerIndex st])%list)
      (setShowResult true st).
Proof.
  intros Hr Ho Hs Hi Ht. unfold step, handle, handleAnswerSelect.
  rewrite Hr, Ho, Hs. apply Nat.ltb_lt in Hi. rewrite Hi. simpl.
  rewrite modalEffect_same by reflexivity.
  apply timerEffect_id. exact Ht.
Qed.

(** How one event changes the record of used riddle sets: not at
    all, by appending a set of the catalog that the list captured by
    the firing answer lacks and showing it, or by starting a new
    session from the menu. *)
Inductive usedStep (st st' : State) (e : Event) : Prop :=
| used_same :
    usedRiddleIndices st' = usedRiddleIndices st ->
    currentRiddleIndex st' = currentRiddleIndex st ->
    usedStep st st' e
| used_next next rnd cl rest :
    e = AnswerTimeout rnd ->
    pendingAnswer st = cl :: rest ->
    cl_correct cl = true ->
    next ∉ cl_usedRiddleIndices cl ->
    (next < length riddles)%nat ->
    usedRiddleIndices st' = (usedRiddleIndices st ++ [next])%list ->
    currentRiddleIndex st' = next ->
    usedStep st st' e
| used_newSession rnd :
    e = StartGame rnd -> gameState st = MENU ->
    usedRiddleIndices st' = [currentRiddleIndex st'] ->
    usedStep st st' e.

Lemma moveToNextWord_used cl b st :
  usedRiddleIndices (moveToNextWord riddles cl b st) = usedRiddleIndices st /\
  currentRiddleIndex (moveToNextWord riddles cl b st) = currentRiddleIndex st.
Proof. unfold moveToNextWord. repeat case_match; simpl; auto. Qed.

Lemma handleKeyPress_used key st :
  usedRiddleIndices (handleKeyPress riddles key st) = usedRiddleIndices st /\
  currentRiddleIndex (handleKeyPress riddles key st) = currentRiddleIndex st.
Proof.
  unfold handleKeyPress. repeat case_match; simpl; auto.
  match goal with
  | |- context [moveToNextWord _ ?c ?b ?s] =>
      destruct (moveToNextWord_used c b s) as [-> ->]
  end.
  simpl. auto.
Qed.

Lemma timerEffect_used st :
  usedRiddleIndices (timerEffect st) = usedRiddleIndices st /\
  currentRiddleIndex (timerEffect st) = currentRiddleIndex st.
Proof. unfold timerEffect. case_match; simpl; auto. Qed.

Lemma modalEffect_used prev st :
  usedRiddleIndices (modalEffect riddles prev st) = usedRiddleIndices st /\
  currentRiddleIndex (modalEffect riddles prev st) = currentRiddleIndex st.
Proof. destruct (modalEffect_cases riddles prev st) as [->|[_ ->]]; auto. Qed.

Lemma handle_usedStep st e : usedStep st (handle riddles e st) e.
Proof.
  destruct e; simpl.
  - case_match; now constructor 1.
  - case_match; [|now constructor 1].
    match goal with
    | H : bool_decide _ = true |- _ => apply bool_decide_eq_true in H
    end.
    now apply (used_newSession _ _ _ rnd).
  - constructor 1; apply handleKeyPress_used.
  - destruct (handleAnswerSelect_cases riddles answerIndex st)
      as [->|(r & _ & _ & _ & _ & ->)]; now constructor 1.
  - unfold answerTimeout.
    destruct (pendingAnswer st) as [|cl rest] eqn:Eq; [now constructor 1|].
    destruct (handleRiddleAnswer_cases (cl_usedRiddleIndices cl)
                (cl_correct cl) rnd (setPendingAnswer (fun _ => rest) st))
      as [(next & Hn & Hc & _ & ->)|[-> _]].
    + apply elem_of_availableIndices in Hn as [Hn Hlt].
      now apply (used_next _ _ _ next rnd cl rest).
    + now constructor 1.
  - unfold tick. case_match; now constructor 1.
  - unfold advanceTimeout. case_match; [now constructor 1|].
    match goal with
    | |- context [moveToNextWord _ ?c ?b ?s] =>
        destruct (moveToNextWord_used c b s) as [E1 E2]
    end.
    constructor 1; [rewrite E1 | rewrite E2]; reflexivity.
  - now constructor 1.
Qed.

Lemma step_usedStep st e : usedStep st (step riddles st e) e.
Proof.
  unfold step.
  destruct (timerEffect_used (modalEffect riddles st (handle riddles e st)))
    as [Eu Ei].
  destruct (modalEffect_used st (handle riddles e st)) as [Eu' Ei'].
  destruct (handle_usedStep st e)
    as [Hu Hi|next rnd cl rest He Hq Hc Hn Hlt Hu Hi|rnd He Hm Hu].
  - constructor 1; congruence.
  - apply (used_next _ _ _ next rnd cl rest); congruence.
  - apply (used_newSession _ _ _ rnd); congruence.
Qed.

(** The set on show is the last one recorded. *)
Definition usedCurrent (st : State) : Prop :=
  usedRiddleIndices st = [] \/
  list.last (usedRiddleIndices st) = Some (currentRiddleIndex st).

Lemma step_usedCurrent st e : usedCurrent st -> usedCurrent (step riddles st e).
Proof.
  unfold usedCurrent. intros Hc.
  destruct (step_usedStep st e)
    as [Hu Hi|next rnd cl rest He Hq Hcl Hn Hlt Hu Hi|rnd -> Hm Hu];
    rewrite ?Hu, ?Hi; auto.
  right. apply last_snoc.
Qed.

(** With a catalog that has a riddle set, the used indices are indices
    of the catalog. *)
Definition usedInRange (st : State) : Prop :=
  forall i, i ∈ usedRiddleIndices st -> (i < length riddles)%nat.

Lemma step_usedInRange st e :
  riddles <> [] -> usedInRange st -> usedInRange (step riddles st e).
Proof.
  intros Hne Hr. unfold usedInRange.
  destruct (step_usedStep st e)
    as [Hu Hi|next rnd cl rest He Hq Hcl Hn Hlt Hu Hi|rnd -> Hm Hu];
    rewrite Hu.
  - exact Hr.
  - intros i Hin. apply elem_of_app in Hin as [Hin|Hin]; [auto|].
    apply list_elem_of_singleton in Hin. now subst.
  - intros i Hin. apply list_elem_of_singleton in Hin. subst i.
    unfold step. rewrite (proj2 (timerEffect_used _)).
    rewrite (proj2 (modalEffect_used _ _)). simpl.
    rewrite bool_decide_eq_true_2 by exact Hm. simpl.
    apply randomIndex_lt. destruct riddles; [congruence | simpl; lia].
Qed.

End Selection.

(** [initializeGame] depends on the random source through the index
    only. *)
Lemma initializeGame_index (riddles : list Riddle) (rnd rnd' : nat)
    (st : State) :
  JS.randomIndex rnd (length riddles) = JS.randomIndex rnd' (length riddles) ->
  initializeGame riddles rnd st = initializeGame riddles rnd' st.
Proof. intros H. unfold initializeGame. cbv zeta. now rewrite H. Qed.

(** C6.  When every riddle set of the catalog has been used at the
    time the correct answer is selected, the end of its pause still
    adds the riddle points and then ends the game, whatever happened
    during the pause; nothing else of the session changes.  In [RIDDLE]
    the modal accepts the correct answer when it is open, shows no
    result and lists the answer.  With the one-set catalog of the
    example: "CAT" gives 5, "DOG" gives 10 and the riddle, the correct
    answer 1 gives [GAME_OVER] with 30. *)
Theorem C6_correct_answer_catalog_exhausted :
  (forall (riddles : list Riddle) (st st' : State) (r : Riddle)
          (rest : list AnswerClosure) (rnd : nat),
     currentRiddle riddles st = Some r ->
     (forall i, (i < length riddles)%nat -> i ∈ usedRiddleIndices st) ->
     pendingAnswer st' = answerClosureOf r (correctAnswer r) st :: rest ->
     let st'' := step riddles st' (AnswerTimeout rnd) in
     gameState st'' = GAME_OVER /\
     score st'' = score st' + GAME_CONFIG.POINTS_PER_RIDDLE /\
     st'' = endGame
              (setScore (fun prev => prev + GAME_CONFIG.POINTS_PER_RIDDLE)
                 (setShowRiddleModal false
                    (setPendingAnswer (fun _ => rest) st')))) /\
  (forall (riddles : list Riddle) (st : State) (r : Riddle),
     gameState st = RIDDLE ->
     currentRiddle riddles st = Some r ->
     showRiddleModal st = true -> showResult st = false ->
     (correctAnswer r < length (options r))%nat ->
     step riddles st (SelectAnswer (correctAnswer r))
     = setPendingAnswer
         (fun q => (q ++ [answerClosureOf r (correctAnswer r) st])%list)
         (setShowResult true st)) /\
  (forall rnd rnd' : nat,
     let st1 :=
       run oneSet (StartGame rnd :: map KeyPress (letters "CAT")) initialState in
     let st2 := run oneSet (map KeyPress (letters "DOG")) st1 in
     let st3 := run oneSet [SelectAnswer 1; AnswerTimeout rnd'] st2 in
     gameState st1 = PLAYING /\ score st1 = 5 /\
     gameState st2 = RIDDLE /\ score st2 = 10 /\
     gameState st3 = GAME_OVER /\ score st3 = 30).
Proof.
  split; [|split].
  - intros riddles st st' r rest rnd Hcur Hall Hq st''. subst st''.
    unfold step, handle, answerTimeout. rewrite Hq.
    cbn [answerClosureOf cl_correct cl_usedRiddleIndices].
    unfold RiddleModal.handleAnswerSelect. rewrite Nat.eqb_refl.
    pose proof (all_used_length riddles _ Hall) as Hlen.
    destruct (handleRiddleAnswer_cases riddles (usedRiddleIndices st) true rnd
                (setPendingAnswer (fun _ => rest) st'))
      as [(next & _ & _ & Hlt & _)|[-> _]]; [lia|].
    rewrite modalEffect_closed by reflexivity.
    rewrite timerEffect_id by (simpl; discriminate).
    now repeat split.
  - intros riddles st r Hg Hcur Ho Hs Hi.
    apply step_SelectAnswer; auto. rewrite Hg. discriminate.
  - intros rnd rnd' st1 st2 st3.
    assert (step oneSet initialState (StartGame rnd)
            = step oneSet initialState (StartGame 0)) as Hstart.
    { unfold step, handle.
      rewrite (initializeGame_index oneSet rnd 0); [reflexivity|].
      unfold JS.randomIndex. change (length oneSet) with 1%nat. cbv iota.
      now rewrite !Nat.mod_1_r. }
    assert (st1 = run oneSet (StartGame 0 :: map KeyPress (letters "CAT"))
                    initialState) as E1
      by (subst st1; rewrite !run_cons; now rewrite Hstart).
    subst st3 st2. rewrite E1. clear. vm_compute. now repeat split.
Qed.

Lemma C6_correct_answer_catalog_exhausted_witness :
  let st' := run oneSet [SelectAnswer 1; AnswerTimeout 0] riddleTime in
  gameState st' = GAME_OVER /\ score st' = 30.
Proof.
  pose proof (proj1 C6_correct_answer_catalog_exhausted oneSet riddleTime
                (step oneSet riddleTime (SelectAnswer 1))
                (mkRiddle ["CAT"; "DOG"] ["A"; "B"] 1) [] 0%nat) as H.
  destruct H as (Hg & Hs & _); try (vm_compute; reflexivity).
  - intros i Hi. simpl in Hi. assert (i = 0%nat) as -> by lia.
    vm_compute. apply list_elem_of_here.
  - vm_compute in Hg, Hs. vm_compute. tauto.
Defined.

(** ** Input that the engine does not filter *)

(** Outside [PLAYING] a key press changes nothing. *)
Lemma step_KeyPress_not_playing (riddles : list Riddle) (key : string)
    (st : State) :
  gameState st <> PLAYING -> step riddles st (KeyPress key) = st.
Proof.
  intros H. unfold step, handle.
  rewrite handleKeyPress_not_playing by exact H.
  rewrite modalEffect_same by reflexivity.
  apply timerEffect_id. intros E. contradiction.
Qed.

(** In [GAME_OVER] a tick changes nothing. *)
Lemma step_Tick_game_over (riddles : list Riddle) (st : State) :
  gameState st = GAME_OVER -> step riddles st Tick = st.
Proof.
  intros H. unfold step, handle, tick.
  rewrite bool_decide_eq_false_2 by (rewrite H; discriminate).
  rewrite modalEffect_same by reflexivity.
  apply timerEffect_id. rewrite H. discriminate.
Qed.

(** The tick that takes the time from 1 to 0 in [PLAYING] ends the
    game. *)
Lemma step_Tick_last_second (riddles : list Riddle) (st : State) :
  gameState st = PLAYING -> timeLeft st = 1 ->
  step riddles st Tick = endGame (setTimeLeft (fun _ => 0) st).
Proof.
  intros Hp Ht. unfold step, handle, tick.
  rewrite bool_decide_eq_true_2 by exact Hp. rewrite Ht.
  change (true && (0 <? 1)) with true. cbv iota.
  rewrite modalEffect_same by reflexivity.
  unfold timerEffect. cbn [timeLeft gameState setTimeLeft].
  rewrite bool_decide_eq_true_2 by exact Hp. rewrite Ht.
  change ((1 - 1 =? 0) && true) with true. cbv iota.
  f_equal. unfold setTimeLeft. now rewrite Ht.
Qed.

(** C2.  The physical-key handler of the keyboard drops the space
    character, the on-screen SPACE button forwards it, and
    [handleKeyPress] has no letter check: in [PLAYING], on the word
    "DOG" with a score of 5, the space costs the wrong-key penalty,
    enters the typed text and counts as a wrong key.  Outside
    [PLAYING] every key press is ignored. *)
Theorem C2_space_button_is_a_wrong_key :
  let st := run oneSet (StartGame 0 :: map KeyPress (letters "CAT")) initialState in
  let st' := step oneSet st (KeyPress " ") in
  In " " Keyboard.buttons /\
  Keyboard.handleKeyClick (negb (bool_decide (gameState st = PLAYING))) " "
  = Some " " /\
  Keyboard.handleKeyDown (negb (bool_decide (gameState st = PLAYING))) " "
  = None /\
  Keyboard.isLetter " " = false /\
  (gameState st, score st, typedText st, wrongKeyCount st)
  = (PLAYING, 5, "", 0) /\
  (gameState st', score st', typedText st', wrongKeyCount st')
  = (PLAYING, 2, " ", 1) /\
  forall riddles key s,
    gameState s <> PLAYING -> step riddles s (KeyPress key) = s.
Proof.
  repeat split; try (vm_compute; tauto).
  intros riddles key s. apply step_KeyPress_not_playing.
Qed.

(** ** Key presses while a word advance is pending *)

Definition threeWords : list Riddle :=
  [ mkRiddle ["CAT"; "DOG"; "BIRD"] ["A"; "B"] 1 ].

(** C3.  After the second wrong key on "CAT" the advance is pending and
    the keyboard is still enabled.  A key pressed before the timeout
    fires is handled on the old word: "T" matches position 2, fills the
    typed text "XYT" and completes the word (score 0 to 5, word index 0
    to 1); the pending advance then charges the wrong-word penalty and
    advances again, past "DOG" (word index 2, score 2), where the
    timeout alone gives word index 1 and score 0.  A third wrong key
    schedules a second advance.  On the two-word set of [oneSet] the
    second advance leaves the word index past the last word: no word is
    shown and every key is dropped while the state stays [PLAYING]. *)
Theorem C3_key_press_during_pending_advance :
  let st2 :=
    run threeWords [StartGame 0; KeyPress "X"; KeyPress "Y"] initialState in
  let st3 := step threeWords st2 (KeyPress "T") in
  let st4 := step threeWords st3 AdvanceTimeout in
  (gameState st2, score st2, typedText st2, wrongKeyCount st2,
   currentWordIndex st2, length (pendingAdvance st2))
  = (PLAYING, 0, "XY", 2, 0%nat, 1%nat) /\
  Keyboard.handleKeyClick (negb (bool_decide (gameState st2 = PLAYING))) "T"
  = Some "T" /\
  (gameState st3, score st3, typedText st3, wrongKeyCount st3,
   currentWordIndex st3, length (pendingAdvance st3))
  = (PLAYING, 5, "", 0, 1%nat, 1%nat) /\
  (gameState st4, score st4, typedText st4, wrongKeyCount st4,
   currentWordIndex st4, length (pendingAdvance st4))
  = (PLAYING, 2, "", 0, 2%nat, 0%nat) /\
  (score (step threeWords st2 AdvanceTimeout),
   currentWordIndex (step threeWords st2 AdvanceTimeout))
  = (0, 1%nat) /\
  length (pendingAdvance (step threeWords st2 (KeyPress "Z"))) = 2%nat /\
  currentWordIndex
    (run threeWords [KeyPress "Z"; AdvanceTimeout; AdvanceTimeout] st2)
  = 2%nat /\
  let st5 :=
    run oneSet
      [StartGame 0; KeyPress "X"; KeyPress "Y"; KeyPress "T"; AdvanceTimeout]
      initialState in
  (gameState st5, currentWordIndex st5, currentWord oneSet st5)
  = (PLAYING, 2%nat, None) /\
  step oneSet st5 (KeyPress "D") = st5.
Proof. vm_compute. repeat split. Qed.

(** ** The pending advance and the end of the game *)

(** While the state is [GAME_OVER], ticks and key presses change
    nothing. *)
Lemma game_over_ignores_ticks_and_keys (riddles : list Riddle)
    (evs : list Event) (st : State) :
  gameState st = GAME_OVER ->
  Forall (fun e => e = Tick \/ exists key, e = KeyPress key) evs ->
  run riddles evs st = st.
Proof.
  intros Hg Hevs. induction Hevs as [|e evs He _ IH]; [reflexivity|].
  change (run riddles (?e :: ?l) ?s)
    with (run riddles l (step riddles s e)).
  destruct He as [->|[key ->]].
  - now rewrite step_Tick_game_over.
  - rewrite step_KeyPress_not_playing; [exact IH|]. rewrite Hg. discriminate.
Qed.

(** The events up to the end of the game: "CAT" typed, 29 seconds
    gone, two wrong keys on the last word "DOG" in the last second,
    the last tick. *)
Definition lastSecond : list Event :=
  (StartGame 0 :: map KeyPress (letters "CAT") ++ replicate 29 Tick
     ++ [KeyPress "X"; KeyPress "Y"; Tick])%list.

(** C7.  The tick at one second left ends the game.  The advance
    scheduled by the two wrong keys is not cancelled by [endGame]: it
    fires in [GAME_OVER], charges the penalty and, as the word was the
    last of its set, opens the riddle; the correct answer and the end
    of its pause then return to [PLAYING] with 10 seconds, and a tick
    and a key press change the time and the typed text of the session
    whose game was over. *)
Theorem C7_advance_fires_after_game_over :
  let st0 := run twoSets lastSecond initialState in
  let st1 := step twoSets st0 AdvanceTimeout in
  let st2 := run twoSets [SelectAnswer 1; AnswerTimeout 0] st1 in
  (gameState st0, score st0, timeLeft st0, showGameOver st0,
   length (pendingAdvance st0))
  = (GAME_OVER, 0, 0, true, 1%nat) /\
  (gameState st1, showRiddleModal st1, showGameOver st1)
  = (RIDDLE, true, true) /\
  (gameState st2, score st2, timeLeft st2, typedText st2)
  = (PLAYING, 20, 10, "") /\
  timeLeft (step twoSets st2 Tick) = 9 /\
  typedText (step twoSets st2 (KeyPress "S")) = "S".
Proof. vm_compute. repeat split. Qed.

(** ** A word started while an older advance is pending *)

Definition sixWords : list Riddle :=
  [ mkRiddle ["CAT"; "DOG"; "BIRD"; "FISH"; "LION"; "BEAR"] ["A"; "B"] 1 ].

(** Three words typed, then "FISH" filled as "XYSH": the two wrong
    keys schedule the advance of "FISH", and "S" and "H" complete the
    word before the timeout fires. *)
Definition fishFilled : list Event :=
  (StartGame 0 :: map KeyPress (letters "CATDOGBIRD")
     ++ map KeyPress ["X"; "Y"; "S"; "H"])%list.

(** C4.  After [fishFilled] the word "LION" starts in [PLAYING] with
    a score of 14, an empty typed text and a wrong-key count of 0,
    while the advance scheduled on "FISH" is still pending.  Two wrong
    keys give 11 and 8 and schedule a second advance.  The first
    timeout charges the wrong-word penalty and moves to "BEAR" (score
    5, word index 5); the second one, scheduled by the two wrong keys,
    charges it again and moves past the last word: score 2, word index
    6, no word on show in [PLAYING], where two clamped wrong-key
    penalties and one wrong-word penalty on 14 give 5 and the word
    after "LION" is "BEAR". *)
Theorem C4_stale_advance_charges_twice :
  let st := run sixWords fishFilled initialState in
  let st2 := run sixWords [KeyPress "X"; KeyPress "Y"] st in
  let st3 := step sixWords st2 AdvanceTimeout in
  let st4 := step sixWords st3 AdvanceTimeout in
  (gameState st, score st, typedText st, wrongKeyCount st,
   currentWord sixWords st, length (pendingAdvance st))
  = (PLAYING, 14, "", 0, Some "LION", 1%nat) /\
  (score st2, typedText st2, wrongKeyCount st2, length (pendingAdvance st2))
  = (8, "XY", 2, 2%nat) /\
  (gameState st3, score st3, currentWordIndex st3, currentWord sixWords st3,
   length (pendingAdvance st3))
  = (PLAYING, 5, 5%nat, Some "BEAR", 1%nat) /\
  (gameState st4, score st4, currentWordIndex st4, currentWord sixWords st4,
   length (pendingAdvance st4))
  = (PLAYING, 2, 6%nat, None, 0%nat) /\
  Z.max 0
    (Z.max 0
       (Z.max 0 (score st - GAME_CONFIG.POINTS_PENALTY_WRONG_KEY)
        - GAME_CONFIG.POINTS_PENALTY_WRONG_KEY)
     - GAME_CONFIG.PENALTY_PER_WRONG_WORD) = 5 /\
  forall key, step sixWords st4 (KeyPress key) = st4.
Proof.
  vm_compute. repeat split.
Qed.

(** ** An answer whose pause outlives its game *)

(** The events of C7 up to the riddle opened over the game-over
    screen; then the correct answer is selected with the key 2, the
    player returns to the menu and starts a new game, which draws the
    set 1. *)
Definition staleAnswer : list Event :=
  (lastSecond
     ++ [AdvanceTimeout; SelectAnswer 1; BackToMenu; StartGame 1])%list.

(** C9.  The callback of the two-second timeout holds the
    [usedRiddleIndices] of the render in which the answer was
    selected, and nothing cancels it.  After [staleAnswer] the new game
    shows set 1 with the list [[1]] and the answer of the old game is
    still pending with the list [[0]]; when its pause ends,
    [handleRiddleAnswer] draws from the sets that [[0]] lacks, that is
    set 1, and appends it to the current list: the list is [[1; 1]],
    set 1 is shown a second time in the same session, and the round
    is 2. *)
Theorem C9_stale_answer_repeats_set :
  let st1 := run twoSets (lastSecond ++ [AdvanceTimeout])%list initialState in
  let st2 := step twoSets st1 (SelectAnswer 1) in
  let st3 := run twoSets staleAnswer initialState in
  let st4 := step twoSets st3 (AnswerTimeout 0) in
  (gameState st1, showRiddleModal st1, showResult st1, showGameOver st1,
   currentRiddleIndex st1, usedRiddleIndices st1)
  = (RIDDLE, true, false, true, 0%nat, [0%nat]) /\
  (showResult st2, pendingAnswer st2)
  = (true, [{| cl_correct := true; cl_usedRiddleIndices := [0%nat] |}]) /\
  st3 = run twoSets [BackToMenu; StartGame 1] st2 /\
  (gameState st3, score st3, currentRiddleIndex st3, currentWordIndex st3,
   usedRiddleIndices st3, currentRound st3, pendingAnswer st3)
  = (PLAYING, 0, 1%nat, 0%nat, [1%nat], 1,
     [{| cl_correct := true; cl_usedRiddleIndices := [0%nat] |}]) /\
  (gameState st4, score st4, timeLeft st4, currentRiddleIndex st4,
   currentWordIndex st4, usedRiddleIndices st4, currentRound st4,
   pendingAnswer st4)
  = (PLAYING, 20, 40, 1%nat, 0%nat, [1%nat; 1%nat], 2, []) /\
  ~ NoDup (usedRiddleIndices st4) /\
  forall rnd,
    usedRiddleIndices (step twoSets st3 (AnswerTimeout rnd))
    = [1%nat; 1%nat].
Proof.
  vm_compute. repeat split.
  intros H. inversion H as [|? ? Hn _]. apply Hn. apply list_elem_of_here.
Qed.

(** C5.  In the session of C9, with the list [[1; 1]], the three
    words of set 1 lead to [RIDDLE] with 35 points; set 0 of the
    catalog is not in the list and no answer is pending.  The correct
    answer is accepted, and at the end of its pause
    [handleRiddleAnswer] compares the length of the captured list, 2,
    with the length of the catalog, 2: the riddle points are added and
    the game ends, with 55 points, although an unused set remains. *)
Theorem C5_unused_set_left_game_ends :
  let st4 := run twoSets (staleAnswer ++ [AnswerTimeout 0])%list initialState in
  let st5 := run twoSets (map KeyPress (letters "SUNMOONSTAR")) st4 in
  let st6 := step twoSets st5 (SelectAnswer 0) in
  let st7 := step twoSets st6 (AnswerTimeout 0) in
  (gameState st5, showRiddleModal st5, showResult st5, score st5, timeLeft st5,
   currentRiddleIndex st5, usedRiddleIndices st5, pendingAnswer st5)
  = (RIDDLE, true, false, 35, 40, 1%nat, [1%nat; 1%nat], []) /\
  ((0 < length twoSets)%nat /\ (0%nat ∉ usedRiddleIndices st5)) /\
  option_map correctAnswer (currentRiddle twoSets st5) = Some 0%nat /\
  pendingAnswer st6
  = [{| cl_correct := true; cl_usedRiddleIndices := [1%nat; 1%nat] |}] /\
  (gameState st7, score st7, timeLeft st7, currentRound st7,
   currentRiddleIndex st7, usedRiddleIndices st7)
  = (GAME_OVER, 55, 40, 2, 1%nat, [1%nat; 1%nat]) /\
  forall rnd, gameState (step twoSets st6 (AnswerTimeout rnd)) = GAME_OVER.
Proof.
  vm_compute. repeat split; [lia|].
  intros H. repeat (apply elem_of_cons in H as [H|H]; [discriminate H|]).
  now apply elem_of_nil in H.
Qed.

(** * Further properties of the engine *)

(** ** The clock *)

Section Clock.
Variable riddles : list Riddle.

Lemma moveToNextWord_time cl b st :
  timeLeft (moveToNextWord riddles cl b st) = timeLeft st /\
  selectedTime (moveToNextWord riddles cl b st) = selectedTime st.
Proof. unfold moveToNextWord. repeat case_match; simpl; auto. Qed.

Lemma handleKeyPress_time key st :
  timeLeft (handleKeyPress riddles key st) = timeLeft st /\
  selectedTime (handleKeyPress riddles key st) = selectedTime st.
Proof.
  unfold handleKeyPress. repeat case_match; simpl; auto.
  match goal with
  | |- context [moveToNextWord _ ?c ?b ?s] =>
      destruct (moveToNextWord_time c b s) as [-> ->]
  end.
  simpl. auto.
Qed.

(** The time is between 0 and the ceiling, the selected duration is one
    of the three of the menu. *)
Definition clockOk (st : State) : Prop :=
  0 <= timeLeft st <= GAME_CONFIG.MAX_TIME /\
  (selectedTime st = 30 \/ selectedTime st = 45 \/ selectedTime st = 60).

Lemma handle_clockOk e st : clockOk st -> clockOk (handle riddles e st).
Proof.
  unfold clockOk, GAME_CONFIG.MAX_TIME. intros [Ht Hs]. destruct e; simpl.
  - case_match; simpl; [|auto]. split; [exact Ht|]. destruct d; simpl; auto.
  - case_match; simpl; [|auto]. split; [lia | exact Hs].
  - destruct (handleKeyPress_time key st) as [-> ->]. auto.
  - destruct (handleAnswerSelect_cases riddles answerIndex st)
      as [->|(r & _ & _ & _ & _ & ->)]; auto.
  - unfold answerTimeout. case_match; [auto|].
    unfold handleRiddleAnswer, endGame.
    repeat case_match; simpl; split; auto; lia.
  - unfold tick. case_match; simpl; split; auto; lia.
  - unfold advanceTimeout. case_match; [auto|].
    match goal with
    | |- context [moveToNextWord _ ?c ?b ?s] =>
        destruct (moveToNextWord_time c b s) as [-> ->]
    end.
    simpl. auto.
  - auto.
Qed.

Lemma timerEffect_clockOk st : clockOk st -> clockOk (timerEffect st).
Proof. unfold clockOk, timerEffect, endGame. case_match; simpl; auto. Qed.

Lemma step_clockOk st e : clockOk st -> clockOk (step riddles st e).
Proof.
  intros H. apply timerEffect_clockOk, modalEffect_keeps; [auto|].
  apply handle_clockOk, H.
Qed.

(** Ticks below the time left only lower the time. *)
Lemma run_ticks (k : nat) :
  forall st,
    gameState st = PLAYING -> Z.of_nat k < timeLeft st ->
    run riddles (replicate k Tick) st
    = setTimeLeft (fun prev => prev - Z.of_nat k) st.
Proof.
  induction k as [|k IH]; intros st Hp Hk.
  - simpl. destruct st; unfold setTimeLeft; simpl. f_equal. lia.
  - cbn [replicate]. rewrite run_cons.
    assert (step riddles st Tick = setTimeLeft (fun prev => prev - 1) st) as ->.
    { unfold step, handle, tick.
      rewrite bool_decide_eq_true_2 by exact Hp.
      replace (0 <? timeLeft st) with true by (symmetry; apply Z.ltb_lt; lia).
      rewrite modalEffect_same by reflexivity.
      apply timerEffect_id. simpl. lia. }
    rewrite IH by (simpl; auto; lia).
    destruct st; unfold setTimeLeft; simpl. f_equal. lia.
Qed.

(** Outside [PLAYING] ticks and key presses change nothing. *)
Lemma step_Tick_not_playing st :
  gameState st <> PLAYING -> step riddles st Tick = st.
Proof.
  intros H. unfold step, handle, tick.
  rewrite bool_decide_eq_false_2 by exact H.
  rewrite modalEffect_same by reflexivity.
  apply timerEffect_id. intros E. contradiction.
Qed.

End Clock.

(** X1.  In every state a session can reach the time left is between 0
    and the ceiling of 60, the selected duration is 30, 45 or 60, and
    while the state is [PLAYING] the time left is positive. *)
Theorem X1_time_within_bounds (riddles : list Riddle) (evs : list Event) :
  let st := run riddles evs initialState in
  0 <= timeLeft st <= GAME_CONFIG.MAX_TIME /\
  (selectedTime st = 30 \/ selectedTime st = 45 \/ selectedTime st = 60) /\
  (gameState st = PLAYING -> 0 < timeLeft st).
Proof.
  intros st.
  assert (clockOk st) as [Ht Hs].
  { apply (run_invariant riddles clockOk).
    - unfold clockOk, GAME_CONFIG.MAX_TIME. simpl. lia.
    - intros s e. apply step_clockOk. }
  repeat split; try tauto; try lia.
  apply (reachable_playing_time riddles). now exists evs.
Qed.

(** X2.  In [PLAYING] with [t] seconds left, [k < t] ticks leave the
    session as it is with [t - k] seconds, the [t]-th tick ends the
    game with 0 seconds and nothing else changed, and further ticks do
    nothing. *)
Theorem X2_ticks_count_down (riddles : list Riddle) (st : State)
    (k more : nat) :
  gameState st = PLAYING ->
  0 < timeLeft st ->
  let t := Z.to_nat (timeLeft st) in
  ((k < t)%nat ->
   run riddles (replicate k Tick) st
   = setTimeLeft (fun prev => prev - Z.of_nat k) st) /\
  run riddles (replicate (t + more) Tick) st
  = endGame (setTimeLeft (fun _ => 0) st).
Proof.
  intros Hp Ht t.
  assert (Z.of_nat t = timeLeft st) as Et by (subst t; lia).
  clearbody t. split.
  - intros Hk. apply run_ticks; [exact Hp | lia].
  - destruct t as [|n]; [simpl in Et; lia|].
    rewrite replicate_add, run_app, replicate_S_end, run_app.
    rewrite (run_ticks riddles n st) by (auto; lia).
    rewrite run_cons. cbn [run fold_left].
    rewrite step_Tick_last_second by (simpl; auto; lia).
    assert (forall s, gameState s = GAME_OVER ->
                      run riddles (replicate more Tick) s = s) as Hover.
    { intros s Hs. induction more as [|m IHm]; [reflexivity|].
      cbn [replicate]. rewrite run_cons.
      rewrite step_Tick_not_playing by (rewrite Hs; discriminate).
      exact IHm. }
    rewrite Hover by reflexivity.
    destruct st; unfold endGame, setTimeLeft, setGameState, setShowGameOver;
      reflexivity.
Qed.

Lemma X2_ticks_count_down_witness :
  timeLeft (run oneSet (replicate 7 Tick) playingCat) = 23 /\
  gameState (run oneSet (replicate 33 Tick) playingCat) = GAME_OVER.
Proof.
  pose proof (X2_ticks_count_down oneSet playingCat 7 3) as H.
  destruct H as [H1 H2]; try (vm_compute; reflexivity).
  split.
  - rewrite H1 by (vm_compute; lia). reflexivity.
  - change 33%nat with (Z.to_nat (timeLeft playingCat) + 3)%nat.
    rewrite H2. reflexivity.
Defined.



(** ** Words and answers *)

(** X4.  Typing the characters of the current word in order, from an
    empty typed text, completes the word at its last character: the
    score grows by exactly the word points and the engine moves to the
    next word of the set with the typed text and the wrong-key count
    reset, or to the riddle after the last word, where the effect of
    the modal follows the advance. *)
Theorem X4_word_typed_correctly (riddles : list Riddle) (st : State)
    (r : Riddle) (w : string) :
  gameState st = PLAYING ->
  0 < timeLeft st ->
  riddles !! currentRiddleIndex st = Some r ->
  words r !! currentWordIndex st = Some w ->
  w <> "" ->
  typedText st = "" ->
  let st' := run riddles (map KeyPress (letters w)) st in
  st' = modalEffect riddles st
          (moveToNextWord riddles (closureOf st) true
             (setTypedText (fun _ => w) st)) /\
  score st' = score st + GAME_CONFIG.POINTS_PER_WORD /\
  if (currentWordIndex st + 1 <? length (words r))%nat
  then gameState st' = PLAYING /\
       currentWordIndex st' = (currentWordIndex st + 1)%nat /\
       typedText st' = "" /\ wrongKeyCount st' = 0
  else gameState st' = RIDDLE /\ showRiddleModal st' = true /\
       typedText st' = w.
Proof.
  intros Hp Ht Hr Hw Hne Hty st'.
  assert (currentWord riddles st = Some w) as Hcw
    by (unfold currentWord, currentRiddle; now rewrite Hr).
  destruct (string_snoc w Hne) as (mid & cl & Ew).
  assert (st' = modalEffect riddles st
                  (moveToNextWord riddles (closureOf st) true
                     (setTypedText (fun _ => w) st))) as E.
  { subst st'. rewrite Ew at 1. rewrite letters_append, map_app, run_app.
    rewrite (run_matching riddles mid st "" (String cl ""));
      [|assumption|assumption|now rewrite <- Ew|discriminate|now rewrite Hty].
    cbn [letters map]. rewrite run_cons. cbn [run fold_left].
    rewrite (step_KeyPress_match riddles (String cl "") w);
      [|assumption|assumption|assumption|].
    - cbv zeta. cbn [typedText setTypedText]. rewrite Hty.
      cbn [String.append]. rewrite <- Ew. rewrite Nat.eqb_refl.
      rewrite (modalEffect_prev riddles st) by reflexivity.
      reflexivity.
    - cbn [typedText setTypedText]. rewrite Hty. cbn [String.append].
      rewrite Ew. apply charAt_middle. }
  split; [exact E|]. rewrite E.
  match goal with
  | |- context [modalEffect _ ?p ?s] =>
      destruct (modalEffect_cases riddles p s) as [->|[_ ->]]
  end;
    unfold moveToNextWord;
    cbn [closureOf cl_riddleIndex cl_wordIndex]; rewrite Hr;
    destruct (currentWordIndex st + 1 <? length (words r))%nat; simpl; auto.
Qed.

Lemma X4_word_typed_correctly_witness :
  let st' := run oneSet [KeyPress "C"; KeyPress "A"; KeyPress "T"] playingCat in
  score st' = 10 /\ currentWordIndex st' = 1%nat /\ typedText st' = "".
Proof.
  pose proof (X4_word_typed_correctly oneSet playingCat
                (mkRiddle ["CAT"; "DOG"] ["A"; "B"] 1) "CAT") as H.
  destruct H as (_ & Hs & Hi); try (vm_compute; reflexivity);
    [discriminate|].
  vm_compute in Hs, Hi. vm_compute. tauto.
Defined.

(** X5.  A wrong riddle answer ends the game whatever the score, the
    sets still unused and what happened during its pause: when the
    timeout of an answer other than the correct one fires, the modal
    closes, the state is [GAME_OVER], and the score and every other
    field stay as they are. *)
Theorem X5_wrong_answer_ends_game (riddles : list Riddle) (st st' : State)
    (r : Riddle) (answerIndex rnd : nat) (rest : list AnswerClosure) :
  answerIndex <> correctAnswer r ->
  pendingAnswer st' = answerClosureOf r answerIndex st :: rest ->
  step riddles st' (AnswerTimeout rnd)
  = endGame (setShowRiddleModal false (setPendingAnswer (fun _ => rest) st')).
Proof.
  intros Hne Hq. unfold step, handle, answerTimeout. rewrite Hq.
  cbn [answerClosureOf cl_correct cl_usedRiddleIndices].
  unfold RiddleModal.handleAnswerSelect.
  apply Nat.eqb_neq in Hne. rewrite Hne.
  unfold handleRiddleAnswer.
  rewrite modalEffect_closed by reflexivity.
  apply timerEffect_id. simpl. discriminate.
Qed.

Lemma X5_wrong_answer_ends_game_witness :
  let st' := run twoSets [SelectAnswer 0; AnswerTimeout 0] riddleTime in
  gameState st' = GAME_OVER /\ score st' = 10.
Proof.
  cbv zeta. rewrite run_cons. cbn [run fold_left].
  rewrite (X5_wrong_answer_ends_game twoSets riddleTime
             (step twoSets riddleTime (SelectAnswer 0))
             (mkRiddle ["CAT"; "DOG"] ["A"; "B"] 1) 0 0 []);
    [vm_compute; auto | discriminate | vm_compute; reflexivity].
Defined.

(** ** Counters *)

Section Counters.
Variable riddles : list Riddle.

Lemma moveToNextWord_round cl b st :
  currentRound (moveToNextWord riddles cl b st) = currentRound st.
Proof. unfold moveToNextWord. repeat case_match; reflexivity. Qed.

Lemma handleKeyPress_round key st :
  currentRound (handleKeyPress riddles key st) = currentRound st.
Proof.
  unfold handleKeyPress. repeat case_match; simpl; auto.
  now rewrite moveToNextWord_round.
Qed.

(** The round number is the number of riddle sets used. *)
Definition roundOk (st : State) : Prop :=
  currentRound st = Z.of_nat (length (usedRiddleIndices st)).

Lemma step_roundOk st e :
  roundOk st -> roundOk (step riddles st e).
Proof.
  unfold roundOk, step. intros H.
  destruct (timerEffect_used (modalEffect riddles st (handle riddles e st)))
    as [-> _].
  destruct (modalEffect_used riddles st (handle riddles e st)) as [-> _].
  replace (currentRound
             (timerEffect (modalEffect riddles st (handle riddles e st))))
    with (currentRound (handle riddles e st))
    by (unfold timerEffect;
        destruct (modalEffect_cases riddles st (handle riddles e st))
          as [->|[_ ->]]; now case_match).
  destruct e; simpl.
  - now case_match.
  - now case_match.
  - rewrite handleKeyPress_round.
    now rewrite (proj1 (handleKeyPress_used riddles key st)).
  - destruct (handleAnswerSelect_cases riddles answerIndex st)
      as [->|(r & _ & _ & _ & _ & ->)]; exact H.
  - unfold answerTimeout. case_match; [exact H|].
    match goal with
    | |- context [handleRiddleAnswer _ ?u ?b ?r ?s] =>
        destruct (handleRiddleAnswer_cases riddles u b r s)
          as [(next & _ & _ & _ & ->)|[-> _]]
    end; simpl; [|exact H].
    rewrite length_app. simpl. lia.
  - unfold tick. now case_match.
  - unfold advanceTimeout. case_match; [exact H|].
    rewrite moveToNextWord_round.
    now rewrite (proj1 (moveToNextWord_used riddles _ _ _)).
  - exact H.
Qed.

Lemma length_dropLast (s : string) :
  String.length (JS.dropLast s) = (String.length s - 1)%nat.
Proof.
  destruct (String.eqb_spec s "") as [->|Hne]; [reflexivity|].
  destruct (string_snoc s Hne) as (t & c & ->).
  rewrite dropLast_snoc, length_append. simpl. lia.
Qed.

(** The wrong-key count is at most the length of the typed text. *)
Definition strikesOk (st : State) : Prop :=
  0 <= wrongKeyCount st <= Z.of_nat (String.length (typedText st)).

Lemma moveToNextWord_strikesOk cl b st :
  strikesOk st -> strikesOk (moveToNextWord riddles cl b st).
Proof.
  unfold strikesOk, moveToNextWord. repeat case_match; simpl; auto; lia.
Qed.

Lemma handle_strikesOk e st :
  strikesOk st -> strikesOk (handle riddles e st).
Proof.
  intros H. destruct e; simpl.
  - now case_match.
  - case_match; [|exact H]. unfold strikesOk. simpl. lia.
  - unfold handleKeyPress.
    repeat case_match; try exact H;
      try (apply moveToNextWord_strikesOk);
      unfold strikesOk in *; simpl;
      rewrite ?length_append, ?length_dropLast; try lia.
    all: match goal with
         | H1 : (_ =? "")%string || (?k =? "")%string = false |- _ =>
             apply orb_false_elim in H1 as [_ H1];
             apply String.eqb_neq in H1;
             assert (String.length k <> 0)%nat
               by (intros E0; now apply length_zero_empty in E0)
         end.
    all: lia.
  - destruct (handleAnswerSelect_cases riddles answerIndex st)
      as [->|(r & _ & _ & _ & _ & ->)]; exact H.
  - unfold answerTimeout. case_match; [exact H|].
    unfold handleRiddleAnswer, endGame, strikesOk in *.
    repeat case_match; simpl; lia.
  - unfold tick. now case_match.
  - unfold advanceTimeout. case_match; [exact H|].
    now apply moveToNextWord_strikesOk.
  - exact H.
Qed.

Lemma step_strikesOk st e : strikesOk st -> strikesOk (step riddles st e).
Proof.
  intros H. unfold step, timerEffect, endGame.
  pose proof (modalEffect_keeps riddles strikesOk st (handle riddles e st)
                ltac:(auto) (handle_strikesOk e st H)).
  now case_match.
Qed.

End Counters.

(** X6.  From the start of a game on, whatever happens next, the round
    number is the number of riddle sets used so far. *)
Theorem X6_round_counts_used_sets (riddles : list Riddle) (st : State)
    (rnd : nat) (evs : list Event) :
  gameState st = MENU ->
  let st' := run riddles (StartGame rnd :: evs) st in
  currentRound st' = Z.of_nat (length (usedRiddleIndices st')).
Proof.
  intros Hm st'. subst st'. rewrite run_cons.
  assert (roundOk (step riddles st (StartGame rnd))) as H0.
  { unfold roundOk, step, handle, timerEffect.
    rewrite bool_decide_eq_true_2 by exact Hm.
    rewrite modalEffect_closed by reflexivity. now case_match. }
  revert H0. generalize (step riddles st (StartGame rnd)).
  induction evs as [|e evs IH]; intros s Hs; [exact Hs|].
  rewrite run_cons. apply IH. now apply step_roundOk.
Qed.

Lemma X6_round_counts_used_sets_witness :
  let st' :=
    run twoSets
      (StartGame 0 :: map KeyPress (letters "CATDOG")
         ++ [SelectAnswer 1; AnswerTimeout 0])%list
      initialState in
  currentRound st' = 2 /\ length (usedRiddleIndices st') = 2%nat.
Proof.
  pose proof (X6_round_counts_used_sets twoSets initialState 0
                (map KeyPress (letters "CATDOG")
                   ++ [SelectAnswer 1; AnswerTimeout 0])%list)
    as H.
  specialize (H eq_refl). vm_compute in H. vm_compute. auto.
Defined.

(** X7.  In every state a session can reach the wrong-key count is
    between 0 and the length of the typed text: an empty typed text
    carries no wrong key. *)
Theorem X7_wrong_keys_within_typed_text (riddles : list Riddle)
    (evs : list Event) :
  let st := run riddles evs initialState in
  0 <= wrongKeyCount st <= Z.of_nat (String.length (typedText st)).
Proof.
  apply (run_invariant riddles (strikesOk)).
  - unfold strikesOk. simpl. lia.
  - intros st e. apply step_strikesOk.
Qed.

(** ** What the keyboard delivers *)

(** [key] is passed to [onKeyPress] by the keyboard component: by the
    key-down handler for some physical key, or by the click on one of
    its buttons. *)
Definition keyboardDelivers (key : string) : Prop :=
  (exists disabled k, Keyboard.handleKeyDown disabled k = Some key) \/
  (exists disabled b,
      In b Keyboard.buttons /\ Keyboard.handleKeyClick disabled b = Some key).

Lemma isLetter_single (key : string) :
  Keyboard.isLetter key = true -> exists c, key = String c "".
Proof.
  destruct key as [|c [|c' key]]; simpl; try discriminate. now exists c.
Qed.

Lemma specialKeys_not_letter (key : string) :
  Keyboard.includes Keyboard.specialKeys key = true ->
  Keyboard.isLetter key = false.
Proof.
  unfold Keyboard.includes. intros H.
  apply existsb_exists in H as (x & Hin & Hx).
  apply String.eqb_eq in Hx. subst x.
  unfold Keyboard.specialKeys in Hin. simpl in Hin.
  repeat (destruct Hin as [<-|Hin]; [reflexivity|]). contradiction.
Qed.

Lemma handleKeyDown_spec (disabled : bool) (key out : string) :
  Keyboard.handleKeyDown disabled key = Some out <->
  disabled = false /\
  ((key = "Backspace" /\ out = "BACKSPACE") \/
   (Keyboard.isLetter key = true /\ out = key)).
Proof.
  unfold Keyboard.handleKeyDown. split.
  - destruct disabled; [discriminate|].
    destruct (key =? "")%string; [discriminate|].
    destruct (String.eqb_spec key "Backspace") as [->|Hb].
    + intros [= <-]. auto.
    + destruct (Keyboard.includes Keyboard.specialKeys key); [discriminate|].
      destruct (Keyboard.isLetter key) eqn:El; [|discriminate].
      intros [= <-]. auto.
  - intros [-> [[-> ->]|[Hl ->]]]; [reflexivity|].
    destruct (isLetter_single key Hl) as [c ->].
    destruct (Keyboard.includes Keyboard.specialKeys (String c "")) eqn:Es.
    + apply specialKeys_not_letter in Es. congruence.
    + rewrite Hl.
      destruct (String.eqb_spec (String c "") "") as [E|_]; [discriminate E|].
      destruct (String.eqb_spec (String c "") "Backspace") as [E|_];
        [discriminate E|].
      reflexivity.
Qed.

(** X8.  The key-down handler forwards a key exactly when the keyboard
    is enabled and the key is Backspace, forwarded as "BACKSPACE", or a
    single letter A-Z or a-z, forwarded unchanged in its case: the
    list of special keys drops nothing that the letter test would
    let through. *)
Theorem X8_key_down_forwards_letters (disabled : bool) (key out : string) :
  Keyboard.handleKeyDown disabled key = Some out <->
  disabled = false /\
  ((key = "Backspace" /\ out = "BACKSPACE") \/
   (Keyboard.isLetter key = true /\ out = key)).
Proof. apply handleKeyDown_spec. Qed.

Lemma button_cases (b : string) :
  In b Keyboard.buttons ->
  b = "BACKSPACE" \/ b = " " \/
  (Keyboard.isLetter b = true /\ String.length b = 1%nat).
Proof.
  unfold Keyboard.buttons, Keyboard.keyboardLayout. simpl. intros H.
  repeat (destruct H as [<-|H]; [auto|]). contradiction.
Qed.

Lemma keyboardDelivers_cases (key : string) :
  keyboardDelivers key ->
  key = "BACKSPACE" \/ key = " " \/ Keyboard.isLetter key = true.
Proof.
  intros [(d & k & H)|(d & b & Hin & H)].
  - apply handleKeyDown_spec in H as (_ & [[_ ->]|[Hl ->]]); auto.
  - unfold Keyboard.handleKeyClick in H. destruct d; [discriminate|].
    injection H as <-. destruct (button_cases b Hin) as [?|[?|[? _]]]; auto.
Qed.

(** ** The typed text and the word *)

Section TypedText.
Variable riddles : list Riddle.

(** The typed text is no longer than the word on show. *)
Definition typedFits (st : State) : Prop :=
  forall w, currentWord riddles st = Some w ->
            (String.length (typedText st) <= String.length w)%nat.

(** A key as the keyboard delivers it: "BACKSPACE" or one character. *)
Definition oneKey (key : string) : Prop :=
  key = "BACKSPACE" \/ String.length key = 1%nat.

Lemma keyboardDelivers_oneKey key : keyboardDelivers key -> oneKey key.
Proof.
  intros H. destruct (keyboardDelivers_cases key H) as [->|[->|Hl]].
  - now left.
  - now right.
  - right. destruct (isLetter_single key Hl) as [c ->]. reflexivity.
Qed.

Lemma typedFits_same_word st st' :
  currentRiddleIndex st' = currentRiddleIndex st ->
  currentWordIndex st' = currentWordIndex st ->
  (forall w, currentWord riddles st = Some w ->
             (String.length (typedText st') <= String.length w)%nat) ->
  typedFits st'.
Proof.
  intros Hr Hi H w. unfold currentWord, currentRiddle in *.
  rewrite Hr, Hi. apply H.
Qed.

Lemma typedFits_empty st : typedText st = "" -> typedFits st.
Proof. intros E w _. rewrite E. simpl. lia. Qed.

Lemma moveToNextWord_typedFits cl b st :
  typedFits st -> typedFits (moveToNextWord riddles cl b st).
Proof.
  intros H. unfold moveToNextWord.
  destruct (riddles !! cl_riddleIndex cl) as [r|]; [|exact H].
  destruct (cl_wordIndex cl + 1 <? length (words r))%nat.
  - now apply typedFits_empty.
  - apply (typedFits_same_word st); destruct b; auto.
Qed.

Lemma handleKeyPress_typedFits key st :
  oneKey key -> typedFits st -> typedFits (handleKeyPress riddles key st).
Proof.
  intros Hk H. unfold handleKeyPress.
  destruct (negb (bool_decide (gameState st = PLAYING))); [exact H|].
  destruct (currentWord riddles st) as [w|] eqn:Hw; [|exact H].
  destruct ((w =? "")%string || (key =? "")%string); [exact H|].
  destruct (String.eqb_spec key "BACKSPACE") as [->|Hb].
  - destruct (0 <? String.length (typedText st))%nat; [|exact H].
    assert (typedFits (setTypedText JS.dropLast st)) as H'.
    { apply (typedFits_same_word st); try reflexivity.
      intros w' Hw'. simpl. rewrite length_dropLast.
      specialize (H w' Hw'). lia. }
    destruct (0 <? wrongKeyCount st); [|exact H'].
    apply (typedFits_same_word (setTypedText JS.dropLast st));
      try reflexivity.
    exact H'.
  - destruct Hk as [->|Hk]; [congruence|].
    destruct (JS.charAt w (String.length (typedText st))) as [t|] eqn:Hc;
      [|exact H].
    apply charAt_Some in Hc as (Hlt & _ & _).
    assert (forall st',
               currentRiddleIndex st' = currentRiddleIndex st ->
               currentWordIndex st' = currentWordIndex st ->
               typedText st' = typedText st ++ key ->
               typedFits st') as Hnew.
    { intros st' Hr Hi Ht. apply (typedFits_same_word st); auto.
      intros w' Hw'. rewrite Ht, length_append, Hk.
      assert (w' = w) as -> by congruence. lia. }
    destruct (key =? t)%string.
    + cbv zeta. case_match; [apply moveToNextWord_typedFits|];
        now apply Hnew.
    + cbv zeta. case_match; now apply Hnew.
Qed.

Lemma handle_typedFits e st :
  (forall key, e = KeyPress key -> oneKey key) ->
  typedFits st -> typedFits (handle riddles e st).
Proof.
  intros Hk H. destruct e; simpl.
  - now case_match.
  - case_match; [|exact H]. unfold typedFits. simpl. intros; lia.
  - apply handleKeyPress_typedFits; auto.
  - destruct (handleAnswerSelect_cases riddles answerIndex st)
      as [->|(r & _ & _ & _ & _ & ->)]; exact H.
  - unfold answerTimeout. case_match; [exact H|].
    unfold handleRiddleAnswer, endGame.
    repeat case_match; try exact H; unfold typedFits; simpl; intros; lia.
  - unfold tick. now case_match.
  - unfold advanceTimeout. case_match; [exact H|].
    now apply moveToNextWord_typedFits.
  - exact H.
Qed.

Lemma step_typedFits e st :
  (forall key, e = KeyPress key -> oneKey key) ->
  typedFits st -> typedFits (step riddles st e).
Proof.
  intros Hk H. unfold step, timerEffect, endGame.
  pose proof (modalEffect_keeps riddles typedFits st (handle riddles e st)
                ltac:(auto) (handle_typedFits e st Hk H)).
  now case_match.
Qed.

End TypedText.

(** X9.  When every key press of a run carries a key the keyboard
    delivers, the typed text is never longer than the word on show,
    and it is empty when there is no word to show. *)
Theorem X9_typed_text_fits_word (riddles : list Riddle) (evs : list Event) :
  Forall (fun e => forall key, e = KeyPress key -> keyboardDelivers key) evs ->
  let st := run riddles evs initialState in
  match currentWord riddles st with
  | Some w => (String.length (typedText st) <= String.length w)%nat
  | None => typedText st = ""
  end.
Proof.
  intros Hevs st.
  assert (typedFits riddles st) as Hfit.
  { subst st. induction evs as [|e evs IH] using rev_ind.
    - intros w _. simpl. lia.
    - apply Forall_app in Hevs as [H1 H2]. rewrite run_snoc.
      apply step_typedFits; [|now apply IH].
      intros key ->. apply keyboardDelivers_oneKey.
      inversion H2 as [|? ? He _]. now apply He. }
  destruct (currentWord riddles st) as [w|] eqn:Ew; [now apply Hfit|].
  destruct (String.eqb_spec (typedText st) "") as [E|Hne]; [exact E|].
  assert (reachable riddles st) as Hr by now exists evs.
  destruct (reachable_Inv riddles st Hr) as [_ _ _ Hty].
  destruct (Hty Hne) as (w & Hw & _). congruence.
Qed.

Lemma X9_typed_text_fits_word_witness :
  let st :=
    run oneSet [StartGame 0; KeyPress "X"; KeyPress "A"; KeyPress " "]
      initialState in
  (String.length (typedText st) <= 3)%nat.
Proof.
  pose proof (X9_typed_text_fits_word oneSet
    [StartGame 0; KeyPress "X"; KeyPress "A"; KeyPress " "]) as H.
  cbv zeta in H.
  replace (currentWord oneSet
             (run oneSet [StartGame 0; KeyPress "X"; KeyPress "A"; KeyPress " "]
                initialState)) with (Some "CAT") in H
    by (vm_compute; reflexivity).
  apply H. clear H.
  apply Forall_cons; [intros key; discriminate|].
  apply Forall_cons;
    [intros key [= <-]; left; exists false, "X"; reflexivity|].
  apply Forall_cons;
    [intros key [= <-]; left; exists false, "A"; reflexivity|].
  apply Forall_cons; [|apply Forall_nil].
  intros key [= <-]. right. exists false, " ". split; [|reflexivity].
  vm_compute. tauto.
Defined.

(** ** The queue of pending advances *)

Section Pending.
Variable riddles : list Riddle.

Lemma moveToNextWord_pending cl b st :
  pendingAdvance (moveToNextWord riddles cl b st) = pendingAdvance st.
Proof. unfold moveToNextWord. repeat case_match; reflexivity. Qed.

Lemma timerEffect_pending st :
  pendingAdvance (timerEffect st) = pendingAdvance st.
Proof. unfold timerEffect. now case_match. Qed.

Lemma modalEffect_pending prev st :
  pendingAdvance (modalEffect riddles prev st) = pendingAdvance st /\
  wrongKeyCount (modalEffect riddles prev st) = wrongKeyCount st.
Proof. destruct (modalEffect_cases riddles prev st) as [->|[_ ->]]; auto. Qed.

Lemma handleKeyPress_pending key st :
  pendingAdvance (handleKeyPress riddles key st) = pendingAdvance st \/
  (wrongKeyCount (handleKeyPress riddles key st) = wrongKeyCount st + 1 /\
   GAME_CONFIG.MAX_WRONG_KEYS_PER_WORD <= wrongKeyCount st + 1 /\
   pendingAdvance (handleKeyPress riddles key st)
   = (pendingAdvance st ++ [closureOf st])%list).
Proof.
  unfold handleKeyPress.
  repeat case_match; simpl; auto.
  - left. now rewrite moveToNextWord_pending.
  - right. repeat split; auto. now apply Z.leb_le.
Qed.

End Pending.

(** X10.  A pending word advance is removed only by its own timeout,
    oldest first.  A key press keeps the queue or, when it is a wrong
    key that brings the count to the maximum or above, appends one
    advance for the word on show; ticks, riddle answers, the end of
    the game, the return to the menu and the start of a new game leave
    the queue as it is. *)
Theorem X10_pending_advance_never_cancelled (riddles : list Riddle)
    (st : State) (e : Event) :
  let st' := step riddles st e in
  match e with
  | KeyPress key =>
      pendingAdvance st' = pendingAdvance st \/
      (wrongKeyCount st' = wrongKeyCount st + 1 /\
       GAME_CONFIG.MAX_WRONG_KEYS_PER_WORD <= wrongKeyCount st' /\
       pendingAdvance st' = (pendingAdvance st ++ [closureOf st])%list)
  | AdvanceTimeout => pendingAdvance st' = tail (pendingAdvance st)
  | _ => pendingAdvance st' = pendingAdvance st
  end.
Proof.
  intros st'. subst st'. unfold step.
  destruct (modalEffect_pending riddles st (handle riddles e st)) as [Ep Ew].
  destruct e; rewrite ?timerEffect_pending, Ep; simpl.
  - now case_match.
  - now case_match.
  - destruct (handleKeyPress_pending riddles key st) as [H|(Hw & Hm & H)];
      [now left|right].
    unfold timerEffect, endGame. simpl in Ew.
    case_match; simpl; rewrite Ew, Hw; auto.
  - destruct (handleAnswerSelect_cases riddles answerIndex st)
      as [->|(r & _ & _ & _ & _ & ->)]; reflexivity.
  - unfold answerTimeout. case_match; [reflexivity|].
    unfold handleRiddleAnswer, endGame. repeat case_match; reflexivity.
  - unfold tick. now case_match.
  - unfold advanceTimeout.
    destruct (pendingAdvance st) as [|cl rest] eqn:E; [now rewrite E|].
    now rewrite moveToNextWord_pending.
  - reflexivity.
Qed.

(** ** Which words the keyboard can complete *)

(** X11.  A key delivered by the keyboard earns the points of a
    completed word only if it is the last character of the word on
    show, so that character is a letter, or the space of the SPACE
    button: a word that ends in any other character is never
    completed. *)
Theorem X11_keyboard_completes_letter_words (riddles : list Riddle)
    (st : State) (key : string) :
  0 <= score st ->
  keyboardDelivers key ->
  score (step riddles st (KeyPress key))
  = score st + GAME_CONFIG.POINTS_PER_WORD ->
  exists w,
    currentWord riddles st = Some w /\
    JS.charAt w (String.length w - 1) = Some key /\
    (Keyboard.isLetter key = true \/ key = " ").
Proof.
  intros Hs Hk Hscore. unfold step, handle in Hscore.
  rewrite timerEffect_score, modalEffect_score in Hscore.
  destruct (handleKeyPress_award riddles key st Hs Hscore)
    as (_ & w & Hw & Hc & Hl).
  exists w. split; [exact Hw|]. split.
  - replace (String.length w - 1)%nat with (String.length (typedText st))
      by lia.
    exact Hc.
  - destruct (keyboardDelivers_cases key Hk) as [->|[->|Hlet]]; auto.
    apply charAt_Some in Hc as (_ & Hlen & _). discriminate Hlen.
Qed.

Lemma X11_keyboard_completes_letter_words_witness :
  exists w,
    currentWord oneSet (run oneSet [KeyPress "C"; KeyPress "A"] playingCat)
    = Some w /\
    JS.charAt w (String.length w - 1) = Some "T" /\
    (Keyboard.isLetter "T" = true \/ "T" = " ").
Proof.
  apply (X11_keyboard_completes_letter_words oneSet
           (run oneSet [KeyPress "C"; KeyPress "A"] playingCat) "T").
  - vm_compute. discriminate.
  - left. exists false, "T". reflexivity.
  - vm_compute. reflexivity.
Defined.

(** * The riddle modal ([components/RiddleModal.jsx]) *)

Module RiddleModalState.

(** The component state, and the results handed to [onAnswer] by the
    two-second timeouts set so far. *)
Record Modal := {
  selectedAnswer : option nat;
  showResult : bool;
  isCorrect : bool;
  answered : list bool
}.

(** The effect on [isOpen] and [riddle]: the modal opens. *)
Definition opened (m : Modal) : Modal :=
  {| selectedAnswer := None; showResult := false; isCorrect := false;
     answered := answered m |}.

(** [handleAnswerSelect(answerIndex)] *)
Definition handleAnswerSelect (riddle : Riddle) (answerIndex : nat)
    (m : Modal) : Modal :=
  if showResult m then m
  else
    let correct := RiddleModal.handleAnswerSelect riddle answerIndex in
    {| selectedAnswer := Some answerIndex;
       showResult := true;
       isCorrect := correct;
       answered := (answered m ++ [correct])%list |}.

Definition isDigit (c : ascii) : bool :=
  ((48 <=? nat_of_ascii c) && (nat_of_ascii c <=? 57))%nat.

(** The number written by the leading decimal digits of [s], given the
    number [acc] read so far. *)
Fixpoint digits (acc : nat) (s : string) : nat :=
  match s with
  | String c s' =>
      if isDigit c then digits (10 * acc + (nat_of_ascii c - 48)) s'
      else acc
  | EmptyString => acc
  end.

(** [parseInt(key)] for a key that starts with one of the digits 1 to
    9, as every key that passes the range test of [handleKeyPress]
    does. *)
Definition parseInt (key : string) : nat := digits 0 key.

(** [handleKeyPress(event)], with [key = event.key]; the comparisons
    with ['1'] and ['4'] are comparisons of strings. *)
Definition handleKeyPress (isOpen : bool) (riddle : Riddle) (key : string)
    (m : Modal) : Modal :=
  if negb isOpen || showResult m then m
  else if String.leb "1" key && String.leb key "4" then
    let answerIndex := (parseInt key - 1)%nat in
    if (answerIndex <? length (options riddle))%nat
    then handleAnswerSelect riddle answerIndex m
    else m
  else m.

(** What the player does while the modal is open: a click on the
    button of an option, or a key. *)
Inductive Action :=
| Click (index : nat)
| Key (key : string).

(** The option buttons are rendered from [riddle.options]. *)
Definition act (riddle : Riddle) (m : Modal) (a : Action) : Modal :=
  match a with
  | Click index =>
      if (index <? length (options riddle))%nat
      then handleAnswerSelect riddle index m
      else m
  | Key key => handleKeyPress true riddle key m
  end.

Definition acts (riddle : Riddle) (l : list Action) (m : Modal) : Modal :=
  fold_left (act riddle) l m.

End RiddleModalState.

Section ModalProperties.
Import RiddleModalState.
Variable riddle : Riddle.

(** The modal shows a result for a selected option of the riddle and
    has handed over exactly that result. *)
Definition resultShown (m0 m : Modal) : Prop :=
  exists index,
    (index < length (options riddle))%nat /\
    selectedAnswer m = Some index /\
    showResult m = true /\
    isCorrect m = bool_decide (index = correctAnswer riddle) /\
    answered m = (answered m0 ++ [isCorrect m])%list.

Lemma handleAnswerSelect_shown m :
  showResult m = true -> forall i, handleAnswerSelect riddle i m = m.
Proof. intros H i. unfold handleAnswerSelect. now rewrite H. Qed.

Lemma act_shown m a : showResult m = true -> act riddle m a = m.
Proof.
  intros H. destruct a; simpl.
  - case_match; [now apply handleAnswerSelect_shown | reflexivity].
  - unfold handleKeyPress. now rewrite H.
Qed.

Lemma acts_shown l m : showResult m = true -> acts riddle l m = m.
Proof.
  intros H. induction l as [|a l IH]; [reflexivity|].
  unfold acts in *. simpl. now rewrite act_shown.
Qed.

Lemma handleAnswerSelect_fresh m i :
  showResult m = false -> (i < length (options riddle))%nat ->
  resultShown m (handleAnswerSelect riddle i m).
Proof.
  intros H Hi. unfold handleAnswerSelect. rewrite H. exists i.
  simpl. repeat split; auto.
  unfold RiddleModal.handleAnswerSelect.
  destruct (Nat.eqb_spec i (correctAnswer riddle)) as [E|E].
  - now rewrite bool_decide_eq_true_2.
  - now rewrite bool_decide_eq_false_2.
Qed.

Lemma act_fresh m a :
  showResult m = false ->
  act riddle m a = m \/ resultShown m (act riddle m a).
Proof.
  intros H. destruct a; simpl.
  - destruct (Nat.ltb_spec index (length (options riddle))); [|now left].
    right. now apply handleAnswerSelect_fresh.
  - unfold handleKeyPress. rewrite H. simpl.
    destruct (String.leb "1" key && String.leb key "4"); [|now left].
    destruct (Nat.ltb_spec (parseInt key - 1) (length (options riddle)));
      [|now left].
    right. now apply handleAnswerSelect_fresh.
Qed.

Lemma acts_fresh l :
  forall m, showResult m = false ->
            acts riddle l m = m \/ resultShown m (acts riddle l m).
Proof.
  induction l as [|a l IH]; intros m H; [now left|].
  unfold acts in *. simpl.
  destruct (act_fresh m a H) as [->|Hs]; [now apply IH|].
  right. pose proof Hs as (i & _ & _ & Hshow & _).
  fold (acts riddle l (act riddle m a)). now rewrite acts_shown.
Qed.

End ModalProperties.

(** X12.  However many clicks and keys follow the opening of the
    modal, it hands at most one result to [onAnswer]: either nothing
    was selected and the modal is as it opened, or the first accepted
    selection is shown, it is an option of the riddle, the result
    handed over is whether it is the correct answer, and everything
    after it was ignored. *)
Theorem X12_one_answer_per_riddle (riddle : Riddle)
    (l : list RiddleModalState.Action) (m0 : RiddleModalState.Modal) :
  let m := RiddleModalState.acts riddle l (RiddleModalState.opened m0) in
  m = RiddleModalState.opened m0 \/
  exists index,
    (index < length (options riddle))%nat /\
    RiddleModalState.selectedAnswer m = Some index /\
    RiddleModalState.showResult m = true /\
    RiddleModalState.isCorrect m = bool_decide (index = correctAnswer riddle) /\
    RiddleModalState.answered m
    = (RiddleModalState.answered m0 ++ [RiddleModalState.isCorrect m])%list.
Proof.
  intros m. subst m.
  destruct (acts_fresh riddle l (RiddleModalState.opened m0) eq_refl)
    as [H|H]; [now left | right; exact H].
Qed.

(** X13.  While the modal is open and shows no result, the keys "1" to
    "4" select the options 0 to 3 when the riddle has that option, and
    a key that is empty or whose first character is not one of the
    digits 1 to 4 is ignored, as is every key once a result is shown
    or while the modal is closed. *)
Theorem X13_answer_keys (riddle : Riddle) (m : RiddleModalState.Modal) :
  (forall (d : nat) (key : string),
     In (d, key) [(0, "1"); (1, "2"); (2, "3"); (3, "4")]%nat ->
     RiddleModalState.showResult m = false ->
     RiddleModalState.handleKeyPress true riddle key m
     = if (d <? length (options riddle))%nat
       then RiddleModalState.handleAnswerSelect riddle d m
       else m) /\
  (forall key,
     match key with
     | String c _ => (nat_of_ascii c < 49 \/ 52 < nat_of_ascii c)%nat
     | EmptyString => True
     end ->
     RiddleModalState.handleKeyPress true riddle key m = m) /\
  (forall isOpen key,
     isOpen = false \/ RiddleModalState.showResult m = true ->
     RiddleModalState.handleKeyPress isOpen riddle key m = m).
Proof.
  split; [|split].
  - intros d key Hin Hs. unfold RiddleModalState.handleKeyPress.
    rewrite Hs. simpl in Hin.
    destruct Hin as [[= <- <-]|[[= <- <-]|[[= <- <-]|[[= <- <-]|[]]]]];
      reflexivity.
  - intros key Hk. unfold RiddleModalState.handleKeyPress.
    destruct (RiddleModalState.showResult m); [reflexivity|]. simpl.
    destruct key as [|c key]; [reflexivity|].
    assert (String.leb "1" (String c key) && String.leb (String c key) "4"
            = false) as ->; [|reflexivity].
    destruct c as [[] [] [] [] [] [] [] []]; vm_compute in Hk;
      try lia; reflexivity.
  - intros isOpen key [->|Hs]; unfold RiddleModalState.handleKeyPress;
      [reflexivity|]. rewrite Hs. now rewrite orb_true_r.
Qed.

Lemma X13_answer_keys_witness :
  let riddle := mkRiddle ["CAT"; "DOG"] ["A"; "B"] 1 in
  let m0 :=
    RiddleModalState.opened
      {| RiddleModalState.selectedAnswer := None;
         RiddleModalState.showResult := false;
         RiddleModalState.isCorrect := false;
         RiddleModalState.answered := [] |} in
  RiddleModalState.answered
    (RiddleModalState.handleKeyPress true riddle "2" m0) = [true] /\
  RiddleModalState.handleKeyPress true riddle "3" m0 = m0 /\
  RiddleModalState.handleKeyPress true riddle "Enter" m0 = m0.
Proof.
  intros riddle m0.
  destruct (X13_answer_keys riddle m0) as (H1 & H2 & _).
  split; [|split].
  - rewrite (H1 1%nat "2"); [reflexivity | simpl; auto | reflexivity].
  - rewrite (H1 2%nat "3"); [reflexivity | simpl; auto | reflexivity].
  - apply H2. vm_compute. lia.
Defined.

(** * The word display ([components/WordDisplay.jsx]) *)

Module WordDisplay.

(** The five styles [renderWord] gives a character: typed and equal to
    the character of the word, typed and different, the next one to
    type, not yet typed, and a character of the next-word preview. *)
Inductive CharClass := Correct | Incorrect | Cursor | Pending | Preview.

#[global] Instance CharClass_eq_dec : EqDecision CharClass.
Proof. solve_decision. Defined.

(** The style of the character [char] at [index]. *)
Definition charClass (word typed : string) (isCurrentWord : bool)
    (index : nat) (char : string) : CharClass :=
  if isCurrentWord then
    if (index <? String.length typed)%nat then
      match JS.charAt typed index with
      | Some typedChar =>
          if (typedChar =? char)%string then Correct else Incorrect
      | None => Incorrect
      end
    else if (index =? String.length typed)%nat
            && (String.length typed <? String.length word)%nat
    then Cursor
    else Pending
  else Preview.

(** The text of the span: [index < typed.length ? typed[index] : char]. *)
Definition shownChar (typed : string) (index : nat) (char : string) : string :=
  if (index <? String.length typed)%nat
  then default "" (JS.charAt typed index)
  else char.

(** [renderWord(word, typed, isCurrentWord)]; [None] is [null]. *)
Definition renderWord (word typed : string) (isCurrentWord : bool)
    : option (list (CharClass * string)) :=
  if (word =? "")%string then None
  else
    Some (imap
            (fun index char =>
               (charClass word typed isCurrentWord index char,
                shownChar typed index char))
            (letters word)).

(** The text on the screen. *)
Definition shownText (cells : list (CharClass * string)) : string :=
  fold_right String.append "" (map snd cells).

(** The number of cells of a style. *)
Definition countClass (c : CharClass) (cells : list (CharClass * string)) : nat :=
  length (filter (fun cell => fst cell = c) cells).

End WordDisplay.

Section WordDisplayProperties.
Import WordDisplay.

(** The cells of the current word, character by character. *)
Fixpoint cells (word typed : string) : list (CharClass * string) :=
  match word with
  | EmptyString => []
  | String c word' =>
      match typed with
      | String t typed' =>
          ((if Ascii.eqb t c then Correct else Incorrect), String t "")
            :: cells word' typed'
      | EmptyString =>
          (Cursor, String c "")
            :: map (fun char => (Pending, char)) (letters word')
      end
  end.

Lemma imap_cells_shift (c t : ascii) (word typed : string) (l : list string) :
  imap ((fun index char =>
           (charClass (String c word) (String t typed) true index char,
            shownChar (String t typed) index char)) ∘ S) l
  = imap (fun index char =>
            (charClass word typed true index char,
             shownChar typed index char)) l.
Proof. apply imap_ext. intros i x _. reflexivity. Qed.

Lemma imap_pending (g : nat -> string -> CharClass * string)
    (l : list string) :
  (forall i x, g i x = (Pending, x)) ->
  imap g l = map (fun char => (Pending, char)) l.
Proof.
  revert g. induction l as [|x l IH]; intros g Hg; [reflexivity|].
  rewrite imap_cons, Hg. simpl. f_equal. apply IH.
  intros i y. apply Hg.
Qed.

Lemma imap_cells (word : string) :
  forall typed,
    imap (fun index char =>
            (charClass word typed true index char,
             shownChar typed index char)) (letters word)
    = cells word typed.
Proof.
  induction word as [|c word IH]; intros typed; [reflexivity|].
  cbn [letters]. rewrite imap_cons. destruct typed as [|t typed].
  - cbn [cells]. f_equal; try reflexivity.
    apply imap_pending. intros i x. reflexivity.
  - cbn [cells]. rewrite imap_cells_shift, IH. f_equal.
    unfold charClass, shownChar, JS.charAt.
    cbn [String.length Nat.ltb Nat.leb String.get default].
    destruct (Ascii.eqb_spec t c) as [->|Hne].
    + now rewrite String.eqb_refl.
    + destruct (String.eqb_spec (String t "") (String c "")) as [E|_];
        [congruence | reflexivity].
Qed.

Lemma renderWord_cells (word typed : string) :
  word <> "" -> renderWord word typed true = Some (cells word typed).
Proof.
  intros H. unfold renderWord. apply String.eqb_neq in H. rewrite H.
  now rewrite imap_cells.
Qed.

Lemma length_letters (s : string) : length (letters s) = String.length s.
Proof. induction s; simpl; congruence. Qed.

Lemma length_cells (word : string) :
  forall typed, length (cells word typed) = String.length word.
Proof.
  induction word as [|c word IH]; intros [|t typed]; simpl; auto.
  now rewrite length_map, length_letters.
Qed.

Lemma shownText_pending (s : string) :
  shownText (map (fun char => (Pending, char)) (letters s)) = s.
Proof. unfold shownText. induction s; simpl; congruence. Qed.

(** The word from position [n] on. *)
Definition dropFirst (n : nat) (s : string) : string :=
  String.substring n (String.length s - n) s.

Lemma shownText_cells (word : string) :
  forall typed,
    (String.length typed <= String.length word)%nat ->
    shownText (cells word typed)
    = typed ++ dropFirst (String.length typed) word.
Proof.
  unfold dropFirst.
  induction word as [|c word IH]; intros [|t typed] H; simpl in *;
    try reflexivity; try lia.
  - change (shownText ((Cursor, String c "")
                         :: map (fun char => (Pending, char)) (letters word)))
      with (String c (shownText
                        (map (fun char => (Pending, char)) (letters word)))).
    rewrite shownText_pending. f_equal.
    clear. induction word; simpl; congruence.
  - change (shownText (?x :: cells word typed))
      with (snd x ++ shownText (cells word typed)).
    simpl. f_equal. apply IH. lia.
Qed.

Lemma cells_all_correct (word : string) :
  forall typed,
    (String.length typed <= String.length word)%nat ->
    (Forall (fun cell => fst cell = Correct) (cells word typed)
     <-> typed = word).
Proof.
  induction word as [|c word IH]; intros [|t typed] H; simpl in *;
    try lia.
  - split; auto.
  - split; [|discriminate]. intros Hf. inversion Hf as [|? ? Hc _].
    discriminate Hc.
  - split.
    + intros Hf. inversion Hf as [|? ? Hc Hrest]. subst.
      simpl in Hc. destruct (Ascii.eqb_spec t c) as [->|]; [|discriminate].
      f_equal. apply IH; [lia | exact Hrest].
    + intros [= -> ->]. constructor.
      * simpl. now rewrite Ascii.eqb_refl.
      * apply IH; [lia | reflexivity].
Qed.

Lemma countClass_cons c cell l :
  countClass c (cell :: l)
  = ((if bool_decide (fst cell = c) then 1 else 0) + countClass c l)%nat.
Proof.
  unfold countClass. rewrite filter_cons.
  destruct (decide (fst cell = c)) as [E|E].
  - now rewrite bool_decide_eq_true_2.
  - now rewrite bool_decide_eq_false_2.
Qed.

Lemma countClass_pending c (l : list string) :
  c <> Pending -> countClass c (map (fun char => (Pending, char)) l) = 0%nat.
Proof.
  intros H. induction l as [|x l IH]; [reflexivity|].
  cbn [map]. rewrite countClass_cons, IH. simpl.
  now rewrite bool_decide_eq_false_2 by congruence.
Qed.

Lemma cells_cursor (word : string) :
  forall typed,
    countClass Cursor (cells word typed)
    = if (String.length typed <? String.length word)%nat then 1%nat else 0%nat.
Proof.
  induction word as [|c word IH]; intros [|t typed]; try reflexivity.
  - cbn [cells]. rewrite countClass_cons, countClass_pending by discriminate.
    reflexivity.
  - cbn [cells]. rewrite countClass_cons, IH.
    simpl. now destruct (Ascii.eqb t c).
Qed.

End WordDisplayProperties.

(** X14.  For a typed text no longer than the word, the display has
    one cell per character of the word and its text is the typed text
    followed by the part of the word not typed yet: a wrong character
    is shown in place of the expected one. *)
Theorem X14_display_shows_typed_text (word typed : string)
    (cells : list (WordDisplay.CharClass * string)) :
  (String.length typed <= String.length word)%nat ->
  WordDisplay.renderWord word typed true = Some cells ->
  length cells = String.length word /\
  WordDisplay.shownText cells
  = typed ++ dropFirst (String.length typed) word.
Proof.
  intros Hlen Hr.
  assert (word <> "") as Hne
    by (intros ->; unfold WordDisplay.renderWord in Hr; discriminate).
  rewrite renderWord_cells in Hr by exact Hne. injection Hr as <-.
  split; [apply length_cells | now apply shownText_cells].
Qed.

Lemma X14_display_shows_typed_text_witness :
  exists cells,
    WordDisplay.renderWord "CAT" "XA" true = Some cells /\
    length cells = 3%nat /\ WordDisplay.shownText cells = "XAT".
Proof.
  eexists. split; [reflexivity|].
  apply (X14_display_shows_typed_text "CAT" "XA"); [simpl; lia | reflexivity].
Defined.

(** X15.  For a typed text no longer than the word, every cell of the
    display is styled as correct exactly when the typed text equals
    the word, the test [App] uses for the completion banner; and
    exactly one cell is the cursor while the typed text is shorter
    than the word, none once it has the word's length. *)
Theorem X15_display_styles (word typed : string)
    (cells : list (WordDisplay.CharClass * string)) :
  (String.length typed <= String.length word)%nat ->
  WordDisplay.renderWord word typed true = Some cells ->
  (Forall (fun cell => fst cell = WordDisplay.Correct) cells
   <-> typed = word) /\
  WordDisplay.countClass WordDisplay.Cursor cells
  = if (String.length typed <? String.length word)%nat then 1%nat else 0%nat.
Proof.
  intros Hlen Hr.
  assert (word <> "") as Hne
    by (intros ->; unfold WordDisplay.renderWord in Hr; discriminate).
  rewrite renderWord_cells in Hr by exact Hne. injection Hr as <-.
  split; [now apply cells_all_correct | apply cells_cursor].
Qed.

Lemma X15_display_styles_witness :
  exists cells,
    WordDisplay.renderWord "CAT" "XAT" true = Some cells /\
    ~ Forall (fun cell => fst cell = WordDisplay.Correct) cells /\
    WordDisplay.countClass WordDisplay.Cursor cells = 0%nat.
Proof.
  eexists. split; [reflexivity|].
  destruct (X15_display_styles "CAT" "XAT" _ ltac:(simpl; lia) eq_refl)
    as [H1 H2].
  split; [|exact H2]. intros H. apply H1 in H. discriminate H.
Defined.

(** ** Wrong characters on the display and the wrong-key count *)

Section RedCells.
Import WordDisplay.

(** The number of characters the display styles as incorrect. *)
Definition reds (word typed : string) : nat :=
  countClass Incorrect (cells word typed).

Lemma reds_empty (word : string) : reds word "" = 0%nat.
Proof.
  unfold reds. destruct word as [|c word]; [reflexivity|].
  cbn [cells]. rewrite countClass_cons, countClass_pending by discriminate.
  reflexivity.
Qed.

Lemma reds_cons (c t : ascii) (word typed : string) :
  reds (String c word) (String t typed)
  = ((if Ascii.eqb t c then 0 else 1) + reds word typed)%nat.
Proof.
  unfold reds. cbn [cells]. rewrite countClass_cons. simpl.
  now destruct (Ascii.eqb t c).
Qed.

(** One more typed character adds at most one incorrect cell. *)
Lemma reds_snoc_le (word : string) :
  forall typed k,
    (reds word (typed ++ String k "") <= reds word typed + 1)%nat.
Proof.
  induction word as [|c word IH]; intros typed k.
  - unfold reds, countClass. cbn. lia.
  - destruct typed as [|t typed]; cbn [String.append].
    + rewrite reds_cons, !reds_empty. destruct (Ascii.eqb k c); lia.
    + rewrite !reds_cons. specialize (IH typed k). lia.
Qed.

(** A typed character at a position of the word adds an incorrect
    cell exactly when it differs from the character of the word. *)
Lemma reds_snoc (word : string) :
  forall typed k t,
    JS.charAt word (String.length typed) = Some t ->
    reds word (typed ++ String k "")
    = (reds word typed + if (String k "" =? t)%string then 0 else 1)%nat.
Proof.
  unfold JS.charAt.
  induction word as [|c word IH]; intros typed k t; [discriminate|].
  destruct typed as [|ty typed]; cbn [String.append String.length String.get].
  - intros [= <-]. rewrite reds_cons, !reds_empty.
    destruct (Ascii.eqb_spec k c) as [->|Hne].
    + now rewrite String.eqb_refl.
    + destruct (String.eqb_spec (String k "") (String c "")) as [E|_];
        [congruence | reflexivity].
  - intros H. rewrite !reds_cons, (IH typed k t H). lia.
Qed.

Variable riddles : list Riddle.

(** The wrong-key count is at most the number of incorrect cells of
    the word on show. *)
Definition redsOk (st : State) : Prop :=
  forall w, currentWord riddles st = Some w ->
            wrongKeyCount st <= Z.of_nat (reds w (typedText st)).

Lemma redsOk_same_word st st' :
  currentRiddleIndex st' = currentRiddleIndex st ->
  currentWordIndex st' = currentWordIndex st ->
  (forall w, currentWord riddles st = Some w ->
             wrongKeyCount st' <= Z.of_nat (reds w (typedText st'))) ->
  redsOk st'.
Proof.
  intros Hr Hi H w. unfold currentWord, currentRiddle in *.
  rewrite Hr, Hi. apply H.
Qed.

Lemma redsOk_fresh st :
  typedText st = "" -> wrongKeyCount st = 0 -> redsOk st.
Proof. intros E1 E2 w _. rewrite E1, E2, reds_empty. simpl. lia. Qed.

Lemma moveToNextWord_redsOk cl b st :
  redsOk st -> redsOk (moveToNextWord riddles cl b st).
Proof.
  intros H. unfold moveToNextWord.
  destruct (riddles !! cl_riddleIndex cl) as [r|]; [|exact H].
  destruct (cl_wordIndex cl + 1 <? length (words r))%nat.
  - now apply redsOk_fresh.
  - apply (redsOk_same_word st); destruct b; auto.
Qed.

Lemma handleKeyPress_redsOk key st :
  oneKey key -> 0 <= wrongKeyCount st ->
  redsOk st -> redsOk (handleKeyPress riddles key st).
Proof.
  intros Hk Hpos H. unfold handleKeyPress.
  destruct (negb (bool_decide (gameState st = PLAYING))); [exact H|].
  destruct (currentWord riddles st) as [w|] eqn:Hw; [|exact H].
  destruct ((w =? "")%string || (key =? "")%string); [exact H|].
  destruct (String.eqb_spec key "BACKSPACE") as [->|Hb].
  - destruct (String.eqb_spec (typedText st) "") as [E|Hne];
      [now rewrite E|].
    replace (0 <? String.length (typedText st))%nat with true
      by (symmetry; apply Nat.ltb_lt;
          destruct (typedText st); [congruence | simpl; lia]).
    destruct (string_snoc _ Hne) as (t' & c & Et).
    assert (forall w', currentWord riddles st = Some w' ->
                       wrongKeyCount st - 1
                       <= Z.of_nat (reds w' (JS.dropLast (typedText st))))
      as Hdrop.
    { intros w' Hw'. specialize (H w' Hw'). rewrite Et in *.
      rewrite dropLast_snoc. pose proof (reds_snoc_le w' t' c). lia. }
    destruct (0 <? wrongKeyCount st) eqn:Ec.
    + apply (redsOk_same_word st); try reflexivity.
      intros w' Hw'. simpl. specialize (Hdrop w' Hw'). lia.
    + apply (redsOk_same_word st); try reflexivity.
      intros w' Hw'. simpl. specialize (Hdrop w' Hw').
      apply Z.ltb_ge in Ec. lia.
  - destruct Hk as [->|Hk]; [congruence|].
    destruct key as [|k [|k' key]]; try discriminate Hk.
    destruct (JS.charAt w (String.length (typedText st))) as [t|] eqn:Hc;
      [|exact H].
    assert (forall st',
               currentRiddleIndex st' = currentRiddleIndex st ->
               currentWordIndex st' = currentWordIndex st ->
               typedText st' = typedText st ++ String k "" ->
               wrongKeyCount st'
               = wrongKeyCount st
                 + (if (String k "" =? t)%string then 0 else 1) ->
               redsOk st') as Hnew.
    { intros st' Hr Hi Ht Hcount. apply (redsOk_same_word st); auto.
      intros w' Hw'. assert (w' = w) as -> by congruence.
      rewrite Ht, Hcount, (reds_snoc w _ k t Hc).
      specialize (H w Hw). destruct (String k "" =? t)%string; lia. }
    destruct (String k "" =? t)%string eqn:Ek.
    + cbv zeta. case_match; [apply moveToNextWord_redsOk|];
        apply Hnew; simpl; auto; lia.
    + cbv zeta. case_match; apply Hnew; simpl; auto.
Qed.

Lemma handle_redsOk e st :
  (forall key, e = KeyPress key -> oneKey key) ->
  0 <= wrongKeyCount st ->
  redsOk st -> redsOk (handle riddles e st).
Proof.
  intros Hk Hpos H. destruct e; simpl.
  - now case_match.
  - case_match; [|exact H]. now apply redsOk_fresh.
  - apply handleKeyPress_redsOk; auto.
  - destruct (handleAnswerSelect_cases riddles answerIndex st)
      as [->|(r & _ & _ & _ & _ & ->)]; exact H.
  - unfold answerTimeout. case_match; [exact H|].
    unfold handleRiddleAnswer, endGame.
    repeat case_match; try exact H; now apply redsOk_fresh.
  - unfold tick. now case_match.
  - unfold advanceTimeout. case_match; [exact H|].
    now apply moveToNextWord_redsOk.
  - exact H.
Qed.

Lemma step_redsOk e st :
  (forall key, e = KeyPress key -> oneKey key) ->
  0 <= wrongKeyCount st ->
  redsOk st -> redsOk (step riddles st e).
Proof.
  intros Hk Hpos H. unfold step, timerEffect, endGame.
  pose proof (modalEffect_keeps riddles redsOk st (handle riddles e st)
                ltac:(auto) (handle_redsOk e st Hk Hpos H)).
  now case_match.
Qed.

End RedCells.

(** X16.  When every key press of a run carries a key the keyboard
    delivers, the wrong-key count never exceeds the number of
    characters the display of the current word styles as incorrect:
    the engine never counts a wrong key the player cannot see. *)
Theorem X16_wrong_keys_are_shown (riddles : list Riddle) (evs : list Event)
    (w : string) (cells : list (WordDisplay.CharClass * string)) :
  Forall (fun e => forall key, e = KeyPress key -> keyboardDelivers key) evs ->
  let st := run riddles evs initialState in
  currentWord riddles st = Some w ->
  WordDisplay.renderWord w (typedText st) true = Some cells ->
  wrongKeyCount st
  <= Z.of_nat (WordDisplay.countClass WordDisplay.Incorrect cells).
Proof.
  intros Hevs st Hw Hr.
  assert (w <> "") as Hne
    by (intros ->; unfold WordDisplay.renderWord in Hr; discriminate).
  rewrite renderWord_cells in Hr by exact Hne. injection Hr as <-.
  enough (redsOk riddles st) as H by now apply H.
  subst st. clear Hw Hne. induction evs as [|e evs IH] using rev_ind.
  - intros w' _. simpl. rewrite reds_empty. simpl. lia.
  - apply Forall_app in Hevs as [H1 H2]. rewrite run_snoc.
    apply step_redsOk; [| |now apply IH].
    + intros key ->. apply keyboardDelivers_oneKey.
      inversion H2 as [|? ? He _]. now apply He.
    + apply (reachable_Inv riddles). now exists evs.
Qed.

Lemma X16_wrong_keys_are_shown_witness :
  let st :=
    run oneSet [StartGame 0; KeyPress "X"; KeyPress "A"] initialState in
  exists cells,
    WordDisplay.renderWord "CAT" (typedText st) true = Some cells /\
    wrongKeyCount st
    <= Z.of_nat (WordDisplay.countClass WordDisplay.Incorrect cells).
Proof.
  eexists. split; [vm_compute; reflexivity|].
  apply (X16_wrong_keys_are_shown oneSet
           [StartGame 0; KeyPress "X"; KeyPress "A"] "CAT").
  - apply Forall_cons; [intros key; discriminate|].
    apply Forall_cons;
      [intros key [= <-]; left; exists false, "X"; reflexivity|].
    apply Forall_cons; [|apply Forall_nil].
    intros key [= <-]. left. exists false, "A". reflexivity.
  - vm_compute. reflexivity.
  - vm_compute. reflexivity.
Defined.

(** * Input checks ([utils/security.js])

    Texts are strings of code units below 256. *)

Module Security.

(** [text.replace(/c/g, by)]: every [c] replaced by [by]. *)
Fixpoint replaceAll (c : ascii) (by_ : string) (text : string) : string :=
  match text with
  | EmptyString => EmptyString
  | String a text' =>
      if Ascii.eqb a c then by_ ++ replaceAll c by_ text'
      else String a (replaceAll c by_ text')
  end.

Definition amp : ascii := ascii_of_nat 38.
Definition lt : ascii := ascii_of_nat 60.
Definition gt : ascii := ascii_of_nat 62.
Definition quot : ascii := ascii_of_nat 34.
Definition apos : ascii := ascii_of_nat 39.
Definition slash : ascii := ascii_of_nat 47.

(** [sanitizeText(text)] *)
Definition sanitizeText (text : string) : string :=
  if (text =? "")%string then ""
  else
    replaceAll slash "&#x2F;"
      (replaceAll apos "&#x27;"
         (replaceAll quot "&quot;"
            (replaceAll gt "&gt;"
               (replaceAll lt "&lt;"
                  (replaceAll amp "&amp;" text))))).

(** White space of [String.prototype.trim] and of [\s], below 256. *)
Definition isSpace (c : ascii) : bool :=
  let n := nat_of_ascii c in
  ((9 <=? n) && (n <=? 13) || (n =? 32) || (n =? 160))%nat.

Fixpoint trimStart (s : string) : string :=
  match s with
  | String c s' => if isSpace c then trimStart s' else s
  | EmptyString => EmptyString
  end.

Fixpoint trimEnd (s : string) : string :=
  match s with
  | String c s' =>
      match trimEnd s' with
      | EmptyString => if isSpace c then EmptyString else String c EmptyString
      | rest => String c rest
      end
  | EmptyString => EmptyString
  end.

(** [name.trim()] *)
Definition trim (s : string) : string := trimEnd (trimStart s).

(** The class [[a-zA-Z0-9\s\-_]]. *)
Definition nameChar (c : ascii) : bool :=
  let n := nat_of_ascii c in
  ((97 <=? n) && (n <=? 122) || (65 <=? n) && (n <=? 90)
   || (48 <=? n) && (n <=? 57) || isSpace c || (n =? 45) || (n =? 95))%nat.

Fixpoint allChars (p : ascii -> bool) (s : string) : bool :=
  match s with
  | String c s' => p c && allChars p s'
  | EmptyString => true
  end.

(** [VALIDATION_PATTERNS.playerName.test(s)]:
    [/^[a-zA-Z0-9\s\-_]{1,20}$/] *)
Definition playerNamePattern (s : string) : bool :=
  ((1 <=? String.length s) && (String.length s <=? 20))%nat
  && allChars nameChar s.

Inductive Validation :=
| Invalid (error : string)
| Valid (sanitized : string).

(** [validatePlayerName(name)].  [containsXSS] stands for the call of
    that function on the trimmed name; its regular expressions are not
    modelled. *)
Definition validatePlayerName (containsXSS : string -> bool) (name : string)
    : Validation :=
  if (name =? "")%string then Invalid "Name is required"
  else
    let trimmedName := trim name in
    if (String.length trimmedName =? 0)%nat
    then Invalid "Name cannot be empty"
    else if (20 <? String.length trimmedName)%nat
    then Invalid "Name must be 20 characters or less"
    else if negb (playerNamePattern trimmedName)
    then Invalid "Name can only contain letters, numbers, spaces, hyphens, and underscores"
    else if containsXSS trimmedName
    then Invalid "Invalid characters detected"
    else Valid trimmedName.

(** What [localStorage] holds under the key of a rate limit: nothing,
    the list of time stamps the function wrote, or a value on which
    [JSON.parse] or [filter] throws. *)
Inductive Stored :=
| Absent
| Timestamps (requests : list Z)
| Corrupt.

(** What [localStorage] does during one call: it works, [getItem]
    throws (the storage is disabled), or [setItem] throws (the storage
    is disabled or full). *)
Inductive Storage :=
| Works
| GetItemThrows
| SetItemThrows.

(** [checkRateLimit(key, limit, window)] at the time [now]: the result
    and the value stored afterwards.  Whatever is thrown inside the
    [try] block is caught, the call is allowed and nothing has been
    written. *)
Definition checkRateLimit (limit window now : Z) (storage : Storage)
    (stored : Stored) : bool * Stored :=
  let caught := (true, stored) in
  match storage, stored with
  | GetItemThrows, _ => caught
  | _, Corrupt => caught
  | _, _ =>
      let requests :=
        match stored with Timestamps l => l | _ => [] end in
      let validRequests :=
        filter (fun timestamp => now - timestamp < window) requests in
      if limit <=? Z.of_nat (length validRequests)
      then (false, stored)
      else
        match storage with
        | SetItemThrows => caught
        | _ => (true, Timestamps (validRequests ++ [now]))
        end
  end.

End Security.

(** ** Escaping *)

Section Escaping.
Import Security.

(** The entity of a character, or the character itself. *)
Definition escapeChar (c : ascii) : string :=
  if Ascii.eqb c amp then "&amp;"
  else if Ascii.eqb c lt then "&lt;"
  else if Ascii.eqb c gt then "&gt;"
  else if Ascii.eqb c quot then "&quot;"
  else if Ascii.eqb c apos then "&#x27;"
  else if Ascii.eqb c slash then "&#x2F;"
  else String c "".

(** One pass over the text, character by character. *)
Fixpoint escape (text : string) : string :=
  match text with
  | EmptyString => EmptyString
  | String c text' => escapeChar c ++ escape text'
  end.

(** One of the six characters [sanitizeText] replaces. *)
Definition special (c : ascii) : bool :=
  Ascii.eqb c amp || Ascii.eqb c lt || Ascii.eqb c gt
  || Ascii.eqb c quot || Ascii.eqb c apos || Ascii.eqb c slash.

Lemma replaceAll_append c b s t :
  replaceAll c b (s ++ t) = replaceAll c b s ++ replaceAll c b t.
Proof.
  induction s as [|a s IH]; [reflexivity|]. simpl.
  destruct (Ascii.eqb a c); simpl; rewrite IH; [|reflexivity].
  now rewrite append_assoc.
Qed.

(** The six replacements, in the order of the source. *)
Definition chain (text : string) : string :=
  replaceAll slash "&#x2F;"
    (replaceAll apos "&#x27;"
       (replaceAll quot "&quot;"
          (replaceAll gt "&gt;"
             (replaceAll lt "&lt;"
                (replaceAll amp "&amp;" text))))).

Lemma chain_append s t : chain (s ++ t) = chain s ++ chain t.
Proof. unfold chain. now rewrite !replaceAll_append. Qed.

Ltac split_char c :=
  destruct (Ascii.eqb_spec c amp) as [->|?];
  [|destruct (Ascii.eqb_spec c lt) as [->|?];
    [|destruct (Ascii.eqb_spec c gt) as [->|?];
      [|destruct (Ascii.eqb_spec c quot) as [->|?];
        [|destruct (Ascii.eqb_spec c apos) as [->|?];
          [|destruct (Ascii.eqb_spec c slash) as [->|?]]]]]].

Lemma escapeChar_other c :
  special c = false -> escapeChar c = String c "".
Proof.
  unfold special, escapeChar. intros H.
  repeat (apply orb_false_elim in H as [H ?]).
  now repeat match goal with E : Ascii.eqb _ _ = false |- _ =>
                               rewrite E; clear E end.
Qed.

Lemma special_false c :
  c <> amp -> c <> lt -> c <> gt -> c <> quot -> c <> apos -> c <> slash ->
  special c = false.
Proof.
  intros. unfold special.
  repeat match goal with
         | H : c <> ?d |- _ => apply Ascii.eqb_neq in H; rewrite H; clear H
         end.
  reflexivity.
Qed.

Lemma chain_char c : chain (String c "") = escapeChar c.
Proof.
  split_char c; try reflexivity.
  rewrite escapeChar_other by now apply special_false.
  unfold chain.
  repeat match goal with
         | H : c <> ?d |- _ => apply Ascii.eqb_neq in H
         end.
  repeat (simpl;
          match goal with
          | H : Ascii.eqb c _ = false |- _ => rewrite H; clear H
          end).
  reflexivity.
Qed.

Lemma chain_escape text : chain text = escape text.
Proof.
  induction text as [|c text IH]; [reflexivity|].
  change (String c text) with (String c "" ++ text).
  rewrite chain_append, chain_char, IH. reflexivity.
Qed.

Lemma sanitizeText_escape text : sanitizeText text = escape text.
Proof.
  unfold sanitizeText. destruct (String.eqb_spec text "") as [->|_];
    [reflexivity | apply chain_escape].
Qed.

Lemma allChars_append p s t :
  allChars p (s ++ t) = allChars p s && allChars p t.
Proof.
  induction s as [|c s IH]; [reflexivity|]. simpl.
  now rewrite IH, andb_assoc.
Qed.

(** None of [<], [>], the two quotes and [/]. *)
Definition harmless (c : ascii) : bool :=
  negb (Ascii.eqb c lt || Ascii.eqb c gt || Ascii.eqb c quot
        || Ascii.eqb c apos || Ascii.eqb c slash).

Lemma escapeChar_harmless c : allChars harmless (escapeChar c) = true.
Proof.
  split_char c; try reflexivity.
  rewrite escapeChar_other by now apply special_false.
  unfold harmless. simpl.
  repeat match goal with
         | H : c <> ?d |- _ => apply Ascii.eqb_neq in H
         end.
  repeat match goal with
         | H : Ascii.eqb c _ = false |- _ => rewrite ?H; clear H
         end.
  reflexivity.
Qed.

Lemma escape_harmless text : allChars harmless (escape text) = true.
Proof.
  induction text as [|c text IH]; [reflexivity|]. simpl.
  now rewrite allChars_append, escapeChar_harmless, IH.
Qed.

(** Texts with the same escaped form are equal. *)
Lemma escape_injective s : forall t, escape s = escape t -> s = t.
Proof.
  induction s as [|c s IH]; intros [|d t]; simpl.
  - reflexivity.
  - split_char d; try discriminate.
    rewrite escapeChar_other by now apply special_false. discriminate.
  - split_char c; try discriminate.
    rewrite escapeChar_other by now apply special_false. discriminate.
  - split_char c; split_char d;
      rewrite ?(escapeChar_other c), ?(escapeChar_other d)
        by now apply special_false.
    all: cbn [escapeChar Ascii.eqb amp lt gt quot apos slash
              ascii_of_nat String.append]; simpl.
    all: try (intros [= ]; congruence).
    all: try (intros [= E]; f_equal; now apply IH).
    all: try (intros [= E1 E2]; subst; f_equal; now apply IH).
    all: try (intros [= E1 E2]; congruence).
    all: intros [= E1 E2]; exfalso; subst;
      match goal with H : _ <> amp |- _ => now apply H end.
Qed.

Lemma length_escapeChar c :
  String.length (escapeChar c)
  = (if special c then String.length (escapeChar c) else 1)%nat /\
  (special c = true -> 1 < String.length (escapeChar c))%nat.
Proof.
  split_char c; try (split; [reflexivity | intros _; simpl; lia]).
  rewrite (special_false c), escapeChar_other
    by (auto using special_false).
  split; [reflexivity | discriminate].
Qed.

Lemma escape_plain text :
  allChars (fun c => negb (special c)) text = true -> escape text = text.
Proof.
  induction text as [|c text IH]; [reflexivity|]. simpl.
  intros H. apply andb_prop in H as [Hc Ht].
  apply negb_true_iff in Hc. rewrite escapeChar_other by exact Hc.
  simpl. now rewrite IH.
Qed.

Lemma escape_longer text :
  (String.length text <= String.length (escape text))%nat /\
  (allChars (fun c => negb (special c)) text = false ->
   String.length text < String.length (escape text))%nat.
Proof.
  induction text as [|c text [IH1 IH2]]; [split; [reflexivity|discriminate]|].
  simpl. rewrite length_append.
  destruct (length_escapeChar c) as [_ Hc].
  destruct (special c) eqn:Es; simpl.
  - specialize (Hc eq_refl). split; [lia | intros _; lia].
  - rewrite escapeChar_other by exact Es. simpl.
    split; [lia | intros H; specialize (IH2 H); lia].
Qed.

Lemma escape_has_amp text :
  allChars (fun c => negb (special c)) text = false ->
  allChars (fun c => negb (special c)) (escape text) = false.
Proof.
  induction text as [|c text IH]; [discriminate|]. simpl.
  rewrite allChars_append. destruct (special c) eqn:Es; simpl.
  - intros _. apply andb_false_intro1.
    revert Es. split_char c; try reflexivity.
    rewrite special_false by assumption. discriminate.
  - intros H. rewrite (IH H). apply andb_false_r.
Qed.

End Escaping.

(** X17.  The six replacements of [sanitizeText] amount to one pass
    that turns each of the six characters into its entity and keeps
    every other character: an entity written by an earlier replacement
    is never touched by a later one.  The result holds none of the
    characters [<], [>], double quote, single quote and [/]. *)
Theorem X17_sanitize_one_pass (text : string) :
  Security.sanitizeText text = escape text /\
  Security.allChars harmless (Security.sanitizeText text) = true.
Proof.
  rewrite sanitizeText_escape. split; [reflexivity | apply escape_harmless].
Qed.

(** X18.  [sanitizeText] loses nothing: two texts with the same
    sanitized form are the same text. *)
Theorem X18_sanitize_injective (s t : string) :
  Security.sanitizeText s = Security.sanitizeText t -> s = t.
Proof. rewrite !sanitizeText_escape. apply escape_injective. Qed.

Lemma X18_sanitize_injective_witness :
  Security.sanitizeText "a&b" = Security.sanitizeText "a&b" /\ "a&b" = "a&b".
Proof.
  split; [reflexivity|].
  apply (X18_sanitize_injective "a&b" "a&b"). reflexivity.
Defined.

(** X19.  [sanitizeText] never shortens a text and returns it
    unchanged exactly when it holds none of the six characters.
    Sanitizing twice is the same as sanitizing once only for such
    texts: for any other text the second pass escapes the entities of
    the first. *)
Theorem X19_sanitize_fixed_points (text : string) :
  let plain := Security.allChars (fun c => negb (special c)) text in
  (String.length text <= String.length (Security.sanitizeText text))%nat /\
  (Security.sanitizeText text = text <-> plain = true) /\
  (Security.sanitizeText (Security.sanitizeText text)
   = Security.sanitizeText text <-> plain = true).
Proof.
  intros plain. subst plain. rewrite !sanitizeText_escape.
  destruct (escape_longer text) as [Hle Hlt].
  split; [exact Hle|]. split.
  - split; [|apply escape_plain].
    intros E.
    destruct (Security.allChars (fun c => negb (special c)) text) eqn:Hp;
      [reflexivity|].
    specialize (Hlt eq_refl). rewrite E in Hlt. lia.
  - split.
    + intros E.
      destruct (Security.allChars (fun c => negb (special c)) text) eqn:Hp;
        [reflexivity|].
      pose proof (escape_has_amp text Hp) as Ha.
      destruct (escape_longer (escape text)) as [_ Hlt2].
      specialize (Hlt2 Ha). rewrite E in Hlt2. lia.
    + intros Hp. now rewrite !(escape_plain text Hp).
Qed.

(** ** Player names *)

Section PlayerNames.
Import Security.

Lemma trimStart_fixed s :
  match s with String c _ => isSpace c = false | EmptyString => True end ->
  trimStart s = s.
Proof. destruct s as [|c s]; simpl; [reflexivity|]. now intros ->. Qed.

Lemma trimStart_head s :
  match trimStart s with
  | String c _ => isSpace c = false
  | EmptyString => True
  end.
Proof.
  induction s as [|c s IH]; simpl; [exact I|].
  destruct (isSpace c) eqn:E; [exact IH | exact E].
Qed.

Lemma trimEnd_head s :
  match s with String c _ => isSpace c = false | EmptyString => True end ->
  match trimEnd s with
  | String c _ => isSpace c = false
  | EmptyString => True
  end.
Proof.
  destruct s as [|c s]; simpl; [auto|]. intros Hc.
  destruct (trimEnd s); [rewrite Hc|]; exact Hc.
Qed.

Lemma trimEnd_idempotent s : trimEnd (trimEnd s) = trimEnd s.
Proof.
  induction s as [|c s IH]; [reflexivity|]. simpl.
  destruct (trimEnd s) as [|d r] eqn:E.
  - destruct (isSpace c) eqn:Ec; [reflexivity|]. simpl. now rewrite Ec.
  - simpl in *. now rewrite IH.
Qed.

Lemma trim_idempotent s : trim (trim s) = trim s.
Proof.
  unfold trim.
  rewrite (trimStart_fixed (trimEnd (trimStart s))).
  - apply trimEnd_idempotent.
  - apply trimEnd_head, trimStart_head.
Qed.

Lemma trimEnd_empty s : trimEnd s = "" <-> allChars isSpace s = true.
Proof.
  induction s as [|c s IH]; simpl; [tauto|].
  destruct (trimEnd s) as [|d r].
  - destruct (isSpace c); simpl; [tauto|]. split; discriminate.
  - split; [discriminate|]. intros H. apply andb_prop in H as [_ H].
    apply IH in H. discriminate H.
Qed.

Lemma trimStart_spaces s :
  allChars isSpace (trimStart s) = allChars isSpace s.
Proof.
  induction s as [|c s IH]; [reflexivity|]. simpl.
  destruct (isSpace c) eqn:E; simpl; [exact IH | now rewrite E].
Qed.

Lemma trim_empty s : trim s = "" <-> allChars isSpace s = true.
Proof. unfold trim. now rewrite trimEnd_empty, trimStart_spaces. Qed.

Lemma validatePlayerName_valid xss name s :
  validatePlayerName xss name = Valid s <->
  name <> "" /\ s = trim name /\
  (1 <= String.length s <= 20)%nat /\
  allChars nameChar s = true /\ xss s = false.
Proof.
  unfold validatePlayerName, playerNamePattern.
  destruct (String.eqb_spec name "") as [->|Hne].
  { split; [discriminate | tauto]. }
  destruct (Nat.eqb_spec (String.length (trim name)) 0) as [E0|E0].
  { split; [discriminate|]. intros (_ & -> & H & _). lia. }
  destruct (Nat.ltb_spec 20 (String.length (trim name))) as [E20|E20].
  { split; [discriminate|]. intros (_ & -> & H & _). lia. }
  replace ((1 <=? String.length (trim name))%nat) with true
    by (symmetry; apply Nat.leb_le; lia).
  replace ((String.length (trim name) <=? 20)%nat) with true
    by (symmetry; apply Nat.leb_le; lia).
  simpl. destruct (allChars nameChar (trim name)) eqn:Ea; simpl.
  - destruct (xss (trim name)) eqn:Ex.
    + split; [discriminate|]. intros (_ & -> & _ & _ & H). congruence.
    + split.
      * intros [= <-]. repeat split; auto; lia.
      * intros (_ & -> & _). reflexivity.
  - split; [discriminate|]. intros (_ & -> & _ & H & _). congruence.
Qed.

End PlayerNames.

(** X20.  [validatePlayerName] accepts a name exactly when the name is
    not empty, its trimmed form has 1 to 20 characters, all of them
    letters, digits, white space, hyphens or underscores, and the
    script check passes; the name it returns is the trimmed form, which
    trimming leaves unchanged. *)
Theorem X20_valid_player_names (containsXSS : string -> bool)
    (name sanitized : string) :
  Security.validatePlayerName containsXSS name = Security.Valid sanitized <->
  name <> "" /\ sanitized = Security.trim name /\
  Security.trim sanitized = sanitized /\
  (1 <= String.length sanitized <= 20)%nat /\
  Security.allChars Security.nameChar sanitized = true /\
  containsXSS sanitized = false.
Proof.
  rewrite validatePlayerName_valid. split.
  - intros (H1 & -> & H3). repeat split; try tauto.
    apply trim_idempotent.
  - tauto.
Qed.

(** X21.  A name that was accepted is accepted again and returned
    unchanged, so the second validation in [saveScore] of the name
    [handleSaveScore] has validated cannot fail on its length or its
    characters; it returns the same name unless the script check of
    the second call reports the name. *)
Theorem X21_validation_idempotent (xss1 xss2 : string -> bool)
    (name sanitized : string) :
  Security.validatePlayerName xss1 name = Security.Valid sanitized ->
  Security.validatePlayerName xss2 sanitized
  = if xss2 sanitized
    then Security.Invalid "Invalid characters detected"
    else Security.Valid sanitized.
Proof.
  intros H. apply validatePlayerName_valid in H as (Hne & -> & Hlen & Ha & _).
  destruct (xss2 (Security.trim name)) eqn:Ex.
  - unfold Security.validatePlayerName, Security.playerNamePattern.
    rewrite trim_idempotent, Ha, Ex.
    destruct (String.eqb_spec (Security.trim name) "") as [E|_];
      [rewrite E in Hlen; simpl in Hlen; lia|].
    destruct (Nat.eqb_spec (String.length (Security.trim name)) 0);
      [lia|].
    destruct (Nat.ltb_spec 20 (String.length (Security.trim name)));
      [lia|].
    replace ((1 <=? String.length (Security.trim name))%nat) with true
      by (symmetry; apply Nat.leb_le; lia).
    replace ((String.length (Security.trim name) <=? 20)%nat) with true
      by (symmetry; apply Nat.leb_le; lia).
    reflexivity.
  - apply validatePlayerName_valid. repeat split; auto; try lia.
    + intros E. rewrite E in Hlen. simpl in Hlen. lia.
    + symmetry. apply trim_idempotent.
Qed.

Lemma X21_validation_idempotent_witness :
  Security.validatePlayerName (fun _ => false) "  Ada_99 "
  = Security.Valid "Ada_99" /\
  Security.validatePlayerName (fun _ => false) "Ada_99"
  = Security.Valid "Ada_99".
Proof.
  split; [reflexivity|].
  apply (X21_validation_idempotent (fun _ => false) (fun _ => false)
           "  Ada_99 " "Ada_99").
  reflexivity.
Defined.

(** X22.  Each rejection of [validatePlayerName] has one cause: the
    empty name is "required", a name of white space only "cannot be
    empty", a trimmed name of more than 20 characters is too long, and
    the message about the characters is given only to a trimmed name of
    1 to 20 characters with a character outside the class, never for
    the length the pattern also bounds. *)
Theorem X22_rejection_causes (containsXSS : string -> bool) (name : string) :
  let result := Security.validatePlayerName containsXSS name in
  let trimmed := Security.trim name in
  (result = Security.Invalid "Name is required" <-> name = "") /\
  (result = Security.Invalid "Name cannot be empty" <->
   name <> "" /\ Security.allChars Security.isSpace name = true) /\
  (result = Security.Invalid "Name must be 20 characters or less" <->
   (20 < String.length trimmed)%nat) /\
  (result
   = Security.Invalid
       "Name can only contain letters, numbers, spaces, hyphens, and underscores"
   <-> (1 <= String.length trimmed <= 20)%nat /\
       Security.allChars Security.nameChar trimmed = false).
Proof.
  intros result trimmed. subst result trimmed.
  unfold Security.validatePlayerName, Security.playerNamePattern.
  destruct (String.eqb_spec name "") as [->|Hne].
  { repeat split; try discriminate; try tauto;
      intros; simpl in *; try lia; try congruence. }
  pose proof (trim_empty name) as Hte.
  destruct (Nat.eqb_spec (String.length (Security.trim name)) 0) as [E0|E0].
  { apply length_zero_empty in E0. pose proof (proj1 Hte E0) as Hsp.
    rewrite E0. simpl.
    repeat split; try discriminate; try tauto;
      intros; simpl in *; try lia; try congruence. }
  assert (Security.allChars Security.isSpace name = false) as Hns.
  { destruct (Security.allChars Security.isSpace name); [|reflexivity].
    exfalso. apply E0. rewrite (proj2 Hte eq_refl). reflexivity. }
  destruct (Nat.ltb_spec 20 (String.length (Security.trim name))) as [E20|E20].
  { repeat split; try discriminate; try tauto; try congruence;
      intros; try lia; try (destruct_and?; congruence). }
  replace ((1 <=? String.length (Security.trim name))%nat) with true
    by (symmetry; apply Nat.leb_le; lia).
  replace ((String.length (Security.trim name) <=? 20)%nat) with true
    by (symmetry; apply Nat.leb_le; lia).
  simpl.
  destruct (Security.allChars Security.nameChar (Security.trim name)) eqn:Ea;
    simpl.
  - destruct (containsXSS (Security.trim name));
      repeat split; try discriminate; try tauto; try congruence;
      intros; try lia; try (destruct_and?; congruence).
  - repeat split; try discriminate; try tauto; try congruence;
      intros; try lia; try (destruct_and?; congruence).
Qed.

(** ** The rate limit *)

Section RateLimit.
Import Security.
Variables limit window : Z.

(** A sequence of calls, each with its time and the behaviour of
    [localStorage] during it: the times of the calls allowed so far
    and the stored value. *)
Definition serve (st : list Z * Stored) (call : Z * Storage)
    : list Z * Stored :=
  let result := checkRateLimit limit window (fst call) (snd call) (snd st) in
  (if fst result then (fst st ++ [fst call])%list else fst st, snd result).

Definition serveAll (calls : list (Z * Storage)) (st : list Z * Stored)
    : list Z * Stored :=
  fold_left serve calls st.

(** The calls at [times] during which [localStorage] works. *)
Definition working (times : list Z) : list (Z * Storage) :=
  map (fun now => (now, Works)) times.

(** Each call is made no earlier than the one before. *)
Fixpoint ascending (last : Z) (times : list Z) : Prop :=
  match times with
  | [] => True
  | now :: times' => last <= now /\ ascending now times'
  end.

Definition requestsOf (stored : Stored) : list Z :=
  match stored with Timestamps l => l | _ => [] end.

(** From the time [last] on, the stored time stamps inside the window
    are the allowed calls inside the window. *)
Definition tracks (last : Z) (st : list Z * Stored) : Prop :=
  snd st <> Corrupt /\
  forall now, last <= now ->
    filter (fun t => now - t < window) (requestsOf (snd st))
    = filter (fun t => now - t < window) (fst st).

Lemma checkRateLimit_tracks last st now :
  tracks last st -> last <= now ->
  fst (checkRateLimit limit window now Works (snd st))
  = (Z.of_nat (length (filter (fun t => now - t < window) (fst st)))
     <? limit).
Proof.
  intros [Hc Hf] Hle. rewrite <- (Hf now Hle).
  unfold checkRateLimit. destruct (snd st) as [|l|]; [| |congruence];
    simpl; rewrite Z.ltb_antisym;
    match goal with |- context [limit <=? ?n] => destruct (limit <=? n) end;
    reflexivity.
Qed.

Lemma serve_tracks last st now :
  tracks last st -> last <= now -> tracks now (serve st (now, Works)).
Proof.
  intros [Hc Hf] Hle. unfold serve, checkRateLimit.
  destruct st as [log stored]. simpl in *.
  assert (forall now', now <= now' ->
            filter (fun t => now' - t < window)
              (filter (fun t => now - t < window) (requestsOf stored))
            = filter (fun t => now' - t < window) log) as Hkeep.
  { intros now' Hn. rewrite list_filter_filter_l by (intros; lia).
    apply Hf. lia. }
  destruct stored as [|l|]; [| |congruence]; simpl in *.
  - match goal with |- context [limit <=? ?n] => destruct (limit <=? n) end;
      simpl; split; try discriminate.
    + intros now' Hn. apply Hf. lia.
    + intros now' Hn. cbn [fst snd requestsOf].
      rewrite list.filter_app, <- (Hkeep now' Hn). reflexivity.
  - match goal with |- context [limit <=? ?n] => destruct (limit <=? n) end;
      simpl; split; try discriminate.
    + intros now' Hn. apply Hf. lia.
    + intros now' Hn. cbn [fst snd requestsOf].
      rewrite !list.filter_app. f_equal. now apply Hkeep.
Qed.

Lemma serveAll_tracks times :
  forall last st,
    tracks last st -> ascending last times ->
    exists last', tracks last' (serveAll (working times) st) /\
                  last <= last' /\
                  forall now, ascending last (times ++ [now]) -> last' <= now.
Proof.
  induction times as [|t times IH]; intros last st Ht Ha.
  - exists last. split; [exact Ht|]. split; [lia|].
    intros now [H _]. exact H.
  - destruct Ha as [Hle Ha]. unfold serveAll, working. simpl.
    destruct (IH t (serve st (t, Works)) (serve_tracks last st t Ht Hle) Ha)
      as (last' & H1 & H2 & H3).
    exists last'. split; [exact H1|]. split; [lia|].
    intros now [_ Hnow]. now apply H3.
Qed.

(** The stored list holds at most [limit] time stamps. *)
Definition bounded (stored : Stored) : Prop :=
  stored = Absent \/
  exists l, stored = Timestamps l /\ l <> [] /\ Z.of_nat (length l) <= limit.

Lemma checkRateLimit_bounded now storage stored :
  bounded stored ->
  bounded (snd (checkRateLimit limit window now storage stored)).
Proof.
  intros H. unfold checkRateLimit.
  destruct storage; [| exact H |].
  - destruct H as [->|(l & -> & Hne & Hlen)]; cbn [filter list_filter length].
    + destruct (Z.leb_spec limit (Z.of_nat 0)); cbn [snd]; [now left|].
      right. exists [now]. repeat split; [discriminate | simpl; lia].
    + destruct (Z.leb_spec limit
                  (Z.of_nat (length (filter (fun t => now - t < window) l))));
        cbn [snd].
      * right. now exists l.
      * right. eexists. split; [reflexivity|]. split.
        -- intros E. apply (f_equal length) in E. rewrite length_app in E.
           simpl in E. lia.
        -- rewrite length_app. simpl. lia.
  - destruct H as [->|(l & -> & Hne & Hlen)];
      match goal with
      | |- context [limit <=? ?n] => destruct (limit <=? n)
      end; cbn [snd]; try (now left); right; now exists l.
Qed.

End RateLimit.

(** X23.  While [localStorage] works, with a clock that never runs
    backwards and a store that starts empty, [checkRateLimit] is a
    sliding-window limit: a call is allowed exactly when fewer than
    [limit] of the calls allowed before it lie less than [window]
    before it, so an allowed call is at most the [limit]-th allowed
    call of its window.  When [getItem] throws the call is allowed
    whatever is stored; when [setItem] throws the answer is the same
    as when it works; in both cases the stored value stays as it
    is. *)
Theorem X23_rate_limit_sliding_window (limit window first : Z)
    (times : list Z) (now : Z) :
  ascending first (times ++ [now]) ->
  let st := serveAll limit window (working times) ([], Security.Absent) in
  let allowedBefore :=
    filter (fun t => now - t < window) (fst st) in
  let result :=
    Security.checkRateLimit limit window now Security.Works (snd st) in
  fst result = (Z.of_nat (length allowedBefore) <? limit) /\
  (fst result = true ->
   Z.of_nat
     (length (filter (fun t => now - t < window)
                (fst (serve limit window st (now, Security.Works)))))
   <= limit) /\
  (forall stored,
     Security.checkRateLimit limit window now Security.GetItemThrows stored
     = (true, stored)) /\
  (forall stored,
     Security.checkRateLimit limit window now Security.SetItemThrows stored
     = (fst (Security.checkRateLimit limit window now Security.Works stored),
        stored)).
Proof.
  intros Ha st allowedBefore result.
  assert (tracks window first ([], Security.Absent)) as H0
    by (split; [discriminate | reflexivity]).
  assert (ascending first times) as Ha'.
  { clear -Ha. revert first Ha.
    induction times as [|t times IH]; intros first Ha; [exact I|].
    destruct Ha as [Hle Ha]. split; [exact Hle | now apply IH]. }
  destruct (serveAll_tracks limit window times first _ H0 Ha')
    as (last' & Ht & _ & Hnow).
  specialize (Hnow now Ha).
  pose proof (checkRateLimit_tracks limit window last' st now Ht Hnow) as E.
  split; [exact E|]. split; [|split].
  - intros Hok. subst result. unfold serve. cbn [fst snd].
    rewrite Hok. cbn [fst].
    rewrite list.filter_app, length_app.
    rewrite E in Hok. apply Z.ltb_lt in Hok.
    pose proof (length_filter (fun t => now - t < window) [now]) as Hone.
    simpl in Hone. subst allowedBefore. lia.
  - reflexivity.
  - intros stored. unfold Security.checkRateLimit.
    destruct stored; try reflexivity;
      match goal with
      | |- context [limit <=? ?n] => destruct (limit <=? n)
      end; reflexivity.
Qed.

Lemma X23_rate_limit_sliding_window_witness :
  let st :=
    serveAll 3 60000 (working [1000; 2000; 3000; 4000]) ([], Security.Absent) in
  fst st = [1000; 2000; 3000] /\
  fst (Security.checkRateLimit 3 60000 61500 Security.Works (snd st)) = true.
Proof.
  split; [vm_compute; reflexivity|].
  pose proof (X23_rate_limit_sliding_window 3 60000 0
                [1000; 2000; 3000; 4000] 61500) as H.
  destruct H as [H _]; [simpl; lia|].
  rewrite H. vm_compute. reflexivity.
Defined.

(** X24.  Whatever the times of the calls and the behaviour of
    [localStorage] during them, from an empty store the function never
    stores more than [limit] time stamps and never an empty list, and
    a denied call leaves the stored value as it is: time stamps
    outside the window are dropped only by an allowed call. *)
Theorem X24_rate_limit_store_bounded (limit window : Z)
    (calls : list (Z * Security.Storage)) :
  let stored := snd (serveAll limit window calls ([], Security.Absent)) in
  (stored = Security.Absent \/
   exists l, stored = Security.Timestamps l /\ l <> [] /\
             Z.of_nat (length l) <= limit) /\
  forall now storage,
    fst (Security.checkRateLimit limit window now storage stored) = false ->
    snd (Security.checkRateLimit limit window now storage stored) = stored.
Proof.
  intros stored. split.
  - subst stored.
    enough (forall st, bounded limit (snd st) ->
                       bounded limit (snd (serveAll limit window calls st))) as H
      by (apply (H ([], Security.Absent)); now left).
    induction calls as [|c calls IH]; intros st Hb; [exact Hb|].
    unfold serveAll. simpl. apply IH. unfold serve. simpl.
    now apply checkRateLimit_bounded.
  - intros now storage. unfold Security.checkRateLimit.
    destruct storage, stored; simpl; try discriminate;
      match goal with
      | |- context [limit <=? ?n] => destruct (limit <=? n)
      end; simpl; try discriminate; reflexivity.
Qed.

(** * The riddle sets of a session *)

Section Rounds.
Variable riddles : list Riddle.

(** The outcome of the end of the pause of a correct answer whose
    captured list has room and lacks a set of the catalog. *)
Lemma step_AnswerTimeout_next cl rest rnd st :
  pendingAnswer st = cl :: rest ->
  cl_correct cl = true ->
  0 <= timeLeft st ->
  (length (cl_usedRiddleIndices cl) < length riddles)%nat ->
  (exists j, (j < length riddles)%nat /\ (j ∉ cl_usedRiddleIndices cl)) ->
  exists next,
    (next ∉ cl_usedRiddleIndices cl) /\ (next < length riddles)%nat /\
    step riddles st (AnswerTimeout rnd)
    = nextRound next (setPendingAnswer (fun _ => rest) st).
Proof.
  intros Hq Hc Ht Hlen (j & Hj & Hnj).
  rewrite (step_AnswerTimeout riddles cl rest) by assumption. rewrite Hc.
  destruct (handleRiddleAnswer_cases riddles (cl_usedRiddleIndices cl) true
              rnd (setPendingAnswer (fun _ => rest) st))
    as [(next & Hn & _ & _ & ->)|[_ Hempty]].
  - apply elem_of_availableIndices in Hn as [Hn Hlt]. now exists next.
  - exfalso. specialize (Hempty eq_refl Hlen).
    assert (j ∈ availableIndices riddles (cl_usedRiddleIndices cl)) as Hin
      by now apply elem_of_availableIndices.
    rewrite Hempty in Hin. now apply elem_of_nil in Hin.
Qed.

Lemma handleKeyPress_modal key st :
  pendingAnswer (handleKeyPress riddles key st) = pendingAnswer st /\
  showResult (handleKeyPress riddles key st) = showResult st /\
  (showRiddleModal st = true ->
   showRiddleModal (handleKeyPress riddles key st) = true).
Proof.
  unfold handleKeyPress, moveToNextWord. repeat case_match; simpl; auto.
Qed.

Lemma moveToNextWord_modal cl b st :
  pendingAnswer (moveToNextWord riddles cl b st) = pendingAnswer st /\
  showResult (moveToNextWord riddles cl b st) = showResult st /\
  (showRiddleModal st = true ->
   showRiddleModal (moveToNextWord riddles cl b st) = true).
Proof. unfold moveToNextWord. repeat case_match; simpl; auto. Qed.

(** No game is started while an answer waits for the end of its
    pause. *)
Fixpoint startsAfterAnswers (evs : list Event) (st : State) : Prop :=
  match evs with
  | [] => True
  | e :: evs' =>
      (forall rnd, e = StartGame rnd -> pendingAnswer st = []) /\
      startsAfterAnswers evs' (step riddles st e)
  end.

(** The used sets are distinct, and an answer that waits for the end
    of its pause is the only one, was selected with the current list
    of used sets, and keeps the modal open with its result shown. *)
Record Orderly (st : State) : Prop := {
  ord_nodup : NoDup (usedRiddleIndices st);
  ord_pending :
    pendingAnswer st = [] \/
    exists cl,
      pendingAnswer st = [cl] /\
      cl_usedRiddleIndices cl = usedRiddleIndices st /\
      showRiddleModal st = true /\ showResult st = true
}.

Lemma Orderly_initial : Orderly initialState.
Proof. split; simpl; [apply NoDup_nil_2 | now left]. Qed.

(** A handler keeps the order; while an answer waits it neither
    closes the modal nor changes the riddle. *)
Lemma handle_Orderly st e :
  Orderly st ->
  (forall rnd, e = StartGame rnd -> pendingAnswer st = []) ->
  Orderly (handle riddles e st) /\
  (pendingAnswer (handle riddles e st) <> [] ->
   showRiddleModal (handle riddles e st) = showRiddleModal st /\
   currentRiddleIndex (handle riddles e st) = currentRiddleIndex st).
Proof.
  intros [Hnd Hp] Hstart. destruct e; simpl.
  - case_match; simpl; (split; [split|]); auto.
  - case_match; [|split; [split|]; auto].
    specialize (Hstart rnd eq_refl). simpl. split.
    + split; simpl; [apply NoDup_singleton | now left].
    + intros Hne. congruence.
  - destruct (handleKeyPress_modal key st) as (Eq & Er & Eo).
    destruct (handleKeyPress_used riddles key st) as [Eu Ei].
    split.
    + split; rewrite ?Eu, ?Eq, ?Er; [exact Hnd|].
      destruct Hp as [Hp|(cl & Hq & Hc & Ho & Hr)]; [now left|].
      right. exists cl. auto.
    + rewrite Eq. intros Hne. split; [|exact Ei].
      destruct Hp as [Hp|(cl & Hq & Hc & Ho & Hr)]; [congruence|].
      rewrite Ho. auto.
  - destruct (handleAnswerSelect_cases riddles answerIndex st)
      as [->|(r & _ & Ho & Hs & _ & ->)].
    + split; [split|]; auto.
    + destruct Hp as [Hp|(cl & _ & _ & _ & Hr)]; [|congruence].
      split; [|auto]. split; simpl; [exact Hnd|].
      right. eexists. rewrite Hp. simpl. auto.
  - unfold answerTimeout.
    destruct (pendingAnswer st) as [|cl rest] eqn:Eq;
      [split; [split|]; auto; now rewrite Eq|].
    destruct Hp as [Hp|(cl' & Hq & Hc & _ & _)]; [discriminate Hp|].
    injection Hq as <- ->.
    destruct (handleRiddleAnswer_cases riddles (cl_usedRiddleIndices cl)
                (cl_correct cl) rnd (setPendingAnswer (fun _ => []) st))
      as [(next & Hn & _ & _ & ->)|[-> _]]; simpl.
    + split; [|congruence]. split; simpl; [|now left].
      apply elem_of_availableIndices in Hn as [Hn _]. rewrite Hc in Hn.
      apply list.NoDup_app. split; [exact Hnd|].
      split; [|apply NoDup_singleton].
      intros x Hx Hx'. apply list_elem_of_singleton in Hx'. now subst.
    + split; [|congruence]. split; simpl; [exact Hnd | now left].
  - unfold tick. case_match; simpl; (split; [split|]); auto.
  - unfold advanceTimeout.
    destruct (pendingAdvance st) as [|cl rest]; [split; [split|]; auto|].
    destruct (moveToNextWord_modal cl false
                (setPendingAdvance (fun _ => rest) st)) as (Eq & Er & Eo).
    destruct (moveToNextWord_used riddles cl false
                (setPendingAdvance (fun _ => rest) st)) as [Eu Ei].
    simpl in Eq, Er, Eo, Eu, Ei. split.
    + split; rewrite ?Eu, ?Eq, ?Er; [exact Hnd|].
      destruct Hp as [Hp|(cl' & Hq & Hc & Ho & Hr)]; [now left|].
      right. exists cl'. auto.
    + rewrite Eq. intros Hne. split; [|exact Ei].
      destruct Hp as [Hp|(cl' & Hq & Hc & Ho & Hr)]; [congruence|].
      rewrite Ho. auto.
  - split; [split|]; auto.
Qed.

Lemma step_Orderly st e :
  Orderly st ->
  (forall rnd, e = StartGame rnd -> pendingAnswer st = []) ->
  Orderly (step riddles st e).
Proof.
  intros Ho Hstart. destruct (handle_Orderly st e Ho Hstart) as [Hh Hsame].
  unfold step.
  assert (Orderly (modalEffect riddles st (handle riddles e st))) as Hm.
  { destruct (pendingAnswer (handle riddles e st)) as [|cl rest] eqn:Eq.
    - destruct Hh as [Hnd _].
      destruct (modalEffect_cases riddles st (handle riddles e st))
        as [->|[_ ->]]; split; simpl; auto.
    - destruct Hsame as [E1 E2]; [discriminate|].
      rewrite modalEffect_same by assumption.
      exact Hh. }
  destruct Hm as [Hnd Hp].
  unfold timerEffect, endGame. case_match; split; simpl; auto.
Qed.

Lemma run_Orderly evs :
  forall st,
    Orderly st -> startsAfterAnswers evs st -> Orderly (run riddles evs st).
Proof.
  induction evs as [|e evs IH]; intros st Ho Hs; [exact Ho|].
  destruct Hs as [Hstart Hs]. rewrite run_cons.
  apply IH; [|exact Hs]. now apply step_Orderly.
Qed.

Lemma reachable_usedInRange st :
  riddles <> [] -> reachable riddles st -> usedInRange riddles st.
Proof.
  intros Hne [evs ->]. apply (run_invariant riddles (usedInRange riddles)).
  - intros i Hi. now apply elem_of_nil in Hi.
  - intros st e. now apply step_usedInRange.
Qed.

End Rounds.

(** X26.  When the pause of a correct answer ends and the list of
    used sets captured with the answer has fewer entries than the
    catalog and lacks a set of the catalog, the engine adds the riddle
    points, sets the time to the minimum of the ceiling and the time
    plus the bonus, raises the round by 1, resets the word index, the
    typed text and the wrong-key count, closes the modal and returns to
    [PLAYING]; the set it shows is one the captured list lacks, and it
    is appended to the current list. *)
Theorem X26_correct_answer_next_round (riddles : list Riddle) (st : State)
    (cl : AnswerClosure) (rest : list AnswerClosure) (rnd : nat) :
  pendingAnswer st = cl :: rest ->
  cl_correct cl = true ->
  0 <= timeLeft st ->
  (length (cl_usedRiddleIndices cl) < length riddles)%nat ->
  (exists j, (j < length riddles)%nat /\ (j ∉ cl_usedRiddleIndices cl)) ->
  let st' := step riddles st (AnswerTimeout rnd) in
  score st' = score st + GAME_CONFIG.POINTS_PER_RIDDLE /\
  timeLeft st'
  = Z.min GAME_CONFIG.MAX_TIME (timeLeft st + GAME_CONFIG.BONUS_TIME) /\
  currentRound st' = currentRound st + 1 /\
  currentWordIndex st' = 0%nat /\
  typedText st' = "" /\
  wrongKeyCount st' = 0 /\
  (currentRiddleIndex st' ∉ cl_usedRiddleIndices cl) /\
  (currentRiddleIndex st' < length riddles)%nat /\
  usedRiddleIndices st'
  = (usedRiddleIndices st ++ [currentRiddleIndex st'])%list /\
  gameState st' = PLAYING /\
  showRiddleModal st' = false /\
  pendingAnswer st' = rest.
Proof.
  intros Hq Hc Ht Hlen Hj st'.
  destruct (step_AnswerTimeout_next riddles cl rest rnd st Hq Hc Ht Hlen Hj)
    as (next & Hn & Hlt & E).
  subst st'. rewrite E. simpl.
  unfold GAME_CONFIG.MAX_TIME, GAME_CONFIG.BONUS_TIME.
  repeat split; auto. lia.
Qed.

Lemma X26_correct_answer_next_round_witness :
  let st' := run twoSets [SelectAnswer 1; AnswerTimeout 0] riddleTime in
  score st' = 30 /\ timeLeft st' = 40 /\ gameState st' = PLAYING /\
  usedRiddleIndices st' = [0; 1]%nat.
Proof.
  cbv zeta. rewrite run_cons. cbn [run fold_left].
  pose proof (X26_correct_answer_next_round twoSets
                (step twoSets riddleTime (SelectAnswer 1))
                {| cl_correct := true; cl_usedRiddleIndices := [0%nat] |}
                [] 0) as H.
  destruct H as (Hs & Ht & _ & _ & _ & _ & _ & _ & Hu & Hg & _);
    try (vm_compute; reflexivity).
  - vm_compute. discriminate.
  - exists 1%nat. split; [simpl; lia|]. intros Hin.
    apply list_elem_of_singleton in Hin. discriminate.
  - vm_compute in Hs, Ht, Hg, Hu. vm_compute. tauto.
Defined.

(** X27.  In every state a session can reach, with a catalog that has
    a riddle set, the used sets are sets of the catalog, and the set on
    show is the last one recorded.  Every event leaves the list alone,
    starts a new session from the menu, or is the end of the pause of a
    correct answer and appends, and shows, a set of the catalog that
    the list captured with that answer lacks. *)
Theorem X27_used_sets_recorded (riddles : list Riddle) (evs : list Event) :
  let st := run riddles evs initialState in
  (riddles <> [] ->
   forall i, i ∈ usedRiddleIndices st -> (i < length riddles)%nat) /\
  (usedRiddleIndices st = [] \/
   list.last (usedRiddleIndices st) = Some (currentRiddleIndex st)) /\
  forall e, usedStep riddles st (step riddles st e) e.
Proof.
  intros st. split; [|split].
  - intros Hne. apply (reachable_usedInRange riddles); [exact Hne|].
    now exists evs.
  - apply (run_invariant riddles usedCurrent).
    + now left.
    + intros s e. apply step_usedCurrent.
  - intros e. apply step_usedStep.
Qed.

(** X28.  On a run in which no game is started while an answer waits
    for the end of its pause, no riddle set is used twice, with a
    catalog that has a riddle set the list of used sets is no longer
    than the catalog, at most one answer waits, and it was selected
    with the current list of used sets. *)
Theorem X28_no_repeat_without_stale_answer (riddles : list Riddle)
    (evs : list Event) :
  startsAfterAnswers riddles evs initialState ->
  let st := run riddles evs initialState in
  NoDup (usedRiddleIndices st) /\
  (riddles <> [] -> (length (usedRiddleIndices st) <= length riddles)%nat) /\
  (length (pendingAnswer st) <= 1)%nat /\
  forall cl, cl ∈ pendingAnswer st ->
             cl_usedRiddleIndices cl = usedRiddleIndices st.
Proof.
  intros Hs st.
  destruct (run_Orderly riddles evs initialState Orderly_initial Hs)
    as [Hnd Hp].
  fold st in Hnd, Hp. split; [exact Hnd|]. split; [|split].
  - intros Hne. apply used_length; [exact Hnd|].
    apply (reachable_usedInRange riddles); [exact Hne | now exists evs].
  - destruct Hp as [->|(cl & -> & _)]; simpl; lia.
  - intros cl Hin. destruct Hp as [Hp|(cl' & Hq & Hc & _)].
    + rewrite Hp in Hin. now apply elem_of_nil in Hin.
    + rewrite Hq in Hin. apply list_elem_of_singleton in Hin. now subst.
Qed.

Lemma X28_no_repeat_without_stale_answer_witness :
  let st :=
    run twoSets
      (StartGame 0 :: map KeyPress (letters "CATDOG")
         ++ [SelectAnswer 1; AnswerTimeout 0])%list
      initialState in
  usedRiddleIndices st = [0; 1]%nat /\ NoDup (usedRiddleIndices st).
Proof.
  pose proof (X28_no_repeat_without_stale_answer twoSets
    (StartGame 0 :: map KeyPress (letters "CATDOG")
       ++ [SelectAnswer 1; AnswerTimeout 0])%list) as H.
  destruct H as (H & _).
  - vm_compute. repeat split; intros; discriminate.
  - split; [vm_compute; reflexivity | exact H].
Defined.

(** X29.  On such a run, when a correct answer waits for the end of
    its pause and a set of the catalog is still unused, the end of the
    pause starts the next round with one of the unused sets: the riddle
    points are added, the time is the minimum of the ceiling and the
    time plus the bonus, the round is raised by 1, the word index, the
    typed text and the wrong-key count are reset, and the state is
    [PLAYING]. *)
Theorem X29_next_round_without_stale_answer (riddles : list Riddle)
    (evs : list Event) (cl : AnswerClosure) (rnd : nat) :
  startsAfterAnswers riddles evs initialState ->
  let st := run riddles evs initialState in
  cl ∈ pendingAnswer st ->
  cl_correct cl = true ->
  (exists j, (j < length riddles)%nat /\ (j ∉ usedRiddleIndices st)) ->
  let st' := step riddles st (AnswerTimeout rnd) in
  score st' = score st + GAME_CONFIG.POINTS_PER_RIDDLE /\
  timeLeft st'
  = Z.min GAME_CONFIG.MAX_TIME (timeLeft st + GAME_CONFIG.BONUS_TIME) /\
  currentRound st' = currentRound st + 1 /\
  currentWordIndex st' = 0%nat /\
  typedText st' = "" /\
  wrongKeyCount st' = 0 /\
  (currentRiddleIndex st' ∉ usedRiddleIndices st) /\
  (currentRiddleIndex st' < length riddles)%nat /\
  usedRiddleIndices st'
  = (usedRiddleIndices st ++ [currentRiddleIndex st'])%list /\
  gameState st' = PLAYING /\
  pendingAnswer st' = [].
Proof.
  intros Hs st Hin Hc (j & Hj & Hnj) st'.
  assert (riddles <> []) as Hne by (intros ->; simpl in Hj; lia).
  assert (reachable riddles st) as Hr by now exists evs.
  destruct (run_Orderly riddles evs initialState Orderly_initial Hs)
    as [Hnd Hp].
  fold st in Hnd, Hp.
  destruct Hp as [Hp|(cl' & Hq & Hu & _)];
    [rewrite Hp in Hin; now apply elem_of_nil in Hin|].
  rewrite Hq in Hin. apply list_elem_of_singleton in Hin. subst cl'.
  destruct (reachable_Inv riddles st Hr) as [_ Ht _ _].
  pose proof (reachable_usedInRange riddles st Hne Hr) as Hrange.
  pose proof (unused_length riddles _ j Hnd Hrange Hj Hnj) as Hlen.
  destruct (step_AnswerTimeout_next riddles cl [] rnd st Hq Hc Ht)
    as (next & Hn & Hlt & E).
  - now rewrite Hu.
  - exists j. now rewrite Hu.
  - subst st'. rewrite E. simpl. rewrite Hu in Hn.
    unfold GAME_CONFIG.MAX_TIME, GAME_CONFIG.BONUS_TIME.
    repeat split; auto. lia.
Qed.

Lemma X29_next_round_without_stale_answer_witness :
  let st :=
    run twoSets
      (StartGame 0 :: map KeyPress (letters "CATDOG") ++ [SelectAnswer 1])%list
      initialState in
  let st' := step twoSets st (AnswerTimeout 0) in
  score st' = 30 /\ gameState st' = PLAYING /\ currentRiddleIndex st' = 1%nat.
Proof.
  pose proof (X29_next_round_without_stale_answer twoSets
    (StartGame 0 :: map KeyPress (letters "CATDOG") ++ [SelectAnswer 1])%list
    {| cl_correct := true; cl_usedRiddleIndices := [0%nat] |} 0) as H.
  destruct H as (Hs & _ & _ & _ & _ & _ & _ & _ & _ & Hg & _).
  - vm_compute. repeat split; intros; discriminate.
  - vm_compute. apply list_elem_of_here.
  - reflexivity.
  - exists 1%nat. split; [simpl; lia|]. vm_compute. intros Hin.
    apply list_elem_of_singleton in Hin. discriminate.
  - vm_compute in Hs, Hg. vm_compute. tauto.
Defined.

(** ** The queue of pending answers *)

Lemma pendingAnswer_effects (riddles : list Riddle) (prev st : State) :
  pendingAnswer (timerEffect (modalEffect riddles prev st)) = pendingAnswer st.
Proof.
  unfold timerEffect, endGame.
  destruct (modalEffect_cases riddles prev st) as [->|[_ ->]];
    now case_match.
Qed.

(** X30.  A pending answer is removed only by its own timeout, oldest
    first.  A selection leaves the queue as it is or, when the modal is
    open, shows no result and lists the option, shows the result and
    appends one answer, with the check made on the riddle on show and
    the current list of used sets.  Key presses, ticks, word advances,
    the end of the game, the return to the menu, the time selection and
    the start of a new game leave the queue as it is. *)
Theorem X30_pending_answer_never_cancelled (riddles : list Riddle)
    (st : State) (e : Event) :
  let st' := step riddles st e in
  match e with
  | SelectAnswer answerIndex =>
      pendingAnswer st' = pendingAnswer st \/
      exists riddle,
        currentRiddle riddles st = Some riddle /\
        showRiddleModal st = true /\ showResult st = false /\
        (answerIndex < length (options riddle))%nat /\
        showResult st' = true /\
        pendingAnswer st'
        = (pendingAnswer st ++ [answerClosureOf riddle answerIndex st])%list
  | AnswerTimeout _ => pendingAnswer st' = tail (pendingAnswer st)
  | _ => pendingAnswer st' = pendingAnswer st
  end.
Proof.
  intros st'. subst st'. unfold step.
  destruct e; rewrite ?pendingAnswer_effects; simpl.
  - now case_match.
  - now case_match.
  - apply handleKeyPress_modal.
  - destruct (handleAnswerSelect_cases riddles answerIndex st)
      as [E|(r & Hr & Ho & Hs & Hi & E)]; rewrite E; [now left|].
    right. exists r. rewrite modalEffect_same by reflexivity.
    repeat split; auto.
    unfold timerEffect, endGame. now case_match.
  - unfold answerTimeout.
    destruct (pendingAnswer st) as [|cl rest] eqn:E; [now rewrite E|].
    unfold handleRiddleAnswer, endGame. repeat case_match; reflexivity.
  - unfold tick. now case_match.
  - unfold advanceTimeout. case_match; [reflexivity|].
    now rewrite (proj1 (moveToNextWord_modal riddles _ _ _)).
  - reflexivity.
Qed.
